(** * gperf GCC tracing plugin: tracking and trace emission

    A shallow embedding of [src/tracking.cpp] and [src/perf_output.cpp]
    (with the types of [include/comm.h] and the callbacks of
    [src/plugin.cpp]), and the properties of the interval bookkeeping, the
    path normalizer and the event emitter.

    Conventions.
    - [TimeStamp] and the fields of [TimeSpan] are [int64_t]: they are
      integers in [Z], and every C++ addition or subtraction on them is
      written with [add64]/[sub64], which reduce the result to the signed
      64-bit range.  The [UID] counter is an [int] and uses [wrap32].
    - [std::unordered_map] and [std::unordered_set] keyed by [std::string]
      are [gmap string _] and [gset string].  Iteration over an unordered
      map follows [map_to_list]; no statement below depends on that order.
    - [std::vector] with [emplace_back] is a list extended at its end;
      [std::stack] is a list with its top at the head.
    - A [const char*] that the code tests against [nullptr] is an
      [option string]; [const opt_pass*] is an [option opt_pass].
    - [ns_from_start()] reads the clock: the state carries the number of
      readings taken so far, and the [n]-th reading is [clock n].
    - An operation that may throw or has no defined behaviour
      ([at] on a missing key, [substr] past the end, [top] of an empty
      stack) returns [option]; [None] stands for the aborted run. *)

From stdpp Require Import gmap strings list fin_maps pretty.
From Stdlib Require Import ZArith Lia.

Local Open Scope Z_scope.

(** ** Fixed-width integers *)

Definition wrap64 (z : Z) : Z := (z + 2 ^ 63) mod 2 ^ 64 - 2 ^ 63.
Definition wrap32 (z : Z) : Z := (z + 2 ^ 31) mod 2 ^ 32 - 2 ^ 31.

Definition add64 (a b : Z) : Z := wrap64 (a + b).
Definition sub64 (a b : Z) : Z := wrap64 (a - b).

Definition in_i64 (z : Z) : Prop := - 2 ^ 63 <= z < 2 ^ 63.

(** ** comm.h *)

Definition TimeStamp := Z.

Record TimeSpan := mkTimeSpan { ts_start : Z; ts_end : Z }.

Inductive EventCategory :=
| TU | PREPROCESS | FUNCTION | STRUCT | NAMESPACE
| GIMPLE_PASS | RTL_PASS | SIMPLE_IPA_PASS | IPA_PASS | UNKNOWN.

Record TraceEvent := mkTraceEvent {
  te_name : string;
  te_category : EventCategory;
  te_ts : TimeSpan;
  te_args : option (list (string * string))
}.

(** The [decl] pointer is carried along and never read; the names are
    C strings that the tracking code takes as given. *)
Record FinishedFunction := mkFinishedFunction {
  ff_name : string;
  ff_file_name : string;
  ff_scope_name : option string;
  ff_scope_type : EventCategory
}.

(** ** The parts of GCC the plugin reads *)

(** [opt_pass_type] of tree-pass.h; [OTHER_PASS] stands for any value
    outside the four enumerators, which [pass_type] maps to [UNKNOWN]. *)
Inductive opt_pass_type :=
| GCC_GIMPLE_PASS | GCC_RTL_PASS | GCC_SIMPLE_IPA_PASS | GCC_IPA_PASS
| OTHER_PASS.

Record opt_pass := mkOptPass {
  pass_name : string;
  pass_kind : opt_pass_type;
  static_pass_number : Z
}.

(** What [start_preprocess_file] reads through a non-null [cpp_reader]:
    the name of the directory of the current buffer's file. *)
Record cpp_reader := mkCppReader { dir_name : string }.

(** ** tracking.cpp: state *)

Record OptPassEvent := mkOptPassEvent {
  ope_pass : option opt_pass;
  ope_ts : TimeSpan
}.

Record ScopeEvent := mkScopeEvent {
  se_name : string;
  se_type : EventCategory;
  se_ts : TimeSpan
}.

Record FunctionEvent := mkFunctionEvent {
  fe_name : string;
  fe_file_name : string;
  fe_ts : TimeSpan
}.

(** The four tables of the file-name normalizer. *)
Record Normalizer := mkNormalizer {
  file_to_include_directory : gmap string string;
  normalized_files_map : gmap string string;
  normalized_files : gset string;
  conflicted_files : gset string
}.

(** ** perf_output.cpp: state *)

(** One element of the [traceEvents] array.  [je_ts] is the nanosecond
    timestamp handed to [new_event]; the JSON field is this number scaled
    to microseconds in floating point at serialization. *)
Record JsonEvent := mkJsonEvent {
  je_name : string;
  je_ph : string;
  je_cat : string;
  je_ts : Z;
  je_pid : Z;
  je_tid : Z;
  je_uid : Z;
  je_args : list (string * string)
}.

(** ** The whole run *)

Record State := mkState {
  ticks : nat;
  preprocess_start : gmap string Z;
  preprocess_end : gmap string Z;
  preprocessing_stack : list string;
  last_function_parsed_ts : Z;
  last_pass : OptPassEvent;
  pass_events : list OptPassEvent;
  normalizer : Normalizer;
  scope_events : list ScopeEvent;
  function_events : list FunctionEvent;
  did_last_function_have_scope : bool;
  UID : Z;
  output_events_list : list JsonEvent
}.

Definition empty_normalizer : Normalizer := mkNormalizer ∅ ∅ ∅ ∅.

(** Globals are zero-initialized; the containers start empty. *)
Definition initial_state : State :=
  mkState 0%nat ∅ ∅ [] 0 (mkOptPassEvent None (mkTimeSpan 0 0)) []
          empty_normalizer [] [] false 0 [].

(** Field updates. *)

Definition set_ticks (v : nat) (st : State) : State :=
  mkState v (preprocess_start st) (preprocess_end st) (preprocessing_stack st)
    (last_function_parsed_ts st) (last_pass st) (pass_events st) (normalizer st)
    (scope_events st) (function_events st) (did_last_function_have_scope st)
    (UID st) (output_events_list st).

Definition set_preprocess_start (v : gmap string Z) (st : State) : State :=
  mkState (ticks st) v (preprocess_end st) (preprocessing_stack st)
    (last_function_parsed_ts st) (last_pass st) (pass_events st) (normalizer st)
    (scope_events st) (function_events st) (did_last_function_have_scope st)
    (UID st) (output_events_list st).

Definition set_preprocess_end (v : gmap string Z) (st : State) : State :=
  mkState (ticks st) (preprocess_start st) v (preprocessing_stack st)
    (last_function_parsed_ts st) (last_pass st) (pass_events st) (normalizer st)
    (scope_events st) (function_events st) (did_last_function_have_scope st)
    (UID st) (output_events_list st).

Definition set_preprocessing_stack (v : list string) (st : State) : State :=
  mkState (ticks st) (preprocess_start st) (preprocess_end st) v
    (last_function_parsed_ts st) (last_pass st) (pass_events st) (normalizer st)
    (scope_events st) (function_events st) (did_last_function_have_scope st)
    (UID st) (output_events_list st).

Definition set_last_function_parsed_ts (v : Z) (st : State) : State :=
  mkState (ticks st) (preprocess_start st) (preprocess_end st) (preprocessing_stack st)
    v (last_pass st) (pass_events st) (normalizer st)
    (scope_events st) (function_events st) (did_last_function_have_scope st)
    (UID st) (output_events_list st).

Definition set_last_pass (v : OptPassEvent) (st : State) : State :=
  mkState (ticks st) (preprocess_start st) (preprocess_end st) (preprocessing_stack st)
    (last_function_parsed_ts st) v (pass_events st) (normalizer st)
    (scope_events st) (function_events st) (did_last_function_have_scope st)
    (UID st) (output_events_list st).

Definition set_pass_events (v : list OptPassEvent) (st : State) : State :=
  mkState (ticks st) (preprocess_start st) (preprocess_end st) (preprocessing_stack st)
    (last_function_parsed_ts st) (last_pass st) v (normalizer st)
    (scope_events st) (function_events st) (did_last_function_have_scope st)
    (UID st) (output_events_list st).

Definition set_normalizer (v : Normalizer) (st : State) : State :=
  mkState (ticks st) (preprocess_start st) (preprocess_end st) (preprocessing_stack st)
    (last_function_parsed_ts st) (last_pass st) (pass_events st) v
    (scope_events st) (function_events st) (did_last_function_have_scope st)
    (UID st) (output_events_list st).

Definition set_scope_events (v : list ScopeEvent) (st : State) : State :=
  mkState (ticks st) (preprocess_start st) (preprocess_end st) (preprocessing_stack st)
    (last_function_parsed_ts st) (last_pass st) (pass_events st) (normalizer st)
    v (function_events st) (did_last_function_have_scope st)
    (UID st) (output_events_list st).

Definition set_function_events (v : list FunctionEvent) (st : State) : State :=
  mkState (ticks st) (preprocess_start st) (preprocess_end st) (preprocessing_stack st)
    (last_function_parsed_ts st) (last_pass st) (pass_events st) (normalizer st)
    (scope_events st) v (did_last_function_have_scope st)
    (UID st) (output_events_list st).

Definition set_did_last_function_have_scope (v : bool) (st : State) : State :=
  mkState (ticks st) (preprocess_start st) (preprocess_end st) (preprocessing_stack st)
    (last_function_parsed_ts st) (last_pass st) (pass_events st) (normalizer st)
    (scope_events st) (function_events st) v
    (UID st) (output_events_list st).

Definition set_UID (v : Z) (st : State) : State :=
  mkState (ticks st) (preprocess_start st) (preprocess_end st) (preprocessing_stack st)
    (last_function_parsed_ts st) (last_pass st) (pass_events st) (normalizer st)
    (scope_events st) (function_events st) (did_last_function_have_scope st)
    v (output_events_list st).

Definition set_output_events_list (v : list JsonEvent) (st : State) : State :=
  mkState (ticks st) (preprocess_start st) (preprocess_end st) (preprocessing_stack st)
    (last_function_parsed_ts st) (last_pass st) (pass_events st) (normalizer st)
    (scope_events st) (function_events st) (did_last_function_have_scope st)
    (UID st) v.

(** ** Container and string operations of the C++ library *)

(** [m.contains(k)] and [s.contains(x)]. *)
Definition map_contains {V} (m : gmap string V) (k : string) : bool :=
  match m !! k with Some _ => true | None => false end.

Definition set_contains (s : gset string) (x : string) : bool :=
  bool_decide (x ∈ s).

(** [m[k]] on an [unordered_map<string, string>]: a missing key is
    inserted with an empty string before the reference is returned. *)
Definition map_index (m : gmap string string) (k : string)
  : string * gmap string string :=
  match m !! k with
  | Some v => (v, m)
  | None => (EmptyString, <[k := EmptyString]> m)
  end.

(** [s.substr(pos)]: the characters from [pos] on; [out_of_range] when
    [pos] is beyond the length. *)
Definition substr (s : string) (pos : nat) : option string :=
  if (String.length s <? pos)%nat then None
  else Some (String.substring pos (String.length s - pos) s).

(** [s.starts_with(p)]. *)
Definition starts_with (s p : string) : bool := String.prefix p s.

(** ** tracking.cpp: the file-name normalizer *)

Definition CIRCULAR_POISON_VALUE : string := "CIRCULAR_POISON_VALUE".

Definition register_include_location (file_name dir_name : string)
    (n : Normalizer) : option Normalizer :=
  if negb (map_contains (file_to_include_directory n) file_name) then
    let file_std := file_name in
    let dirs := <[file_name := dir_name]> (file_to_include_directory n) in
    let folder_std := dir_name in
    if starts_with file_std folder_std then
      match substr file_std (String.length folder_std + 1) with
      | None => None
      | Some normalized_file =>
          let nmap := <[file_std := normalized_file]> (normalized_files_map n) in
          if set_contains (normalized_files n) normalized_file then
            Some (mkNormalizer dirs nmap (normalized_files n)
                    ({[normalized_file]} ∪ conflicted_files n))
          else
            Some (mkNormalizer dirs nmap
                    ({[normalized_file]} ∪ normalized_files n)
                    (conflicted_files n))
      end
    else
      Some (mkNormalizer dirs (normalized_files_map n) (normalized_files n)
              (conflicted_files n))
  else Some n.

(** The result and the tables as the call leaves them: both uses of
    [normalized_files_map[file_name]] go through [map_index]. *)
Definition normalized_file_name (file_name : string) (n : Normalizer)
  : string * Normalizer :=
  if map_contains (normalized_files_map n) file_name then
    let '(v, m1) := map_index (normalized_files_map n) file_name in
    if negb (set_contains (conflicted_files n) v) then
      let '(r, m2) := map_index m1 file_name in
      (r, mkNormalizer (file_to_include_directory n) m2 (normalized_files n)
            (conflicted_files n))
    else
      (file_name, mkNormalizer (file_to_include_directory n) m1
                    (normalized_files n) (conflicted_files n))
  else (file_name, n).

Definition pass_type (type : opt_pass_type) : EventCategory :=
  match type with
  | GCC_GIMPLE_PASS => GIMPLE_PASS
  | GCC_RTL_PASS => RTL_PASS
  | GCC_SIMPLE_IPA_PASS => SIMPLE_IPA_PASS
  | GCC_IPA_PASS => IPA_PASS
  | OTHER_PASS => UNKNOWN
  end.

(** ** perf_output.cpp *)

Definition MINIMUM_EVENT_LENGTH_NS : Z := 1000000.

Definition category_string (cat : EventCategory) : string :=
  match cat with
  | TU => "TU"
  | PREPROCESS => "PREPROCESS"
  | FUNCTION => "FUNCTION"
  | STRUCT => "STRUCT"
  | NAMESPACE => "NAMESPACE"
  | GIMPLE_PASS => "GIMPLE_PASS"
  | RTL_PASS => "RTL_PASS"
  | SIMPLE_IPA_PASS => "SIMPLE_IPA_PASS"
  | IPA_PASS => "IPA_PASS"
  | UNKNOWN => "UNKNOWN"
  end.

Definition new_event (event : TraceEvent) (pid tid : Z) (ts : TimeStamp)
    (phase : string) (this_uid : Z) : JsonEvent :=
  mkJsonEvent (te_name event) phase (category_string (te_category event))
    ts pid tid this_uid
    (match te_args event with Some args => args | None => [] end).

Section Model.

(** The surroundings of a run: the readings of
    [high_resolution_clock] relative to [COMPILATION_START], the file
    system as seen through [realpath], and [getpid()]. *)
Variable clock : nat → Z.
Variable realpath : string → option string.
Variable pid : Z.

Definition ns_from_start (st : State) : TimeStamp * State :=
  (clock (ticks st), set_ticks (S (ticks st)) st).

(** *** add_event *)

Definition add_event (event : TraceEvent) (st : State) : State :=
  let tid := 0 in
  if sub64 (ts_end (te_ts event)) (ts_start (te_ts event))
       <? MINIMUM_EVENT_LENGTH_NS
  then st
  else
    let this_uid := UID st in
    let st := set_UID (wrap32 (UID st + 1)) st in
    let st := set_output_events_list
                (output_events_list st ++
                 [new_event event pid tid (ts_start (te_ts event)) "B" this_uid]) st in
    set_output_events_list
      (output_events_list st ++
       [new_event event pid tid (ts_end (te_ts event)) "E" this_uid]) st.

(** *** Preprocessing *)

Definition start_preprocess_file (file_name : option string)
    (pfile : option cpp_reader) (st : State) : option State :=
  let '(now, st) := ns_from_start st in
  match file_name with
  | None => Some st
  | Some file_name =>
      if String.eqb file_name "<command-line>" then Some st
      else
        let circular :=
          map_contains (preprocess_start st) file_name &&
          negb (map_contains (preprocess_end st) file_name) in
        let file_name := if circular then CIRCULAR_POISON_VALUE else file_name in
        let pfile := if circular then None else pfile in
        let st :=
          if negb (map_contains (preprocess_start st) file_name)
          then set_preprocess_start (<[file_name := now]> (preprocess_start st)) st
          else st in
        let st := set_preprocessing_stack (file_name :: preprocessing_stack st) st in
        match pfile with
        | None => Some st
        | Some pf =>
            match realpath (dir_name pf), realpath file_name with
            | Some real_dir_name, Some real_file_name =>
                match register_include_location real_file_name real_dir_name
                        (normalizer st) with
                | Some n => Some (set_normalizer n st)
                | None => None
                end
            | _, _ => Some st
            end
        end
  end.

Definition end_preprocess_file (st : State) : option State :=
  let '(now, st) := ns_from_start st in
  match preprocessing_stack st with
  | [] => None
  | top :: rest =>
      let st :=
        if negb (map_contains (preprocess_end st) top)
        then set_preprocess_end (<[top := now]> (preprocess_end st)) st
        else st in
      let st := set_preprocessing_stack rest st in
      Some (set_last_function_parsed_ts (add64 now 3) st)
  end.

(** The [while] loop of [finish_preprocessing_stage]; every iteration
    pops the stack, so its length bounds the number of iterations. *)
Fixpoint finish_preprocessing_loop (fuel : nat) (st : State) : option State :=
  match preprocessing_stack st with
  | [] => Some st
  | _ :: _ =>
      match fuel with
      | O => None
      | S fuel =>
          match end_preprocess_file st with
          | None => None
          | Some st =>
              let '(now, st) := ns_from_start st in
              finish_preprocessing_loop fuel (set_last_function_parsed_ts now st)
          end
      end
  end.

Definition finish_preprocessing_stage (st : State) : option State :=
  finish_preprocessing_loop (length (preprocessing_stack st)) st.

Fixpoint write_preprocessing_loop (entries : list (string * Z)) (st : State)
  : option State :=
  match entries with
  | [] => Some st
  | (file, start) :: entries =>
      if String.eqb file CIRCULAR_POISON_VALUE
      then write_preprocessing_loop entries st
      else
        match preprocess_end st !! file with
        | None => None
        | Some end_ =>
            let '(name, n) := normalized_file_name file (normalizer st) in
            let st := set_normalizer n st in
            write_preprocessing_loop entries
              (add_event (mkTraceEvent name PREPROCESS (mkTimeSpan start end_) None) st)
        end
  end.

Definition write_preprocessing_events (st : State) : option State :=
  match finish_preprocessing_stage st with
  | None => None
  | Some st => write_preprocessing_loop (map_to_list (preprocess_start st)) st
  end.

(** *** Optimization passes *)

Definition start_opt_pass (pass : option opt_pass) (st : State) : State :=
  let '(now, st) := ns_from_start st in
  let closed := mkOptPassEvent (ope_pass (last_pass st))
                  (mkTimeSpan (ts_start (ope_ts (last_pass st))) now) in
  let st := set_last_pass closed st in
  let st :=
    match ope_pass (last_pass st) with
    | Some _ => set_pass_events (pass_events st ++ [last_pass st]) st
    | None => st
    end in
  let st := set_last_pass (mkOptPassEvent pass (ope_ts (last_pass st))) st in
  set_last_pass
    (mkOptPassEvent (ope_pass (last_pass st))
       (mkTimeSpan (add64 now 1) (ts_end (ope_ts (last_pass st))))) st.

(** [event.pass] is dereferenced for every stored event. *)
Fixpoint write_opt_pass_loop (events : list OptPassEvent) (st : State)
  : option State :=
  match events with
  | [] => Some st
  | event :: events =>
      match ope_pass event with
      | None => None
      | Some pass =>
          let args := [("static_pass_number"%string, pretty (static_pass_number pass))] in
          write_opt_pass_loop events
            (add_event (mkTraceEvent (pass_name pass) (pass_type (pass_kind pass))
                          (ope_ts event) (Some args)) st)
      end
  end.

Definition write_opt_pass_events (st : State) : option State :=
  write_opt_pass_loop (pass_events st) st.

(** *** Functions and scopes *)

Definition end_parse_function (info : FinishedFunction) (st : State) : State :=
  let '(now, st) := ns_from_start st in
  let ts := mkTimeSpan (add64 (last_function_parsed_ts st) 3) now in
  let st := set_last_function_parsed_ts now st in
  let st := set_function_events
              (function_events st ++
               [mkFunctionEvent (ff_name info) (ff_file_name info) ts]) st in
  match ff_scope_name info with
  | Some scope_name =>
      let st :=
        match last (scope_events st) with
        | Some back =>
            if did_last_function_have_scope st && String.eqb (se_name back) scope_name
            then
              set_scope_events
                (removelast (scope_events st) ++
                 [mkScopeEvent (se_name back) (se_type back)
                    (mkTimeSpan (ts_start (se_ts back)) (add64 (ts_end ts) 1))]) st
            else
              set_scope_events
                (scope_events st ++
                 [mkScopeEvent scope_name (ff_scope_type info)
                    (mkTimeSpan (sub64 (ts_start ts) 1) (add64 (ts_end ts) 1))]) st
        | None =>
            set_scope_events
              (scope_events st ++
               [mkScopeEvent scope_name (ff_scope_type info)
                  (mkTimeSpan (sub64 (ts_start ts) 1) (add64 (ts_end ts) 1))]) st
        end in
      set_did_last_function_have_scope true st
  | None => set_did_last_function_have_scope false st
  end.

Fixpoint write_scopes_loop (events : list ScopeEvent) (st : State) : State :=
  match events with
  | [] => st
  | event :: events =>
      write_scopes_loop events
        (add_event (mkTraceEvent (se_name event) (se_type event) (se_ts event) None) st)
  end.

Definition write_all_scopes (st : State) : State :=
  write_scopes_loop (scope_events st) st.

Fixpoint write_functions_loop (events : list FunctionEvent) (st : State) : State :=
  match events with
  | [] => st
  | event :: events =>
      let '(file, n) := normalized_file_name (fe_file_name event) (normalizer st) in
      let st := set_normalizer n st in
      let args := [("file"%string, file)] in
      write_functions_loop events
        (add_event (mkTraceEvent (fe_name event) FUNCTION (fe_ts event) (Some args)) st)
  end.

Definition write_all_functions (st : State) : State :=
  write_functions_loop (function_events st) st.

(** *** write_all_events

    The serialization of the collected array and the release of the
    JSON object follow; they read [output_events_list] and change
    nothing that is modelled here. *)
Definition write_all_events (st : State) : option State :=
  let '(now, st) := ns_from_start st in
  let st := add_event (mkTraceEvent "TU" TU (mkTimeSpan 0 now) None) st in
  match write_preprocessing_events st with
  | None => None
  | Some st =>
      match write_opt_pass_events st with
      | None => None
      | Some st => Some (write_all_scopes (write_all_functions st))
      end
  end.

(** ** plugin.cpp: the callbacks GCC drives *)

Inductive lc_reason := LC_ENTER | LC_LEAVE | LC_OTHER.

Record line_map_ordinary := mkLineMap {
  map_file_name : option string;
  map_reason : lc_reason
}.

Inductive Callback :=
| cb_start_compilation (main_input_filename : option string)
| cb_file_change (pfile : option cpp_reader) (new_map : option line_map_ordinary)
| cb_finish_decl
| cb_finish_parse_function (info : FinishedFunction)
| cb_pass_execution (pass : option opt_pass).

Definition callback (cb : Callback) (st : State) : option State :=
  match cb with
  | cb_start_compilation main => start_preprocess_file main None st
  | cb_file_change pfile new_map =>
      match new_map with
      | Some m =>
          match map_file_name m with
          | Some file_name =>
              match map_reason m with
              | LC_ENTER => start_preprocess_file (Some file_name) pfile st
              | LC_LEAVE => end_preprocess_file st
              | LC_OTHER => Some st
              end
          | None => Some st
          end
      | None => Some st
      end
  | cb_finish_decl => finish_preprocessing_stage st
  | cb_finish_parse_function info => Some (end_parse_function info st)
  | cb_pass_execution pass => Some (start_opt_pass pass st)
  end.

(** The callbacks of one compilation, in the order GCC delivers them. *)
Fixpoint run (cbs : list Callback) (st : State) : option State :=
  match cbs with
  | [] => Some st
  | cb :: cbs =>
      match callback cb st with
      | None => None
      | Some st => run cbs st
      end
  end.

(** [cb_plugin_finish] closes the run. *)
Definition cb_plugin_finish (st : State) : option State := write_all_events st.

End Model.

(** ** Specification vocabulary *)

(** [resolve] as the design document words it: the normalized name if
    one exists and is not in the conflict set, the path itself
    otherwise. *)
Definition resolve (n : Normalizer) (absolute_file_path : string) : string :=
  match normalized_files_map n !! absolute_file_path with
  | Some name => if decide (name ∈ conflicted_files n) then absolute_file_path else name
  | None => absolute_file_path
  end.

(** A series of registrations, each a file with its include directory. *)
Fixpoint register_all (entries : list (string * string)) (n : Normalizer)
  : option Normalizer :=
  match entries with
  | [] => Some n
  | (file_name, dir) :: entries =>
      match register_include_location file_name dir n with
      | None => None
      | Some n => register_all entries n
      end
  end.

Definition duration (event : TraceEvent) : Z :=
  ts_end (te_ts event) - ts_start (te_ts event).

(** Successive calls of [add_event]. *)
Definition add_events (pid : Z) (events : list TraceEvent) (st : State) : State :=
  fold_left (λ st event, add_event pid event st) events st.

(** The begin/end records of a list of events, numbered from [uid]. *)
Fixpoint paired_records (pid : Z) (uid : Z) (events : list TraceEvent)
  : list JsonEvent :=
  match events with
  | [] => []
  | event :: events =>
      new_event event pid 0 (ts_start (te_ts event)) "B" uid ::
      new_event event pid 0 (ts_end (te_ts event)) "E" uid ::
      paired_records pid (uid + 1) events
  end.

(** The inclusion maps, the stack, the normalizer tables and the
    last-boundary timestamp agree in two states. *)
Definition tracking_unchanged (st st' : State) : Prop :=
  preprocess_start st' = preprocess_start st ∧
  preprocess_end st' = preprocess_end st ∧
  preprocessing_stack st' = preprocessing_stack st ∧
  normalizer st' = normalizer st ∧
  last_function_parsed_ts st' = last_function_parsed_ts st.

(** The test of [end_parse_function] that decides between extending the
    last scope event and appending a new one. *)
Definition extends_last_scope (st : State) (scope_name : string) : bool :=
  match last (scope_events st) with
  | Some back => did_last_function_have_scope st && String.eqb (se_name back) scope_name
  | None => false
  end.

(** ** Vocabulary for runs *)

(** The circular-inclusion test of [start_preprocess_file], and the key
    the call records under. *)
Definition is_circular (st : State) (file_name : string) : bool :=
  map_contains (preprocess_start st) file_name &&
  negb (map_contains (preprocess_end st) file_name).

Definition inclusion_key (st : State) (file_name : string) : string :=
  if is_circular st file_name then CIRCULAR_POISON_VALUE else file_name.

(** The bookkeeping of [start_preprocess_file] once the key is chosen:
    one clock reading, the first-seen start time, the push. *)
Definition push_inclusion (clock : nat → Z) (key : string) (st : State) : State :=
  let now := clock (ticks st) in
  let st := set_ticks (S (ticks st)) st in
  let st :=
    if negb (map_contains (preprocess_start st) key)
    then set_preprocess_start (<[key := now]> (preprocess_start st)) st
    else st in
  set_preprocessing_stack (key :: preprocessing_stack st) st.

(** The event [write_preprocessing_events] builds for one entry of
    [preprocess_start]; none for the sentinel. *)
Definition inclusion_trace_event (st : State) (entry : string * Z)
  : option TraceEvent :=
  if String.eqb entry.1 CIRCULAR_POISON_VALUE then None
  else
    (λ end_, mkTraceEvent (resolve (normalizer st) entry.1) PREPROCESS
               (mkTimeSpan entry.2 end_) None)
    <$> preprocess_end st !! entry.1.

(** The event [write_opt_pass_events] builds for one stored pass. *)
Definition stage_trace_event (event : OptPassEvent) : option TraceEvent :=
  (λ pass, mkTraceEvent (pass_name pass) (pass_type (pass_kind pass)) (ope_ts event)
             (Some [("static_pass_number"%string, pretty (static_pass_number pass))]))
  <$> ope_pass event.

(** Two states that differ at most in what [add_event] writes. *)
Definition emitted_into (st st' : State) : Prop :=
  ∃ uid out, st' = set_output_events_list out (set_UID uid st).

(** The passes handed to [start_opt_pass] during a run, in order. *)
Fixpoint passes_executed (cbs : list Callback) : list (option opt_pass) :=
  match cbs with
  | [] => []
  | cb_pass_execution pass :: cbs => pass :: passes_executed cbs
  | _ :: cbs => passes_executed cbs
  end.

(** [end_preprocess_file] on a stack [top :: rest]. *)
Definition close_top (clock : nat → Z) (top : string) (rest : list string)
    (st : State) : State :=
  let now := clock (ticks st) in
  let st := set_ticks (S (ticks st)) st in
  let st :=
    if negb (map_contains (preprocess_end st) top)
    then set_preprocess_end (<[top := now]> (preprocess_end st)) st
    else st in
  let st := set_preprocessing_stack rest st in
  set_last_function_parsed_ts (add64 now 3) st.

(** The second statement of the loop body of
    [finish_preprocessing_stage]. *)
Definition read_boundary (clock : nat → Z) (st : State) : State :=
  set_last_function_parsed_ts (clock (ticks st)) (set_ticks (S (ticks st)) st).

(** Every inclusion that was started is closed or still on the stack. *)
Definition inclusions_accounted (st : State) : Prop :=
  ∀ k, is_Some (preprocess_start st !! k) →
       is_Some (preprocess_end st !! k) ∨ k ∈ preprocessing_stack st.

(** Every stored pass event has a pass to dereference. *)
Definition passes_present (st : State) : Prop :=
  Forall (λ event, is_Some (ope_pass event)) (pass_events st).

(** A property of the state that the steps of a run other than
    [start_opt_pass] keep: the clock reading of a filtered call, the
    bookkeeping of an inclusion (whatever the registration does to the
    normalizer), the two statements of the forced-close loop, a parsed
    function, and the writes of [add_event]. *)
Record preserved (clock : nat → Z) (P : State → Prop) : Prop := mkPreserved {
  pres_tick : ∀ st, P st → P (set_ticks (S (ticks st)) st);
  pres_push : ∀ st key n, P st → P (set_normalizer n (push_inclusion clock key st));
  pres_close : ∀ st top rest,
    preprocessing_stack st = top :: rest → P st → P (close_top clock top rest st);
  pres_read : ∀ st, P st → P (read_boundary clock st);
  pres_function : ∀ st info, P st → P (end_parse_function clock info st);
  pres_emit : ∀ st st', emitted_into st st' → P st → P st'
}.

(** What the writers of [write_all_events] need from the state. *)
Definition writable (st : State) : Prop :=
  inclusions_accounted st ∧ passes_present st.

(** The event for the whole translation unit. *)
Definition tu_event (now : Z) : TraceEvent :=
  mkTraceEvent "TU" TU (mkTimeSpan 0 now) None.

(** ** Vocabulary for timing *)

Definition monotone (clock : nat → Z) : Prop :=
  ∀ i j, (i ≤ j)%nat → clock i ≤ clock j.

(** Readings are non-negative and stay far below the 64-bit limit. *)
Definition clock_in_range (clock : nat → Z) : Prop :=
  ∀ i, 0 ≤ clock i < 2 ^ 62.

(** [v] is at most every reading the clock has yet to give. *)
Definition before (clock : nat → Z) (st : State) (v : Z) : Prop :=
  ∀ j, (ticks st ≤ j)%nat → v ≤ clock j.

(** Every later span of the list starts after every earlier one ends. *)
Definition strictly_after (spans : list TimeSpan) : Prop :=
  ∀ i j a b, (i < j)%nat → spans !! i = Some a → spans !! j = Some b →
             ts_end a < ts_start b.

Definition forward (span : TimeSpan) : Prop := ts_start span ≤ ts_end span.

(** [end] is at most [slack] nanoseconds short of [start]. *)
Definition forward_within (slack : Z) (span : TimeSpan) : Prop :=
  ts_start span ≤ ts_end span + slack.

Definition inclusions_forward (st : State) : Prop :=
  ∀ k s e, preprocess_start st !! k = Some s → preprocess_end st !! k = Some e → s ≤ e.

(** The first half of C1 as worded: every recorded span has
    [end >= start]. *)
Definition all_spans_forward (st : State) : Prop :=
  inclusions_forward st ∧
  Forall forward (ope_ts <$> pass_events st) ∧
  Forall forward (fe_ts <$> function_events st) ∧
  Forall forward (se_ts <$> scope_events st).

(** The second half of C1: the two sequential sources are ordered. *)
Definition sequential_sources_ordered (st : State) : Prop :=
  strictly_after (ope_ts <$> pass_events st) ∧
  strictly_after (fe_ts <$> function_events st).

(** What the code does guarantee about the shape of every span. *)
Definition spans_nearly_forward (st : State) : Prop :=
  inclusions_forward st ∧
  Forall (forward_within 1) (ope_ts <$> pass_events st) ∧
  Forall (forward_within 6) (fe_ts <$> function_events st) ∧
  Forall (forward_within 4) (se_ts <$> scope_events st).

(** Invariants behind these properties. *)
Definition inclusion_timing (clock : nat → Z) (st : State) : Prop :=
  (∀ k s, preprocess_start st !! k = Some s → before clock st s) ∧
  (∀ k e, preprocess_end st !! k = Some e →
          ∃ s, preprocess_start st !! k = Some s ∧ s ≤ e) ∧
  (∀ k, k ∈ preprocessing_stack st → is_Some (preprocess_start st !! k)).

Definition function_timing (clock : nat → Z) (st : State) : Prop :=
  0 ≤ last_function_parsed_ts st ∧
  before clock st (last_function_parsed_ts st - 3) ∧
  (∀ f, f ∈ function_events st →
        ts_end (fe_ts f) ≤ last_function_parsed_ts st ∧
        before clock st (ts_end (fe_ts f)) ∧
        forward_within 6 (fe_ts f)) ∧
  strictly_after (fe_ts <$> function_events st) ∧
  (∀ s, s ∈ scope_events st →
        before clock st (ts_end (se_ts s) - 1) ∧ forward_within 4 (se_ts s)).

Definition pass_timing (clock : nat → Z) (st : State) : Prop :=
  0 ≤ ts_start (ope_ts (last_pass st)) ∧
  before clock st (ts_start (ope_ts (last_pass st)) - 1) ∧
  (∀ e, e ∈ pass_events st →
        ts_end (ope_ts e) < ts_start (ope_ts (last_pass st)) ∧
        before clock st (ts_end (ope_ts e)) ∧
        forward_within 1 (ope_ts e)) ∧
  strictly_after (ope_ts <$> pass_events st).

Definition timing_invariant (clock : nat → Z) (st : State) : Prop :=
  inclusion_timing clock st ∧ function_timing clock st ∧ pass_timing clock st.

(** What a registration never undoes: claimed names, conflicts, and the
    entry of a file that is already registered. *)
Definition normalizer_le (n n' : Normalizer) : Prop :=
  normalized_files n ⊆ normalized_files n' ∧
  conflicted_files n ⊆ conflicted_files n' ∧
  ∀ k d v, file_to_include_directory n !! k = Some d →
           normalized_files_map n !! k = Some v →
           is_Some (file_to_include_directory n' !! k) ∧
           normalized_files_map n' !! k = Some v.

(** ** Sample inputs *)

Definition event_999999 : TraceEvent :=
  mkTraceEvent "short" FUNCTION (mkTimeSpan 5 1000004) None.

Definition event_1000001 : TraceEvent :=
  mkTraceEvent "long" FUNCTION (mkTimeSpan 5 1000006) None.

Definition event_1000000 : TraceEvent :=
  mkTraceEvent "edge" STRUCT (mkTimeSpan 7 1000007) None.

(** A clock that advances by one nanosecond per reading. *)
Definition clock_1ns (n : nat) : Z := 1000 + Z.of_nat n.

(** A clock that advances by five milliseconds per reading. *)
Definition clock_5ms (n : nat) : Z := 5000000 * Z.of_nat n.

(** One nanosecond per reading for the first thousand readings, constant
    afterwards: monotone, and within range at every reading. *)
Definition clock_1ns_capped (n : nat) : Z := 1000 + Z.of_nat (Nat.min n 1000).

(** A clock too coarse to tell its readings apart. *)
Definition clock_stopped (n : nat) : Z := 1000.

(** A file system without symbolic links. *)
Definition realpath_id (path : string) : option string := Some path.

Definition info_in_NS (name : string) : FinishedFunction :=
  mkFinishedFunction name "main.cpp" (Some "NS"%string) NAMESPACE.

Definition enter (file_name : string) : Callback :=
  cb_file_change (Some (mkCppReader "/usr/include"))
    (Some (mkLineMap (Some file_name) LC_ENTER)).

Definition leave (file_name : string) : Callback :=
  cb_file_change (Some (mkCppReader "/usr/include"))
    (Some (mkLineMap (Some file_name) LC_LEAVE)).

Definition pass_inline : opt_pass := mkOptPass "inline" GCC_GIMPLE_PASS 3.

(** A run with one unmatched and one circular inclusion. *)
Definition run_with_open_inclusions : list Callback :=
  [cb_start_compilation (Some "main.cpp"%string); enter "a.h"; enter "a.h"].

(** A run in which a single pass is started. *)
Definition run_with_one_pass : list Callback :=
  [cb_start_compilation (Some "main.cpp"%string); cb_pass_execution (Some pass_inline)].

(** A run in which two passes are started. *)
Definition run_with_two_passes : list Callback :=
  [cb_pass_execution (Some pass_inline); cb_pass_execution (Some pass_inline)].

(** A header is read and left, and a function is parsed one nanosecond
    later. *)
Definition run_with_quick_function : list Callback :=
  [enter "a.h"; leave "a.h"; cb_finish_parse_function (info_in_NS "f")].

(** ** Tactics *)

(** Reads a field through the field updates around it. *)
Ltac fields :=
  cbn [ticks preprocess_start preprocess_end preprocessing_stack
       last_function_parsed_ts last_pass pass_events normalizer scope_events
       function_events did_last_function_have_scope UID output_events_list
       set_ticks set_preprocess_start set_preprocess_end set_preprocessing_stack
       set_last_function_parsed_ts set_last_pass set_pass_events set_normalizer
       set_scope_events set_function_events set_did_last_function_have_scope
       set_UID set_output_events_list initial_state].

(** Cases on the [contains] tests in the goal. *)
Ltac split_conditional :=
  repeat match goal with
         | |- context [map_contains ?m ?k] => destruct (map_contains m k)
         end.

(** Steps that leave the fields read by [P] alone. *)
Ltac untouched :=
  constructor;
  [ by intros ?
  | by (intros ? ? ? ?; unfold push_inclusion; cbn; split_conditional)
  | by (intros ? ? ? ? ?; unfold close_top; cbn; split_conditional)
  | by intros ?
  | by (intros st info ?; unfold end_parse_function, ns_from_start; cbn;
        destruct (ff_scope_name info);
        [destruct (last (scope_events st)); [destruct (_ && _)|]|])
  | by intros ? ? (? & ? & ->) ? ].

(** ** Vocabulary for the normalizer tables *)

(** What the four tables say about each other: a stored name is its
    file's path without the directory prefix and the character after it,
    every stored name is claimed, every conflict is a claimed name, and a
    name stored for two files is a conflict. *)
Definition normalizer_wf (n : Normalizer) : Prop :=
  (∀ f c, normalized_files_map n !! f = Some c →
          ∃ d, file_to_include_directory n !! f = Some d ∧
               starts_with f d = true ∧
               substr f (String.length d + 1) = Some c) ∧
  (∀ f c, normalized_files_map n !! f = Some c → c ∈ normalized_files n) ∧
  conflicted_files n ⊆ normalized_files n ∧
  (∀ f1 f2 c, f1 ≠ f2 →
              normalized_files_map n !! f1 = Some c →
              normalized_files_map n !! f2 = Some c →
              c ∈ conflicted_files n).

(** ** Vocabulary for the inclusion stack and the trace *)

(** How often [file] is on the preprocessing stack. *)
Definition occurrences (file : string) (stack : list string) : nat :=
  length (filter (λ k, k = file) stack).

(** Files on the stack have a start time, and a file other than the
    sentinel that is not closed yet is on the stack at most once. *)
Definition stack_discipline (st : State) : Prop :=
  (∀ k, k ∈ preprocessing_stack st → is_Some (preprocess_start st !! k)) ∧
  (∀ k, is_Some (preprocess_end st !! k) → is_Some (preprocess_start st !! k)) ∧
  (∀ f, f ≠ CIRCULAR_POISON_VALUE → preprocess_end st !! f = None →
        (occurrences f (preprocessing_stack st) ≤ 1)%nat).

(** The event [write_all_functions] builds for one stored function. *)
Definition function_trace_event (n : Normalizer) (event : FunctionEvent) : TraceEvent :=
  mkTraceEvent (fe_name event) FUNCTION (fe_ts event)
    (Some [("file"%string, resolve n (fe_file_name event))]).

(** The event [write_all_scopes] builds for one stored scope. *)
Definition scope_trace_event (event : ScopeEvent) : TraceEvent :=
  mkTraceEvent (se_name event) (se_type event) (se_ts event) None.

(** Everything [write_all_events] hands to [add_event], in order, read
    off the state [st] in which all inclusions are closed; [now] is the
    reading taken for the translation unit and [files] lists the entries
    of [preprocess_start] in the order in which the loop of
    [write_preprocessing_events] visits them. *)
Definition trace_events (now : Z) (files : list (string * Z)) (st : State)
  : list TraceEvent :=
  tu_event now ::
  omap (inclusion_trace_event st) files ++
  omap stage_trace_event (pass_events st) ++
  (function_trace_event (normalizer st) <$> function_events st) ++
  (scope_trace_event <$> scope_events st).

(** A timestamp the tracking code can have stored when the clock is in
    range. *)
Definition stamp (v : Z) : Prop := 0 ≤ v ≤ 2 ^ 62 + 6.

Definition span_stamps (span : TimeSpan) : Prop :=
  stamp (ts_start span) ∧ stamp (ts_end span).

Definition stamps_in_range (st : State) : Prop :=
  (∀ k v, preprocess_start st !! k = Some v → stamp v) ∧
  (∀ k v, preprocess_end st !! k = Some v → stamp v) ∧
  0 ≤ last_function_parsed_ts st ≤ 2 ^ 62 + 3 ∧
  span_stamps (ope_ts (last_pass st)) ∧
  Forall (λ e, span_stamps (ope_ts e)) (pass_events st) ∧
  Forall (λ e, span_stamps (fe_ts e)) (function_events st) ∧
  Forall (λ e, span_stamps (se_ts e)) (scope_events st).

(** Tracking has not written to the trace yet. *)
Definition nothing_emitted (st : State) : Prop :=
  UID st = 0 ∧ output_events_list st = [].

(** Each span starts one nanosecond after the one before it ends. *)
Definition contiguous (spans : list TimeSpan) : Prop :=
  ∀ i a b, spans !! i = Some a → spans !! S i = Some b →
           ts_start b = ts_end a + 1.

(** The functions handed to [end_parse_function] during a run. *)
Fixpoint functions_parsed (cbs : list Callback) : list FinishedFunction :=
  match cbs with
  | [] => []
  | cb_finish_parse_function info :: cbs => info :: functions_parsed cbs
  | _ :: cbs => functions_parsed cbs
  end.

(** ** plugin.cpp: from a declaration to [FinishedFunction]

    What [cb_finish_parse_function] reads from the tree node it is given:
    the printed declaration, the file of its location, and the code and
    printed name of [DECL_CONTEXT] when there is one. *)
Inductive tree_code :=
| TRANSLATION_UNIT_DECL | NAMESPACE_DECL | RECORD_TYPE | UNION_TYPE
| OTHER_TREE_CODE (code : nat).

Record function_decl := mkFunctionDecl {
  decl_as_string : string;
  decl_file : string;
  decl_context : option (tree_code * string)
}.

Definition finished_function_of_decl (decl : function_decl) : FinishedFunction :=
  let '(scope_name, scope_type) :=
    match decl_context decl with
    | Some (code, parent_name) =>
        match code with
        | TRANSLATION_UNIT_DECL => (None, UNKNOWN)
        | NAMESPACE_DECL => (Some parent_name, NAMESPACE)
        | RECORD_TYPE => (Some parent_name, STRUCT)
        | UNION_TYPE => (Some parent_name, STRUCT)
        | OTHER_TREE_CODE _ => (Some parent_name, UNKNOWN)
        end
    | None => (None, UNKNOWN)
    end in
  mkFinishedFunction (decl_as_string decl) (decl_file decl) scope_name scope_type.

(** The main file is entered without a reader and left. *)
Definition run_with_closed_main : list Callback :=
  [cb_start_compilation (Some "/src/main.cpp"%string); leave "/src/main.cpp"].

(** Two inclusions, a function in a namespace and two passes. *)
Definition run_with_everything : list Callback :=
  [cb_start_compilation (Some "main.cpp"%string); enter "a.h"; leave "a.h";
   cb_finish_parse_function (info_in_NS "f");
   cb_pass_execution (Some pass_inline); cb_pass_execution (Some pass_inline)].

(** Five milliseconds per reading for the first thousand readings. *)
Definition clock_5ms_capped (n : nat) : Z := 5000000 * Z.of_nat (Nat.min n 1000).


(** A run in which four passes are started, so that three are stored. *)
Definition run_with_four_passes : list Callback :=
  [cb_pass_execution (Some pass_inline); cb_pass_execution (Some pass_inline);
   cb_pass_execution (Some pass_inline); cb_pass_execution (Some pass_inline)].

(** A member of namespace NS, a function at file level, and a function
    whose context is neither a namespace nor a class. *)
Definition decl_in_namespace : function_decl :=
  mkFunctionDecl "void NS::f()" "main.cpp" (Some (NAMESPACE_DECL, "NS"%string)).

Definition decl_global : function_decl :=
  mkFunctionDecl "int main()" "main.cpp" (Some (TRANSLATION_UNIT_DECL, "::"%string)).

Definition decl_local : function_decl :=
  mkFunctionDecl "main()::<lambda()>" "main.cpp" (Some (OTHER_TREE_CODE 35, "int main()"%string)).

Definition run_with_declarations : list Callback :=
  [cb_finish_parse_function (finished_function_of_decl decl_in_namespace);
   cb_pass_execution (Some pass_inline);
   cb_finish_parse_function (finished_function_of_decl decl_global);
   cb_finish_parse_function (finished_function_of_decl decl_local)].

(** * Properties *)

(** ** Fixed-width arithmetic away from overflow *)

Lemma wrap64_small (z : Z) : in_i64 z → wrap64 z = z.
Proof.
  unfold in_i64, wrap64. intros Hz.
  rewrite Z.mod_small by lia. lia.
Qed.

Lemma wrap32_small (z : Z) : - 2 ^ 31 <= z < 2 ^ 31 → wrap32 z = z.
Proof.
  unfold wrap32. intros Hz.
  rewrite Z.mod_small by lia. lia.
Qed.

Lemma add64_small (a b : Z) : in_i64 (a + b) → add64 a b = a + b.
Proof. apply wrap64_small. Qed.

Lemma sub64_small (a b : Z) : in_i64 (a - b) → sub64 a b = a - b.
Proof. apply wrap64_small. Qed.

(** ** The normalizer *)

Lemma map_contains_true {V} (m : gmap string V) (k : string) :
  map_contains m k = true ↔ is_Some (m !! k).
Proof.
  unfold map_contains. destruct (m !! k) as [v|]; split; intros H; eauto.
  - discriminate.
  - by destruct H.
Qed.

Lemma map_contains_false {V} (m : gmap string V) (k : string) :
  map_contains m k = false ↔ m !! k = None.
Proof. unfold map_contains. destruct (m !! k); split; intros H; done. Qed.

Lemma map_index_present (m : gmap string string) (k v : string) :
  m !! k = Some v → map_index m k = (v, m).
Proof. unfold map_index. by intros ->. Qed.

Lemma normalized_file_name_unfold (file_name : string) (n : Normalizer) :
  normalized_file_name file_name n = (resolve n file_name, n).
Proof.
  unfold normalized_file_name, resolve.
  destruct (normalized_files_map n !! file_name) as [v|] eqn:Hlook.
  - rewrite (proj2 (map_contains_true _ _)) by eauto.
    rewrite (map_index_present _ _ _ Hlook).
    unfold set_contains. destruct n as [dirs nmap names conflicts]; simpl in *.
    case_bool_decide; simpl.
    + by rewrite decide_True.
    + by rewrite (map_index_present _ _ _ Hlook), decide_False.
  - by rewrite (proj2 (map_contains_false _ _)).
Qed.

Lemma normalized_file_name_fst (file_name : string) (n : Normalizer) :
  (normalized_file_name file_name n).1 = resolve n file_name.
Proof. by rewrite normalized_file_name_unfold. Qed.

Lemma normalized_file_name_snd (file_name : string) (n : Normalizer) :
  (normalized_file_name file_name n).2 = n.
Proof. by rewrite normalized_file_name_unfold. Qed.

(** C7. [normalized_file_name] returns for every path and leaves the four
    tables of the normalizer as they were; its result is the stored
    normalized name exactly when the path is registered and that name is
    not conflicted, and the path itself otherwise. *)
Theorem normalized_file_name_pure_total (file_name : string) (n : Normalizer) :
  ∃ name,
    normalized_file_name file_name n = (name, n) ∧
    match normalized_files_map n !! file_name with
    | Some stored =>
        if decide (stored ∈ conflicted_files n) then name = file_name
        else name = stored
    | None => name = file_name
    end.
Proof.
  exists (resolve n file_name). split.
  - apply normalized_file_name_unfold.
  - unfold resolve. destruct (normalized_files_map n !! file_name) as [v|]; [|done].
    by case_decide.
Qed.

(** *** Registration *)

Lemma register_include_location_known (file_name dir : string) (n : Normalizer) :
  is_Some (file_to_include_directory n !! file_name) →
  register_include_location file_name dir n = Some n.
Proof.
  intros H. unfold register_include_location.
  by rewrite (proj2 (map_contains_true _ _) H).
Qed.

Lemma register_include_location_fresh (file_name dir name : string) (n : Normalizer) :
  file_to_include_directory n !! file_name = None →
  starts_with file_name dir = true →
  substr file_name (String.length dir + 1) = Some name →
  register_include_location file_name dir n =
    Some (mkNormalizer (<[file_name := dir]> (file_to_include_directory n))
            (<[file_name := name]> (normalized_files_map n))
            (if decide (name ∈ normalized_files n) then normalized_files n
             else {[name]} ∪ normalized_files n)
            (if decide (name ∈ normalized_files n) then {[name]} ∪ conflicted_files n
             else conflicted_files n)).
Proof.
  intros Hnew Hpre Hsub. unfold register_include_location.
  rewrite (proj2 (map_contains_false _ _) Hnew). simpl.
  rewrite Hpre, Hsub. unfold set_contains.
  case_bool_decide; [rewrite !decide_True by done | rewrite !decide_False by done]; done.
Qed.

Lemma normalizer_le_refl (n : Normalizer) : normalizer_le n n.
Proof. repeat split; eauto. Qed.

Lemma normalizer_le_trans (n1 n2 n3 : Normalizer) :
  normalizer_le n1 n2 → normalizer_le n2 n3 → normalizer_le n1 n3.
Proof.
  intros (Ha & Hb & Hc) (Ha' & Hb' & Hc').
  split; [by etrans|]. split; [by etrans|].
  intros k d v Hd Hv. destruct (Hc k d v Hd Hv) as [[d' Hd'] Hv']. eauto.
Qed.

Lemma register_include_location_le (file_name dir : string) (n n' : Normalizer) :
  register_include_location file_name dir n = Some n' → normalizer_le n n'.
Proof.
  unfold register_include_location. intros H.
  destruct (map_contains (file_to_include_directory n) file_name) eqn:Hc; simpl in H.
  { inversion H; subst. apply normalizer_le_refl. }
  apply map_contains_false in Hc.
  assert (Hkeep : ∀ k d, file_to_include_directory n !! k = Some d →
            is_Some (<[file_name := dir]> (file_to_include_directory n) !! k) ∧ k ≠ file_name).
  { intros k d Hk. assert (k ≠ file_name) by congruence.
    split; [|done]. rewrite lookup_insert_ne by done. eauto. }
  destruct (starts_with file_name dir).
  - destruct (substr file_name (String.length dir + 1)) as [name|]; [|done].
    destruct (set_contains (normalized_files n) name); inversion H; subst;
      unfold normalizer_le; simpl;
      (split; [done || apply union_subseteq_r|]; split; [done || apply union_subseteq_r|]);
      intros k d v Hd Hv; destruct (Hkeep k d Hd) as [? ?];
      (split; [done|]); by rewrite lookup_insert_ne.
  - inversion H; subst; unfold normalizer_le; simpl. split; [done|]. split; [done|].
    intros k d v Hd Hv. destruct (Hkeep k d Hd) as [? ?]. done.
Qed.

Lemma register_all_le (entries : list (string * string)) (n n' : Normalizer) :
  register_all entries n = Some n' → normalizer_le n n'.
Proof.
  revert n. induction entries as [|[f d] entries IH]; intros n H; simpl in H.
  - inversion H; subst. apply normalizer_le_refl.
  - destruct (register_include_location f d n) as [n1|] eqn:Hreg; [|done].
    eapply normalizer_le_trans; [by eapply register_include_location_le | by apply IH].
Qed.

(** C4. Once a file under its include directory is registered while its
    relative name is unclaimed, it resolves to that relative name; when a
    different, not yet registered file with the same relative name is
    registered later, both files resolve to their absolute paths. *)
Theorem path_normalization_round_trip
    (n0 : Normalizer) (file1 dir1 name : string) :
  file_to_include_directory n0 !! file1 = None →
  name ∉ normalized_files n0 →
  name ∉ conflicted_files n0 →
  starts_with file1 dir1 = true →
  substr file1 (String.length dir1 + 1) = Some name →
  ∃ n1,
    register_include_location file1 dir1 n0 = Some n1 ∧
    (normalized_file_name file1 n1).1 = name ∧
    ∀ (between : list (string * string)) (n2 : Normalizer) (file2 dir2 : string),
      register_all between n1 = Some n2 →
      file2 ≠ file1 →
      file_to_include_directory n2 !! file2 = None →
      starts_with file2 dir2 = true →
      substr file2 (String.length dir2 + 1) = Some name →
      ∃ n3,
        register_include_location file2 dir2 n2 = Some n3 ∧
        (normalized_file_name file1 n3).1 = file1 ∧
        (normalized_file_name file2 n3).1 = file2.
Proof.
  intros Hnew1 Hfree Hnoconf Hpre1 Hsub1.
  eexists. split.
  { rewrite (register_include_location_fresh _ _ _ _ Hnew1 Hpre1 Hsub1).
    rewrite !decide_False by done. reflexivity. }
  rewrite normalized_file_name_fst. split.
  { unfold resolve; simpl. rewrite lookup_insert_eq. by rewrite decide_False. }
  intros between n2 file2 dir2 Hmid Hne Hnew2 Hpre2 Hsub2.
  apply register_all_le in Hmid. destruct Hmid as (Hnames & Hconf & Hkeep). simpl in *.
  destruct (Hkeep file1 dir1 name) as [_ Hmap1]; [by rewrite lookup_insert_eq ..|].
  assert (Hclaimed : name ∈ normalized_files n2).
  { apply Hnames, elem_of_union_l. by apply elem_of_singleton. }
  eexists. split.
  { rewrite (register_include_location_fresh _ _ _ _ Hnew2 Hpre2 Hsub2).
    rewrite !decide_True by done. reflexivity. }
  rewrite !normalized_file_name_fst. unfold resolve; simpl. split.
  - rewrite lookup_insert_ne by done. rewrite Hmap1.
    rewrite decide_True; [done | by apply elem_of_union_l, elem_of_singleton].
  - rewrite lookup_insert_eq.
    rewrite decide_True; [done | by apply elem_of_union_l, elem_of_singleton].
Qed.

Lemma path_normalization_round_trip_witness :
  ∃ n1,
    register_include_location "/a/b/c.h" "/a/b" empty_normalizer = Some n1 ∧
    (normalized_file_name "/a/b/c.h" n1).1 = "c.h"%string ∧
    ∃ n3,
      register_include_location "/x/y/c.h" "/x/y" n1 = Some n3 ∧
      (normalized_file_name "/a/b/c.h" n3).1 = "/a/b/c.h"%string ∧
      (normalized_file_name "/x/y/c.h" n3).1 = "/x/y/c.h"%string.
Proof.
  destruct (path_normalization_round_trip empty_normalizer "/a/b/c.h" "/a/b" "c.h")
    as (n1 & Hreg & Hres & Hlater);
    [reflexivity | apply not_elem_of_empty | apply not_elem_of_empty
    | reflexivity | reflexivity |].
  exists n1. split; [exact Hreg|]. split; [exact Hres|].
  apply (Hlater [] n1 "/x/y/c.h"%string "/x/y"%string).
  - reflexivity.
  - discriminate.
  - revert Hreg. vm_compute. intros [= <-]. reflexivity.
  - reflexivity.
  - reflexivity.
Defined.

(** ** add_event *)

Lemma add_event_short (pid : Z) (event : TraceEvent) (st : State) :
  in_i64 (duration event) →
  duration event < MINIMUM_EVENT_LENGTH_NS →
  add_event pid event st = st.
Proof.
  intros Hrange Hshort. unfold add_event.
  rewrite sub64_small by exact Hrange.
  fold (duration event). by rewrite (proj2 (Z.ltb_lt _ _) Hshort).
Qed.

Lemma add_event_long (pid : Z) (event : TraceEvent) (st : State) :
  in_i64 (duration event) →
  MINIMUM_EVENT_LENGTH_NS ≤ duration event →
  add_event pid event st =
    set_output_events_list
      (output_events_list st ++ paired_records pid (UID st) [event])
      (set_UID (wrap32 (UID st + 1)) st).
Proof.
  intros Hrange Hlong. unfold add_event.
  rewrite sub64_small by exact Hrange.
  fold (duration event). rewrite (proj2 (Z.ltb_ge _ _) Hlong).
  destruct st; simpl. unfold set_output_events_list; simpl.
  by rewrite <- app_assoc.
Qed.

Lemma paired_records_uids (pid uid : Z) (events : list TraceEvent) :
  je_uid <$> paired_records pid uid events =
    seqZ uid (Z.of_nat (length events)) ≫= (λ u, [u; u]).
Proof.
  revert uid. induction events as [|event events IH]; intros uid; [done|].
  cbn [paired_records length fmap list_fmap].
  rewrite Nat2Z.inj_succ, seqZ_cons by lia.
  rewrite Z.pred_succ. cbn [mbind list_bind]. simpl.
  f_equal. f_equal. unfold fmap in IH. rewrite IH. done.
Qed.

(** C5. Events shorter than 1,000,000 ns leave no trace; every other
    event is appended as a "B" record at its start and an "E" record at
    its end carrying the same UID, and successive surviving events take
    successive UIDs.  Durations are taken within the 64-bit range and the
    counter below the 32-bit limit. *)
Theorem add_event_minimum_duration_and_pairing
    (pid : Z) (events : list TraceEvent) (st : State) :
  Forall (λ event, in_i64 (duration event)) events →
  0 ≤ UID st →
  UID st + Z.of_nat (length events) < 2 ^ 31 →
  let kept := filter (λ event, 1000000 ≤ duration event) events in
  let st' := add_events pid events st in
  output_events_list st' = output_events_list st ++ paired_records pid (UID st) kept ∧
  UID st' = UID st + Z.of_nat (length kept) ∧
  je_uid <$> paired_records pid (UID st) kept =
    seqZ (UID st) (Z.of_nat (length kept)) ≫= (λ u, [u; u]).
Proof.
  intros Hrange Hlow Hhigh. cbv zeta.
  split; [|split; [|apply paired_records_uids]];
    revert st Hlow Hhigh; induction Hrange as [|event events Hev Hevs IH];
    intros st Hlow Hhigh; cbn [length] in Hhigh; unfold add_events in *;
    cbn [fold_left].
  - by rewrite filter_nil, app_nil_r.
  - destruct (decide (1000000 ≤ duration event)) as [Hlong|Hshort].
    + rewrite filter_cons_True by done.
      rewrite (add_event_long pid event st Hev Hlong).
      rewrite IH; cbn [UID output_events_list set_output_events_list set_UID];
        rewrite ?wrap32_small by lia; [|lia..].
      by rewrite <- app_assoc.
    + rewrite filter_cons_False by done.
      rewrite (add_event_short pid event st Hev) by (unfold MINIMUM_EVENT_LENGTH_NS; lia).
      apply IH; lia.
  - rewrite filter_nil. simpl. lia.
  - destruct (decide (1000000 ≤ duration event)) as [Hlong|Hshort].
    + rewrite filter_cons_True by done.
      rewrite (add_event_long pid event st Hev Hlong).
      rewrite IH; cbn [UID output_events_list set_output_events_list set_UID];
        rewrite ?wrap32_small by lia; [|lia..].
      cbn [length]. lia.
    + rewrite filter_cons_False by done.
      rewrite (add_event_short pid event st Hev) by (unfold MINIMUM_EVENT_LENGTH_NS; lia).
      apply IH; lia.
Qed.

Lemma add_event_minimum_duration_and_pairing_witness :
  let st := add_events 42 [event_999999; event_1000001; event_1000000] initial_state in
  output_events_list st =
    [mkJsonEvent "long" "B" "FUNCTION" 5 42 0 0 [];
     mkJsonEvent "long" "E" "FUNCTION" 1000006 42 0 0 [];
     mkJsonEvent "edge" "B" "STRUCT" 7 42 0 1 [];
     mkJsonEvent "edge" "E" "STRUCT" 1000007 42 0 1 []] ∧
  UID st = 2.
Proof.
  destruct (add_event_minimum_duration_and_pairing 42
              [event_999999; event_1000001; event_1000000] initial_state)
    as (Hout & Huid & _).
  - repeat (apply Forall_cons_2; [vm_compute; split; [discriminate | reflexivity]|]).
    apply Forall_nil_2.
  - vm_compute; discriminate.
  - vm_compute; reflexivity.
  - split; [rewrite Hout | rewrite Huid]; reflexivity.
Defined.

(** ** Preprocessing: calls that change nothing *)

Section Frames.

Variable clock : nat → Z.
Variable realpath : string → option string.

Lemma finish_preprocessing_stage_empty (st : State) :
  preprocessing_stack st = [] → finish_preprocessing_stage clock st = Some st.
Proof.
  intros Hempty. unfold finish_preprocessing_stage.
  rewrite Hempty. simpl. by rewrite Hempty.
Qed.

(** C8. With an empty preprocessing stack, [finish_preprocessing_stage]
    returns the state it was given, however many times it is called: the
    inclusion maps, the stack and the last-boundary timestamp (and all
    the rest, clock readings included) stay as they were. *)
Theorem finish_preprocessing_stage_idempotent (st : State) (n : nat) :
  preprocessing_stack st = [] →
  Nat.iter n (λ r, r ≫= finish_preprocessing_stage clock) (Some st) = Some st.
Proof.
  intros Hempty. induction n as [|n IH]; [done|].
  rewrite Nat.iter_succ, IH. simpl.
  by apply finish_preprocessing_stage_empty.
Qed.

(** C9. [start_preprocess_file] with a null file name, or with
    "<command-line>", returns after reading the clock: whatever [pfile]
    is, the inclusion maps, the stack, the normalizer tables and the
    last-boundary timestamp are those of the state before. *)
Theorem start_preprocess_file_filtered (pfile : option cpp_reader) (st : State) :
  (∃ st', start_preprocess_file clock realpath None pfile st = Some st' ∧
          tracking_unchanged st st') ∧
  (∃ st', start_preprocess_file clock realpath (Some "<command-line>"%string) pfile st
            = Some st' ∧
          tracking_unchanged st st').
Proof.
  split; exists (set_ticks (S (ticks st)) st); (split; [reflexivity|]);
    by repeat split.
Qed.

End Frames.

Lemma finish_preprocessing_stage_idempotent_witness :
  Nat.iter 3 (λ r, r ≫= finish_preprocessing_stage clock_1ns) (Some initial_state)
    = Some initial_state.
Proof.
  apply (finish_preprocessing_stage_idempotent clock_1ns initial_state 3).
  reflexivity.
Defined.

(** ** Functions and scopes *)

Section Scopes.

Variable clock : nat → Z.

Lemma end_parse_function_ticks (info : FinishedFunction) (st : State) :
  ticks (end_parse_function clock info st) = S (ticks st).
Proof.
  unfold end_parse_function, ns_from_start. cbn.
  destruct (ff_scope_name info); [destruct (last (scope_events st)) as [back|];
    [destruct (_ && _)|]|]; reflexivity.
Qed.

Lemma end_parse_function_last_ts (info : FinishedFunction) (st : State) :
  last_function_parsed_ts (end_parse_function clock info st) = clock (ticks st).
Proof.
  unfold end_parse_function, ns_from_start. cbn.
  destruct (ff_scope_name info); [destruct (last (scope_events st)) as [back|];
    [destruct (_ && _)|]|]; reflexivity.
Qed.

Lemma end_parse_function_function_events (info : FinishedFunction) (st : State) :
  function_events (end_parse_function clock info st) =
    function_events st ++
    [mkFunctionEvent (ff_name info) (ff_file_name info)
       (mkTimeSpan (add64 (last_function_parsed_ts st) 3) (clock (ticks st)))].
Proof.
  unfold end_parse_function, ns_from_start. cbn.
  destruct (ff_scope_name info); [destruct (last (scope_events st)) as [back|];
    [destruct (_ && _)|]|]; reflexivity.
Qed.

Lemma end_parse_function_no_scope (info : FinishedFunction) (st : State) :
  ff_scope_name info = None →
  scope_events (end_parse_function clock info st) = scope_events st ∧
  did_last_function_have_scope (end_parse_function clock info st) = false.
Proof.
  intros Hnone. unfold end_parse_function, ns_from_start. cbn.
  rewrite Hnone. by split.
Qed.

Lemma end_parse_function_new_scope (info : FinishedFunction) (st : State) (s : string) :
  ff_scope_name info = Some s →
  extends_last_scope st s = false →
  scope_events (end_parse_function clock info st) =
    scope_events st ++
    [mkScopeEvent s (ff_scope_type info)
       (mkTimeSpan (sub64 (add64 (last_function_parsed_ts st) 3) 1)
          (add64 (clock (ticks st)) 1))] ∧
  did_last_function_have_scope (end_parse_function clock info st) = true.
Proof.
  intros Hs Hnew. unfold end_parse_function, ns_from_start. cbn.
  rewrite Hs. unfold extends_last_scope in Hnew.
  destruct (last (scope_events st)) as [back|]; [|by split].
  rewrite Hnew. by split.
Qed.

Lemma end_parse_function_same_scope
    (info : FinishedFunction) (st : State) (s : string)
    (before : list ScopeEvent) (back : ScopeEvent) :
  ff_scope_name info = Some s →
  scope_events st = before ++ [back] →
  did_last_function_have_scope st = true →
  se_name back = s →
  scope_events (end_parse_function clock info st) =
    before ++
    [mkScopeEvent s (se_type back)
       (mkTimeSpan (ts_start (se_ts back)) (add64 (clock (ticks st)) 1))] ∧
  did_last_function_have_scope (end_parse_function clock info st) = true.
Proof.
  intros Hs Hback Hdid Hname. unfold end_parse_function, ns_from_start. cbn.
  rewrite Hs, Hback, last_snoc, Hdid, Hname, String.eqb_refl. cbn.
  by rewrite removelast_last.
Qed.

Lemma extends_last_scope_snoc (st : State) (before : list ScopeEvent)
    (back : ScopeEvent) (s : string) :
  scope_events st = before ++ [back] →
  did_last_function_have_scope st = true →
  extends_last_scope st s = String.eqb (se_name back) s.
Proof.
  intros Hback Hdid. unfold extends_last_scope.
  by rewrite Hback, last_snoc, Hdid.
Qed.

(** C6. Three consecutive parsed functions with the same scope name,
    starting where the previous function does not already continue that
    scope, add exactly one scope event: it begins one nanosecond before
    the first function's start and ends one nanosecond after the last
    function's end.  A following function with another scope name, or one
    following a function without a scope, gets a scope event of its own. *)
Theorem scope_coalescing
    (info1 info2 info3 : FinishedFunction) (s : string) (st : State) :
  ff_scope_name info1 = Some s →
  ff_scope_name info2 = Some s →
  ff_scope_name info3 = Some s →
  extends_last_scope st s = false →
  0 ≤ last_function_parsed_ts st < 2 ^ 62 →
  0 ≤ clock (S (S (ticks st))) < 2 ^ 62 →
  let st3 := end_parse_function clock info3
               (end_parse_function clock info2
                  (end_parse_function clock info1 st)) in
  (∃ f1 f2 f3,
     function_events st3 = function_events st ++ [f1; f2; f3] ∧
     scope_events st3 =
       scope_events st ++
       [mkScopeEvent s (ff_scope_type info1)
          (mkTimeSpan (ts_start (fe_ts f1) - 1) (ts_end (fe_ts f3) + 1))]) ∧
  (∀ info4 s',
     ff_scope_name info4 = Some s' → s' ≠ s →
     ∃ record,
       scope_events (end_parse_function clock info4 st3) =
         scope_events st3 ++ [record] ∧
       se_name record = s') ∧
  (∀ info4 info5 s',
     ff_scope_name info4 = None → ff_scope_name info5 = Some s' →
     let st4 := end_parse_function clock info4 st3 in
     scope_events st4 = scope_events st3 ∧
     ∃ record,
       scope_events (end_parse_function clock info5 st4) =
         scope_events st3 ++ [record] ∧
       se_name record = s').
Proof.
  intros Hs1 Hs2 Hs3 Hfresh Hlast Hclock. cbv zeta.
  set (st1 := end_parse_function clock info1 st).
  set (st2 := end_parse_function clock info2 st1).
  set (st3 := end_parse_function clock info3 st2).
  destruct (end_parse_function_new_scope info1 st s Hs1 Hfresh) as [Hsc1 Hdid1].
  fold st1 in Hsc1, Hdid1.
  destruct (end_parse_function_same_scope info2 st1 s _ _ Hs2 Hsc1 Hdid1 eq_refl)
    as [Hsc2 Hdid2].
  fold st2 in Hsc2, Hdid2.
  destruct (end_parse_function_same_scope info3 st2 s _ _ Hs3 Hsc2 Hdid2 eq_refl)
    as [Hsc3 Hdid3].
  fold st3 in Hsc3, Hdid3. cbn [se_type se_ts ts_start] in Hsc3.
  assert (Hticks2 : ticks st2 = S (S (ticks st))).
  { unfold st2, st1. by rewrite !end_parse_function_ticks. }
  split; [|split].
  - eexists _, _, _. split.
    + unfold st3, st2, st1. rewrite !end_parse_function_function_events.
      rewrite !end_parse_function_ticks, <- !app_assoc. reflexivity.
    + rewrite Hsc3, Hticks2. cbn [fe_ts ts_start ts_end].
      rewrite (add64_small (last_function_parsed_ts st)) by (unfold in_i64; lia).
      rewrite sub64_small by (unfold in_i64; lia).
      rewrite add64_small by (unfold in_i64; lia).
      reflexivity.
  - intros info4 s' Hs4 Hne.
    assert (Hnew : extends_last_scope st3 s' = false).
    { rewrite (extends_last_scope_snoc st3 _ _ s' Hsc3 Hdid3). cbn.
      apply String.eqb_neq. congruence. }
    destruct (end_parse_function_new_scope info4 st3 s' Hs4 Hnew) as [Hsc4 _].
    eexists. split; [exact Hsc4 | reflexivity].
  - intros info4 info5 s' Hs4 Hs5. cbv zeta.
    destruct (end_parse_function_no_scope info4 st3 Hs4) as [Hsc4 Hdid4].
    split; [exact Hsc4|].
    assert (Hnew : extends_last_scope (end_parse_function clock info4 st3) s' = false).
    { unfold extends_last_scope. rewrite Hdid4.
      by destruct (last (scope_events _)). }
    destruct (end_parse_function_new_scope info5 _ s' Hs5 Hnew) as [Hsc5 _].
    eexists. split; [rewrite Hsc5, Hsc4; reflexivity | reflexivity].
Qed.

End Scopes.

Lemma scope_coalescing_witness :
  scope_events
    (end_parse_function clock_1ns (info_in_NS "h")
       (end_parse_function clock_1ns (info_in_NS "g")
          (end_parse_function clock_1ns (info_in_NS "f") initial_state)))
  = [mkScopeEvent "NS" NAMESPACE (mkTimeSpan 2 1003)].
Proof.
  destruct (scope_coalescing clock_1ns (info_in_NS "f") (info_in_NS "g")
              (info_in_NS "h") "NS" initial_state)
    as ((f1 & f2 & f3 & Hf & Hsc) & _ & _);
    [reflexivity | reflexivity | reflexivity | reflexivity
    | vm_compute; split; [discriminate | reflexivity]
    | vm_compute; split; [discriminate | reflexivity] |].
  rewrite Hsc. vm_compute in Hf. injection Hf as <- <- <-. reflexivity.
Defined.

(** ** What [add_event] and the writers leave alone *)

Lemma set_normalizer_same (st : State) : set_normalizer (normalizer st) st = st.
Proof. by destruct st. Qed.

Lemma emitted_into_refl (st : State) : emitted_into st st.
Proof. exists (UID st), (output_events_list st). by destruct st. Qed.

Lemma emitted_into_trans (st1 st2 st3 : State) :
  emitted_into st1 st2 → emitted_into st2 st3 → emitted_into st1 st3.
Proof. intros (u & o & ->) (u' & o' & ->). by exists u', o'. Qed.

Lemma add_event_emitted (pid : Z) (event : TraceEvent) (st : State) :
  emitted_into st (add_event pid event st).
Proof.
  unfold add_event. destruct (_ <? _); [apply emitted_into_refl|].
  by eexists _, _.
Qed.

Lemma add_events_emitted (pid : Z) (events : list TraceEvent) (st : State) :
  emitted_into st (add_events pid events st).
Proof.
  revert st. induction events as [|event events IH]; intros st.
  - apply emitted_into_refl.
  - eapply emitted_into_trans; [apply (add_event_emitted pid event)|apply IH].
Qed.

Lemma add_events_cons (pid : Z) (event : TraceEvent) (events : list TraceEvent)
    (st : State) :
  add_events pid (event :: events) st = add_events pid events (add_event pid event st).
Proof. reflexivity. Qed.

Lemma inclusion_trace_event_emitted (st st' : State) (entry : string * Z) :
  emitted_into st st' →
  inclusion_trace_event st' entry = inclusion_trace_event st entry.
Proof. by intros (u & o & ->). Qed.

Lemma write_preprocessing_loop_unfold (pid : Z) (entries : list (string * Z))
    (st : State) :
  (∀ entry, entry ∈ entries → entry.1 ≠ CIRCULAR_POISON_VALUE →
            is_Some (preprocess_end st !! entry.1)) →
  write_preprocessing_loop pid entries st =
    Some (add_events pid (omap (inclusion_trace_event st) entries) st).
Proof.
  revert st. induction entries as [|[file start] entries IH]; intros st Hclosed; [done|].
  cbn [write_preprocessing_loop omap list_omap].
  unfold inclusion_trace_event at 1. cbn [fst snd].
  destruct (String.eqb file CIRCULAR_POISON_VALUE) eqn:Hfile.
  - apply IH. intros entry Hin. apply Hclosed. by apply list_elem_of_further.
  - apply String.eqb_neq in Hfile.
    destruct (Hclosed (file, start)) as [end_ Hend]; [apply list_elem_of_here | done |].
    cbn [fst] in Hend. rewrite Hend. cbn [fmap option_fmap option_map].
    rewrite normalized_file_name_unfold, set_normalizer_same.
    set (event := mkTraceEvent _ _ _ _).
    pose proof (add_event_emitted pid event st) as Hemit.
    rewrite IH.
    + rewrite add_events_cons. f_equal. f_equal. clear -Hemit.
      induction entries as [|entry entries IH]; [done|].
      cbn [omap list_omap]. by rewrite IH, (inclusion_trace_event_emitted _ _ _ Hemit).
    + intros entry Hin Hne. destruct Hemit as (u & o & ->). cbn.
      apply Hclosed; [by apply list_elem_of_further | done].
Qed.

Lemma write_opt_pass_loop_unfold (pid : Z) (events : list OptPassEvent) (st : State) :
  Forall (λ event, is_Some (ope_pass event)) events →
  write_opt_pass_loop pid events st =
    Some (add_events pid (omap stage_trace_event events) st).
Proof.
  intros Hpasses. revert st.
  induction Hpasses as [|event events [pass Hpass] _ IH]; intros st; [done|].
  cbn [write_opt_pass_loop omap list_omap]. unfold stage_trace_event at 1.
  rewrite Hpass. cbn [fmap option_fmap option_map]. by rewrite IH.
Qed.

Lemma write_functions_loop_emitted (pid : Z) (events : list FunctionEvent) (st : State) :
  emitted_into st (write_functions_loop pid events st).
Proof.
  revert st. induction events as [|event events IH]; intros st.
  - apply emitted_into_refl.
  - cbn [write_functions_loop].
    rewrite normalized_file_name_unfold, set_normalizer_same.
    eapply emitted_into_trans; [apply add_event_emitted | apply IH].
Qed.

Lemma write_scopes_loop_emitted (pid : Z) (events : list ScopeEvent) (st : State) :
  emitted_into st (write_scopes_loop pid events st).
Proof.
  revert st. induction events as [|event events IH]; intros st.
  - apply emitted_into_refl.
  - cbn [write_scopes_loop].
    eapply emitted_into_trans; [apply add_event_emitted | apply IH].
Qed.

(** ** Preprocessing steps *)

Section Preprocessing.

Variable clock : nat → Z.
Variable realpath : string → option string.

Lemma start_preprocess_file_result
    (file_name : string) (pfile : option cpp_reader) (st st' : State) :
  file_name ≠ "<command-line>"%string →
  start_preprocess_file clock realpath (Some file_name) pfile st = Some st' →
  ∃ n, st' = set_normalizer n (push_inclusion clock (inclusion_key st file_name) st) ∧
       (is_circular st file_name = true → n = normalizer st).
Proof.
  intros Hcmd. unfold start_preprocess_file, ns_from_start.
  rewrite (proj2 (String.eqb_neq _ _) Hcmd).
  unfold push_inclusion, inclusion_key, is_circular. cbn.
  set (circular := map_contains (preprocess_start st) file_name &&
                   negb (map_contains (preprocess_end st) file_name)).
  set (key := if circular then CIRCULAR_POISON_VALUE else file_name).
  set (base := set_preprocessing_stack _ _).
  destruct circular.
  - intros [= <-]. exists (normalizer base).
    split; [by rewrite set_normalizer_same|].
    intros _. subst base. cbn. by destruct (negb _).
  - destruct pfile as [pf|].
    + destruct (realpath (dir_name pf)) as [rd|]; [destruct (realpath key) as [rf|]|].
      * destruct (register_include_location rf rd _) as [n|]; [|done].
        intros [= <-]. by exists n.
      * intros [= <-]. exists (normalizer base).
        split; [by rewrite set_normalizer_same | done].
      * intros [= <-]. exists (normalizer base).
        split; [by rewrite set_normalizer_same | done].
    + intros [= <-]. exists (normalizer base).
        split; [by rewrite set_normalizer_same | done].
Qed.

Lemma start_preprocess_file_circular
    (file_name : string) (pfile : option cpp_reader) (st : State) :
  file_name ≠ "<command-line>"%string →
  is_circular st file_name = true →
  start_preprocess_file clock realpath (Some file_name) pfile st =
    Some (push_inclusion clock CIRCULAR_POISON_VALUE st).
Proof.
  intros Hcmd Hcirc. unfold start_preprocess_file, ns_from_start.
  rewrite (proj2 (String.eqb_neq _ _) Hcmd).
  unfold is_circular in Hcirc. unfold push_inclusion. cbn. by rewrite Hcirc.
Qed.

Lemma start_preprocess_file_skipped
    (file_name : option string) (pfile : option cpp_reader) (st : State) :
  file_name = None ∨ file_name = Some "<command-line>"%string →
  start_preprocess_file clock realpath file_name pfile st =
    Some (set_ticks (S (ticks st)) st).
Proof. by intros [-> | ->]. Qed.

Lemma end_preprocess_file_unfold (top : string) (rest : list string) (st : State) :
  preprocessing_stack st = top :: rest →
  end_preprocess_file clock st = Some (close_top clock top rest st).
Proof.
  intros Hstack. unfold end_preprocess_file, ns_from_start, close_top. cbn.
  by rewrite Hstack.
Qed.

Lemma close_top_stack (top : string) (rest : list string) (st : State) :
  preprocessing_stack (close_top clock top rest st) = rest.
Proof. unfold close_top. cbn. by destruct (map_contains (preprocess_end st) top). Qed.

(** The loop of [finish_preprocessing_stage] ends with an empty stack,
    and keeps whatever its two statements keep. *)
Lemma finish_preprocessing_loop_total (P : State → Prop) :
  (∀ st top rest, preprocessing_stack st = top :: rest → P st →
                  P (close_top clock top rest st)) →
  (∀ st, P st → P (read_boundary clock st)) →
  ∀ fuel st, (length (preprocessing_stack st) ≤ fuel)%nat → P st →
    ∃ st', finish_preprocessing_loop clock fuel st = Some st' ∧
           P st' ∧ preprocessing_stack st' = [].
Proof.
  intros Hclose Hread. induction fuel as [|fuel IH]; intros st Hfuel HP.
  - destruct (preprocessing_stack st) as [|top rest] eqn:Hstack; [|simpl in Hfuel; lia].
    exists st. cbn. by rewrite Hstack.
  - destruct (preprocessing_stack st) as [|top rest] eqn:Hstack.
    + exists st. cbn. by rewrite Hstack.
    + cbn [finish_preprocessing_loop]. rewrite Hstack.
      rewrite (end_preprocess_file_unfold top rest st Hstack).
      unfold ns_from_start. fold (read_boundary clock (close_top clock top rest st)).
      apply IH.
      * change (preprocessing_stack (read_boundary clock (close_top clock top rest st)))
          with (preprocessing_stack (close_top clock top rest st)).
        rewrite close_top_stack. simpl in Hfuel. lia.
      * by apply Hread, Hclose.
Qed.

Lemma finish_preprocessing_stage_total (P : State → Prop) (st : State) :
  (∀ st top rest, preprocessing_stack st = top :: rest → P st →
                  P (close_top clock top rest st)) →
  (∀ st, P st → P (read_boundary clock st)) →
  P st →
  ∃ st', finish_preprocessing_stage clock st = Some st' ∧
         P st' ∧ preprocessing_stack st' = [].
Proof.
  intros Hclose Hread HP. by apply finish_preprocessing_loop_total.
Qed.

(** *** Started inclusions are closed or open *)

Lemma push_inclusion_accounted (key : string) (st : State) :
  inclusions_accounted st → inclusions_accounted (push_inclusion clock key st).
Proof.
  intros Hacc k. unfold push_inclusion. cbn.
  destruct (map_contains (preprocess_start st) key) eqn:Hkey; cbn.
  - intros Hk. destruct (Hacc k Hk) as [?|?]; [by left | right].
    by apply list_elem_of_further.
  - destruct (decide (k = key)) as [->|Hne].
    + intros _. right. apply list_elem_of_here.
    + rewrite lookup_insert_ne by done. intros Hk.
      destruct (Hacc k Hk) as [?|?]; [by left | right].
      by apply list_elem_of_further.
Qed.

Lemma close_top_accounted (top : string) (rest : list string) (st : State) :
  preprocessing_stack st = top :: rest →
  inclusions_accounted st → inclusions_accounted (close_top clock top rest st).
Proof.
  intros Hstack Hacc k. unfold close_top. cbn.
  destruct (map_contains (preprocess_end st) top) eqn:Htop; cbn; intros Hk.
  - apply map_contains_true in Htop.
    destruct (Hacc k Hk) as [?|Hin]; [by left|].
    rewrite Hstack in Hin. apply elem_of_cons in Hin as [->|?]; [by left | by right].
  - destruct (decide (k = top)) as [->|Hne].
    + left. rewrite lookup_insert_eq. eauto.
    + rewrite lookup_insert_ne by done.
      destruct (Hacc k Hk) as [?|Hin]; [by left|].
      rewrite Hstack in Hin. apply elem_of_cons in Hin as [->|?]; [done | by right].
Qed.

Lemma read_boundary_accounted (st : State) :
  inclusions_accounted st → inclusions_accounted (read_boundary clock st).
Proof. done. Qed.

End Preprocessing.

(** ** Runs *)

Section Runs.

Variable clock : nat → Z.
Variable realpath : string → option string.
Variable pid : Z.

Lemma start_opt_pass_unfold (pass : option opt_pass) (st : State) :
  start_opt_pass clock pass st =
    let now := clock (ticks st) in
    set_last_pass (mkOptPassEvent pass (mkTimeSpan (add64 now 1) now))
      (set_pass_events
         (match ope_pass (last_pass st) with
          | Some _ =>
              pass_events st ++
              [mkOptPassEvent (ope_pass (last_pass st))
                 (mkTimeSpan (ts_start (ope_ts (last_pass st))) now)]
          | None => pass_events st
          end)
         (set_ticks (S (ticks st)) st)).
Proof.
  unfold start_opt_pass, ns_from_start. cbn.
  by destruct (ope_pass (last_pass st)).
Qed.

Lemma end_parse_function_unfold (info : FinishedFunction) (st : State) :
  ∃ scopes did,
    end_parse_function clock info st =
      set_did_last_function_have_scope did
        (set_scope_events scopes
           (set_function_events
              (function_events st ++
               [mkFunctionEvent (ff_name info) (ff_file_name info)
                  (mkTimeSpan (add64 (last_function_parsed_ts st) 3) (clock (ticks st)))])
              (set_last_function_parsed_ts (clock (ticks st))
                 (set_ticks (S (ticks st)) st)))).
Proof.
  unfold end_parse_function, ns_from_start. cbn.
  destruct (ff_scope_name info) as [s|].
  - destruct (last (scope_events st)) as [back|]; [destruct (_ && _)|];
      by eexists _, true.
  - by eexists (scope_events st), false.
Qed.

Section Preserved.

Variable P : State → Prop.
Hypothesis P_preserved : preserved clock P.

Lemma callback_preserved (cb : Callback) (st st' : State) :
  (∀ pass, cb = cb_pass_execution pass → P (start_opt_pass clock pass st)) →
  P st → callback clock realpath cb st = Some st' → P st'.
Proof.
  intros Hpass HP. destruct cb as [main | pfile new_map | | info | pass]; cbn.
  - destruct main as [main|].
    + destruct (decide (main = "<command-line>"%string)) as [->|Hcmd].
      * intros [= <-]. by apply (pres_tick _ _ P_preserved).
      * intros Hstart. apply start_preprocess_file_result in Hstart as (n & -> & _);
          [|done]. by apply (pres_push _ _ P_preserved).
    + intros [= <-]. by apply (pres_tick _ _ P_preserved).
  - destruct new_map as [[[file_name|] reason]|]; cbn; [| by intros [= <-] ..].
    destruct reason; [| | by intros [= <-]].
    + destruct (decide (file_name = "<command-line>"%string)) as [->|Hcmd].
      * intros [= <-]. by apply (pres_tick _ _ P_preserved).
      * intros Hstart. apply start_preprocess_file_result in Hstart as (n & -> & _);
          [|done]. by apply (pres_push _ _ P_preserved).
    + destruct (preprocessing_stack st) as [|top rest] eqn:Hstack.
      * done.
      * intros [= <-]. exact (pres_close _ _ P_preserved st top rest Hstack HP).
  - intros Hfinish.
    destruct (finish_preprocessing_stage_total clock P st) as (st2 & Hst2 & HP2 & _);
      [apply (pres_close _ _ P_preserved) | apply (pres_read _ _ P_preserved) | done |].
    congruence.
  - intros [= <-]. by apply (pres_function _ _ P_preserved).
  - intros [= <-]. by apply Hpass.
Qed.

Lemma run_preserved (cbs : list Callback) (st st' : State) :
  (∀ st pass, P st → P (start_opt_pass clock pass st)) →
  P st → run clock realpath cbs st = Some st' → P st'.
Proof.
  intros Hpass. revert st. induction cbs as [|cb cbs IH]; intros st HP; cbn.
  - by intros [= <-].
  - destruct (callback clock realpath cb st) as [st1|] eqn:Hcb; [|done].
    apply IH. eapply callback_preserved; [|done..]. intros pass _. by apply Hpass.
Qed.

Hypothesis P_writable : ∀ st, P st → writable st.

(** [write_all_events] returns on every state with [P], and what it
    hands to [add_event] is determined by the state the forced close
    leaves. *)
Lemma write_all_events_unfold (st : State) :
  P st →
  ∃ st2,
    finish_preprocessing_stage clock
      (add_event pid (tu_event (clock (ticks st))) (set_ticks (S (ticks st)) st)) = Some st2 ∧
    P st2 ∧
    preprocessing_stack st2 = [] ∧
    write_all_events clock pid st =
      Some (write_all_scopes pid
              (write_all_functions pid
                 (add_events pid (omap stage_trace_event (pass_events st2))
                    (add_events pid
                       (omap (inclusion_trace_event st2)
                          (map_to_list (preprocess_start st2))) st2)))).
Proof.
  intros HP. unfold write_all_events, ns_from_start, write_preprocessing_events.
  fold (tu_event (clock (ticks st))).
  set (st1 := add_event pid _ _).
  assert (HP1 : P st1).
  { apply (pres_emit _ _ P_preserved _ _ (add_event_emitted pid _ _)).
    by apply (pres_tick _ _ P_preserved). }
  destruct (finish_preprocessing_stage_total clock P st1) as (st2 & Hst2 & HP2 & Hempty);
    [apply (pres_close _ _ P_preserved) | apply (pres_read _ _ P_preserved) | done |].
  exists st2. rewrite Hst2. split; [done|]. split; [done|]. split; [done|].
  destruct (P_writable st2 HP2) as [Hacc Hpasses].
  rewrite write_preprocessing_loop_unfold.
  - set (st3 := add_events pid _ st2).
    pose proof (add_events_emitted pid
                  (omap (inclusion_trace_event st2) (map_to_list (preprocess_start st2)))
                  st2) as Hemit.
    fold st3 in Hemit. unfold write_opt_pass_events.
    assert (Hpe : pass_events st3 = pass_events st2) by (by destruct Hemit as (u & o & ->)).
    rewrite Hpe, write_opt_pass_loop_unfold by exact Hpasses. reflexivity.
  - intros [k start] Hin Hne. cbn [fst] in *.
    apply elem_of_map_to_list in Hin.
    destruct (Hacc k) as [Hend|Hopen]; [by eauto | done |].
    rewrite Hempty in Hopen. by apply elem_of_nil in Hopen.
Qed.

End Preserved.

End Runs.

(** ** Properties every run keeps *)

Section Invariants.

Variable clock : nat → Z.
Variable realpath : string → option string.
Variable pid : Z.

Lemma preserved_and (P Q : State → Prop) :
  preserved clock P → preserved clock Q → preserved clock (λ st, P st ∧ Q st).
Proof.
  intros HP HQ. constructor.
  - intros st [? ?]. split; [by apply (pres_tick _ _ HP) | by apply (pres_tick _ _ HQ)].
  - intros st key n [? ?].
    split; [by apply (pres_push _ _ HP) | by apply (pres_push _ _ HQ)].
  - intros st top rest Hstack [? ?].
    split; [by apply (pres_close _ _ HP) | by apply (pres_close _ _ HQ)].
  - intros st [? ?]. split; [by apply (pres_read _ _ HP) | by apply (pres_read _ _ HQ)].
  - intros st info [? ?].
    split; [by apply (pres_function _ _ HP) | by apply (pres_function _ _ HQ)].
  - intros st st' Hemit [? ?].
    split; [by apply (pres_emit _ _ HP st st') | by apply (pres_emit _ _ HQ st st')].
Qed.

Lemma pass_fields_preserved (events : list OptPassEvent) (pending : OptPassEvent) :
  preserved clock (λ st, pass_events st = events ∧ last_pass st = pending).
Proof. untouched. Qed.

Lemma passes_present_preserved : preserved clock passes_present.
Proof. unfold passes_present. untouched. Qed.

Lemma inclusions_accounted_preserved : preserved clock inclusions_accounted.
Proof.
  constructor.
  - by intros ?.
  - intros st key n Hacc. by apply (push_inclusion_accounted clock key st) in Hacc.
  - intros st top rest. apply close_top_accounted.
  - by intros ?.
  - intros st info Hacc.
    by destruct (end_parse_function_unfold clock info st) as (? & ? & ->).
  - by intros ? ? (? & ? & ->) ?.
Qed.

Lemma writable_preserved : preserved clock writable.
Proof.
  apply preserved_and;
    [apply inclusions_accounted_preserved | apply passes_present_preserved].
Qed.

Lemma start_opt_pass_writable (pass : option opt_pass) (st : State) :
  writable st → writable (start_opt_pass clock pass st).
Proof.
  intros [Hacc Hpasses]. rewrite start_opt_pass_unfold. split; [done|].
  unfold passes_present in *. cbn.
  destruct (ope_pass (last_pass st)) as [p|] eqn:Hp; [|done].
  apply Forall_app. split; [done|]. apply Forall_singleton. cbn. eauto.
Qed.

Lemma initial_state_writable : writable initial_state.
Proof.
  split.
  - intros k [v Hv].
    change (preprocess_start initial_state) with (∅ : gmap string Z) in Hv.
    by rewrite lookup_empty in Hv.
  - apply Forall_nil_2.
Qed.

Lemma run_writable (cbs : list Callback) (st : State) :
  run clock realpath cbs initial_state = Some st → writable st.
Proof.
  apply (run_preserved clock realpath writable writable_preserved).
  - intros st' pass. apply start_opt_pass_writable.
  - apply initial_state_writable.
Qed.

(** C10. After any run in which every callback returned (so
    [end_preprocess_file] found a file on the stack each time),
    [finish_preprocessing_stage] returns and leaves every key of
    [preprocess_start] with an entry in [preprocess_end]; the lookup
    [preprocess_end.at(file)] of [write_preprocessing_events] then
    succeeds for every file, and so does the whole of [write_all_events]. *)
Theorem inclusions_closed_before_writing (cbs : list Callback) (st : State) :
  run clock realpath cbs initial_state = Some st →
  (∃ st', finish_preprocessing_stage clock st = Some st' ∧
          preprocessing_stack st' = [] ∧
          ∀ k, is_Some (preprocess_start st' !! k) → is_Some (preprocess_end st' !! k)) ∧
  is_Some (write_preprocessing_events clock pid st) ∧
  is_Some (cb_plugin_finish clock pid st).
Proof.
  intros Hrun. apply run_writable in Hrun.
  destruct (finish_preprocessing_stage_total clock writable st)
    as (st' & Hfinish & [Hacc Hpasses] & Hempty);
    [apply (pres_close _ _ writable_preserved)
    | apply (pres_read _ _ writable_preserved) | done |].
  assert (Hclosed : ∀ k, is_Some (preprocess_start st' !! k) →
                         is_Some (preprocess_end st' !! k)).
  { intros k Hk. destruct (Hacc k Hk) as [?|Hopen]; [done|].
    rewrite Hempty in Hopen. by apply elem_of_nil in Hopen. }
  split; [by exists st'|]. split.
  - unfold write_preprocessing_events. rewrite Hfinish.
    rewrite write_preprocessing_loop_unfold; [by eexists|].
    intros [k start] Hin _. apply elem_of_map_to_list in Hin.
    apply Hclosed. by eexists.
  - destruct (write_all_events_unfold clock pid writable writable_preserved
                (λ _ H, H) st Hrun) as (st2 & _ & _ & _ & Hwrite).
    unfold cb_plugin_finish. rewrite Hwrite. by eexists.
Qed.

End Invariants.

Lemma inclusions_closed_before_writing_witness :
  ∃ st,
    run clock_1ns realpath_id run_with_open_inclusions initial_state = Some st ∧
    preprocessing_stack st = [CIRCULAR_POISON_VALUE; "a.h"; "main.cpp"]%string ∧
    is_Some (write_preprocessing_events clock_1ns 42 st).
Proof.
  destruct (run clock_1ns realpath_id run_with_open_inclusions initial_state)
    as [st|] eqn:Hrun; [|vm_compute in Hrun; discriminate].
  exists st. split; [reflexivity|]. split.
  - vm_compute in Hrun. injection Hrun as <-. reflexivity.
  - exact (proj1 (proj2 (inclusions_closed_before_writing clock_1ns realpath_id 42
                           run_with_open_inclusions st Hrun))).
Defined.

(** ** The pass history *)

Section Passes.

Variable clock : nat → Z.
Variable realpath : string → option string.
Variable pid : Z.

Lemma callback_pass_fields (cb : Callback) (st st' : State) :
  (∀ pass, cb ≠ cb_pass_execution pass) →
  callback clock realpath cb st = Some st' →
  pass_events st' = pass_events st ∧ last_pass st' = last_pass st.
Proof.
  intros Hcb Hstep.
  apply (callback_preserved clock realpath _
           (pass_fields_preserved clock (pass_events st) (last_pass st)) cb st st');
    [|done..].
  intros pass ->. by destruct (Hcb pass).
Qed.

Lemma default_last_cons {A} (x y : A) (l : list A) :
  default x (last (y :: l)) = default y (last l).
Proof. rewrite last_cons. by destruct (last l). Qed.

Lemma run_pass_history (cbs : list Callback) (st st' : State) :
  run clock realpath cbs st = Some st' →
  ope_pass <$> pass_events st' =
    (ope_pass <$> pass_events st) ++
    (Some <$> omap id (removelast (ope_pass (last_pass st) :: passes_executed cbs))) ∧
  ope_pass (last_pass st') =
    default (ope_pass (last_pass st)) (last (passes_executed cbs)).
Proof.
  revert st. induction cbs as [|cb cbs IH]; intros st; cbn [run].
  - intros [= <-]. cbn. by rewrite app_nil_r.
  - destruct (callback clock realpath cb st) as [st1|] eqn:Hcb; [|done].
    intros Hrun. destruct (IH st1 Hrun) as [Hevents Hpending].
    assert (Hkind : (∃ pass, cb = cb_pass_execution pass) ∨
                    (∀ pass, cb ≠ cb_pass_execution pass))
      by (destruct cb; eauto).
    destruct Hkind as [[pass ->]|Hother].
    + cbn [callback] in Hcb. injection Hcb as <-.
      rewrite start_opt_pass_unfold in Hevents, Hpending.
      cbn in Hevents, Hpending. cbn [passes_executed].
      rewrite default_last_cons. split; [|done].
      rewrite Hevents.
      change (removelast (ope_pass (last_pass st) :: pass :: passes_executed cbs))
        with (ope_pass (last_pass st) :: removelast (pass :: passes_executed cbs)).
      destruct (ope_pass (last_pass st)) as [p|]; [|done].
      rewrite fmap_app, <- app_assoc. reflexivity.
    + destruct (callback_pass_fields cb st st1 Hother Hcb) as [Hpe Hlp].
      rewrite Hpe, Hlp in *.
      by destruct cb; [..|destruct (Hother pass)].
Qed.

(** The stage history of a run.  Of the passes handed to
    [start_opt_pass], all but the last are in [pass_events] (null passes
    left out); the last one stays in [last_pass].
    [write_opt_pass_events] hands exactly the stored events to
    [add_event], and [write_all_events] returns with [pass_events] and
    [last_pass] as it found them: nothing moves the pending pass into
    the history. *)
Theorem pending_pass_stays_pending (cbs : list Callback) (st : State) :
  run clock realpath cbs initial_state = Some st →
  let passes := passes_executed cbs in
  ope_pass <$> pass_events st = Some <$> omap id (removelast passes) ∧
  ope_pass (last_pass st) = default None (last passes) ∧
  (Forall is_Some passes → length (pass_events st) = Nat.pred (length passes)) ∧
  write_opt_pass_events pid st =
    Some (add_events pid (omap stage_trace_event (pass_events st)) st) ∧
  ∃ st', cb_plugin_finish clock pid st = Some st' ∧
         pass_events st' = pass_events st ∧
         last_pass st' = last_pass st.
Proof.
  intros Hrun. cbv zeta.
  destruct (run_pass_history cbs initial_state st Hrun) as [Hevents Hpending].
  cbn [initial_state pass_events last_pass ope_pass fmap list_fmap app] in Hevents, Hpending.
  assert (Hhistory : ope_pass <$> pass_events st
                     = Some <$> omap id (removelast (passes_executed cbs))).
  { rewrite Hevents. by destruct (passes_executed cbs). }
  pose proof (run_writable clock realpath cbs st Hrun) as Hwritable.
  split; [exact Hhistory|]. split; [exact Hpending|]. split; [|split].
  - intros Hall. apply (f_equal length) in Hhistory.
    rewrite !length_fmap in Hhistory. rewrite Hhistory.
    assert (Hlen : ∀ l : list (option opt_pass),
              Forall is_Some l → length (omap id l) = length l).
    { induction 1 as [|x l [p ->] _ IH]; [done|]. cbn. by rewrite IH. }
    rewrite Hlen.
    + clear. induction (passes_executed cbs) as [|x [|y l] IH]; [done..|].
      cbn [removelast length] in *. by rewrite IH.
    + clear -Hall. induction Hall as [|x [|y l] Hx Hl IH]; [done..|].
      change (removelast (x :: y :: l)) with (x :: removelast (y :: l)).
      by apply Forall_cons_2.
  - unfold write_opt_pass_events.
    by rewrite write_opt_pass_loop_unfold by apply Hwritable.
  - set (P := λ s, writable s ∧
                   (pass_events s = pass_events st ∧ last_pass s = last_pass st)).
    assert (HP : preserved clock P).
    { apply preserved_and; [apply writable_preserved | apply pass_fields_preserved]. }
    destruct (write_all_events_unfold clock pid P HP (λ _ H, proj1 H) st)
      as (st2 & _ & (_ & Hpe2 & Hlp2) & _ & Hwrite); [by split|].
    eexists. split; [exact Hwrite|].
    set (st3 := add_events pid _ st2).
    set (st4 := add_events pid _ st3).
    assert (Hemit : emitted_into st2 (write_all_scopes pid (write_all_functions pid st4))).
    { eapply emitted_into_trans; [apply add_events_emitted|]. fold st3.
      eapply emitted_into_trans; [apply add_events_emitted|]. fold st4.
      eapply emitted_into_trans; [apply write_functions_loop_emitted|].
      apply write_scopes_loop_emitted. }
    destruct Hemit as (u & o & ->). by rewrite <- Hpe2, <- Hlp2.
Qed.

End Passes.

Lemma pending_pass_stays_pending_witness :
  ∃ st st',
    run clock_5ms realpath_id run_with_two_passes initial_state = Some st ∧
    cb_plugin_finish clock_5ms 42 st = Some st' ∧
    length (pass_events st') = 1%nat ∧
    ope_pass (last_pass st') = Some pass_inline.
Proof.
  destruct (run clock_5ms realpath_id run_with_two_passes initial_state)
    as [st|] eqn:Hrun; [|vm_compute in Hrun; discriminate].
  destruct (pending_pass_stays_pending clock_5ms realpath_id 42
              run_with_two_passes st Hrun)
    as (_ & Hpending & Hlen & _ & st' & Hfinish & Hpe & Hlp).
  exists st, st'. split; [reflexivity|]. split; [exact Hfinish|].
  rewrite Hpe, Hlp. split; [|exact Hpending].
  apply Hlen. repeat apply Forall_cons_2; try apply Forall_nil_2; by eexists.
Defined.

(** C2.  The last pass of a run is lost.  One pass is started at 5 ms
    and the run is written at 10 ms, so the pass has lasted far longer
    than the minimum duration; yet [write_all_events] leaves it in
    [last_pass], [pass_events] stays empty, and the trace holds the
    pairs of the translation unit and of the main file only.
    [write_preprocessing_events] closes what is still open before it
    writes; [write_opt_pass_events] has no such step. *)
Lemma last_pass_never_written :
  ∃ st st',
    run clock_5ms realpath_id run_with_one_pass initial_state = Some st ∧
    length (passes_executed run_with_one_pass) = 1%nat ∧
    cb_plugin_finish clock_5ms 42 st = Some st' ∧
    pass_events st' = [] ∧
    last_pass st' = mkOptPassEvent (Some pass_inline) (mkTimeSpan 5000001 5000000) ∧
    je_name <$> output_events_list st' = ["TU"; "TU"; "main.cpp"; "main.cpp"]%string ∧
    je_cat <$> output_events_list st' =
      ["TU"; "TU"; "PREPROCESS"; "PREPROCESS"]%string ∧
    je_ts <$> output_events_list st' = [0; 10000000; 0; 15000000].
Proof.
  eexists _, _. split; [vm_compute; reflexivity|].
  split; [reflexivity|]. split; [vm_compute; reflexivity|].
  repeat split.
Qed.

(** ** Circular inclusion *)

Section Circular.

Variable clock : nat → Z.
Variable realpath : string → option string.
Variable pid : Z.

Lemma push_inclusion_fresh (key : string) (st : State) :
  preprocess_start st !! key = None →
  push_inclusion clock key st =
    set_preprocessing_stack (key :: preprocessing_stack st)
      (set_preprocess_start (<[key := clock (ticks st)]> (preprocess_start st))
         (set_ticks (S (ticks st)) st)).
Proof.
  intros Hnew. unfold push_inclusion. cbn.
  by rewrite (proj2 (map_contains_false _ _) Hnew).
Qed.

Lemma close_top_fresh (top : string) (rest : list string) (st : State) :
  preprocess_end st !! top = None →
  close_top clock top rest st =
    set_last_function_parsed_ts (add64 (clock (ticks st)) 3)
      (set_preprocessing_stack rest
         (set_preprocess_end (<[top := clock (ticks st)]> (preprocess_end st))
            (set_ticks (S (ticks st)) st))).
Proof.
  intros Hnew. unfold close_top. cbn.
  by rewrite (proj2 (map_contains_false _ _) Hnew).
Qed.

(** C3. From the initial state, entering a file, entering it again and
    leaving twice records the file once, from the first reading of the
    clock to the last; the inner inclusion is kept under the sentinel,
    registers nothing with the normalizer, and
    [write_preprocessing_events] makes a single call of [add_event], for
    the file itself. *)
Theorem circular_inclusion
    (x : string) (pfile1 pfile2 : option cpp_reader) (st1 : State) :
  x ≠ "<command-line>"%string →
  x ≠ CIRCULAR_POISON_VALUE →
  start_preprocess_file clock realpath (Some x) pfile1 initial_state = Some st1 →
  ∃ st2 st3 st4,
    start_preprocess_file clock realpath (Some x) pfile2 st1 = Some st2 ∧
    end_preprocess_file clock st2 = Some st3 ∧
    end_preprocess_file clock st3 = Some st4 ∧
    preprocessing_stack st2 = [CIRCULAR_POISON_VALUE; x] ∧
    normalizer st2 = normalizer st1 ∧
    preprocess_start st4 =
      <[CIRCULAR_POISON_VALUE := clock 1]> (<[x := clock 0]> ∅) ∧
    preprocess_end st4 =
      <[x := clock 3]> (<[CIRCULAR_POISON_VALUE := clock 2]> ∅) ∧
    preprocessing_stack st4 = [] ∧
    write_preprocessing_events clock pid st4 =
      Some (add_event pid
              (mkTraceEvent (resolve (normalizer st4) x) PREPROCESS
                 (mkTimeSpan (clock 0) (clock 3)) None) st4).
Proof.
  intros Hcmd Hpoison Hst1.
  apply start_preprocess_file_result in Hst1 as (n1 & -> & _); [|done].
  assert (Hkey : inclusion_key initial_state x = x) by done.
  rewrite Hkey, push_inclusion_fresh by apply lookup_empty.
  set (st1 := set_normalizer n1 _).
  assert (Hcirc : is_circular st1 x = true).
  { unfold is_circular. subst st1. fields.
    rewrite (proj2 (map_contains_true _ _)) by (rewrite lookup_insert_eq; eauto).
    by rewrite (proj2 (map_contains_false _ _)) by apply lookup_empty. }
  pose (st2 := push_inclusion clock CIRCULAR_POISON_VALUE st1).
  assert (E2 : st2 = set_preprocessing_stack [CIRCULAR_POISON_VALUE; x]
                       (set_preprocess_start
                          (<[CIRCULAR_POISON_VALUE := clock 1]> (<[x := clock 0]> ∅))
                          (set_ticks 2 st1))).
  { apply push_inclusion_fresh. subst st1. fields.
    by rewrite lookup_insert_ne, lookup_empty. }
  pose (st3 := close_top clock CIRCULAR_POISON_VALUE [x] st2).
  assert (E3 : st3 = set_last_function_parsed_ts (add64 (clock 2) 3)
                       (set_preprocessing_stack [x]
                          (set_preprocess_end (<[CIRCULAR_POISON_VALUE := clock 2]> ∅)
                             (set_ticks 3 st2)))).
  { subst st3. rewrite close_top_fresh; rewrite E2; fields; [done|].
    subst st1. fields. apply lookup_empty. }
  pose (st4 := close_top clock x [] st3).
  assert (E4 : st4 = set_last_function_parsed_ts (add64 (clock 3) 3)
                       (set_preprocessing_stack []
                          (set_preprocess_end
                             (<[x := clock 3]> (<[CIRCULAR_POISON_VALUE := clock 2]> ∅))
                             (set_ticks 4 st3)))).
  { subst st4. rewrite close_top_fresh; rewrite E3; fields; [done|].
    by rewrite lookup_insert_ne, lookup_empty. }
  assert (Hstart4 : preprocess_start st4 =
                    <[CIRCULAR_POISON_VALUE := clock 1]> (<[x := clock 0]> ∅)).
  { rewrite E4. fields. rewrite E3. fields. rewrite E2. by fields. }
  assert (Hend4 : preprocess_end st4 =
                  <[x := clock 3]> (<[CIRCULAR_POISON_VALUE := clock 2]> ∅)).
  { rewrite E4. by fields. }
  assert (Hstack4 : preprocessing_stack st4 = []).
  { rewrite E4. by fields. }
  exists st2, st3, st4.
  split; [by apply start_preprocess_file_circular|].
  split; [apply end_preprocess_file_unfold; rewrite E2; by fields|].
  split; [apply end_preprocess_file_unfold; rewrite E3; by fields|].
  split; [rewrite E2; by fields|].
  split; [rewrite E2; by fields|].
  split; [exact Hstart4|]. split; [exact Hend4|]. split; [exact Hstack4|].
  unfold write_preprocessing_events.
  rewrite (finish_preprocessing_stage_empty clock st4 Hstack4).
  rewrite write_preprocessing_loop_unfold.
  - f_equal.
    assert (Hevents :
      omap (inclusion_trace_event st4) (map_to_list (preprocess_start st4)) =
      [mkTraceEvent (resolve (normalizer st4) x) PREPROCESS
         (mkTimeSpan (clock 0) (clock 3)) None]).
    { apply Permutation_singleton_r. rewrite Hstart4.
      rewrite map_to_list_insert by (by rewrite lookup_insert_ne, lookup_empty).
      rewrite map_to_list_insert by apply lookup_empty.
      rewrite map_to_list_empty.
      cbn [omap list_omap]. unfold inclusion_trace_event. cbn [fst snd].
      rewrite String.eqb_refl, (proj2 (String.eqb_neq _ _) Hpoison).
      by rewrite Hend4, lookup_insert_eq. }
    by rewrite Hevents.
  - intros [k start] Hin Hne. cbn [fst] in *.
    apply elem_of_map_to_list in Hin. rewrite Hstart4 in Hin.
    rewrite lookup_insert_ne in Hin by done.
    apply lookup_insert_Some in Hin as [[<- _]|[_ Hin]];
      [|by rewrite lookup_empty in Hin].
    rewrite Hend4, lookup_insert_eq. eauto.
Qed.

End Circular.

Lemma circular_inclusion_witness :
  ∃ st4 st',
    run clock_5ms realpath_id [enter "x"; enter "x"; leave "x"; leave "x"] initial_state
      = Some st4 ∧
    write_preprocessing_events clock_5ms 42 st4 = Some st' ∧
    output_events_list st' =
      [mkJsonEvent "x" "B" "PREPROCESS" 0 42 0 0 [];
       mkJsonEvent "x" "E" "PREPROCESS" 15000000 42 0 0 []].
Proof.
  destruct (start_preprocess_file clock_5ms realpath_id (Some "x"%string)
              (Some (mkCppReader "/usr/include")) initial_state)
    as [st1|] eqn:Hst1; [|vm_compute in Hst1; discriminate].
  destruct (circular_inclusion clock_5ms realpath_id 42 "x"
              (Some (mkCppReader "/usr/include")) (Some (mkCppReader "/usr/include"))
              st1)
    as (st2 & st3 & st4 & H2 & H3 & H4 & _ & _ & _ & _ & _ & Hw);
    [discriminate | discriminate | exact Hst1 |].
  assert (Hrun : run clock_5ms realpath_id
                   [enter "x"; enter "x"; leave "x"; leave "x"] initial_state = Some st4).
  { cbn [run callback enter leave map_file_name map_reason].
    by rewrite Hst1, H2, H3, H4. }
  exists st4. eexists. split; [exact Hrun|]. split; [exact Hw|].
  vm_compute in Hrun. injection Hrun as <-. vm_compute. reflexivity.
Defined.

(** ** Timing *)

Lemma strictly_after_nil : strictly_after [].
Proof. intros i j a b _ Ha. by rewrite lookup_nil in Ha. Qed.

Lemma strictly_after_snoc (spans : list TimeSpan) (span : TimeSpan) :
  strictly_after spans →
  (∀ a, a ∈ spans → ts_end a < ts_start span) →
  strictly_after (spans ++ [span]).
Proof.
  intros Hspans Hlast i j a b Hlt Ha Hb.
  assert (Hj : (j < length (spans ++ [span]))%nat) by (by eapply lookup_lt_Some).
  rewrite length_app in Hj. cbn in Hj.
  assert (Hai : spans !! i = Some a) by (rewrite lookup_app_l in Ha by lia; done).
  destruct (decide (j < length spans)%nat) as [Hin|Hout].
  - rewrite lookup_app_l in Hb by done. exact (Hspans i j a b Hlt Hai Hb).
  - assert (j = length spans) as -> by lia.
    rewrite list_lookup_middle in Hb by done. injection Hb as <-.
    apply Hlast. by eapply list_elem_of_lookup_2.
Qed.

Lemma extends_last_scope_true (st : State) (s : string) :
  extends_last_scope st s = true →
  ∃ earlier back,
    scope_events st = earlier ++ [back] ∧
    did_last_function_have_scope st = true ∧
    se_name back = s.
Proof.
  unfold extends_last_scope. destruct (last (scope_events st)) as [back|] eqn:Hlast; [|done].
  intros [Hdid Hname]%andb_true_iff. apply last_Some in Hlast as [earlier Hearlier].
  exists earlier, back. by apply String.eqb_eq in Hname.
Qed.

Section Timing.

Variable clock : nat → Z.
Variable realpath : string → option string.
Variable pid : Z.
Hypothesis clock_monotone : monotone clock.
Hypothesis clock_bounded : clock_in_range clock.

Lemma before_weaken (st st' : State) (v : Z) :
  (ticks st ≤ ticks st')%nat → before clock st v → before clock st' v.
Proof. intros Hticks Hv j Hj. apply Hv. lia. Qed.

Lemma before_reading (st st' : State) :
  (ticks st ≤ ticks st')%nat → before clock st' (clock (ticks st)).
Proof. intros Hticks j Hj. apply clock_monotone. lia. Qed.

Lemma before_now (st : State) (v : Z) : before clock st v → v ≤ clock (ticks st).
Proof. intros Hv. by apply Hv. Qed.

(** *** Inclusions *)

Lemma inclusion_timing_weaken (st st' : State) :
  (ticks st ≤ ticks st')%nat →
  preprocess_start st' = preprocess_start st →
  preprocess_end st' = preprocess_end st →
  preprocessing_stack st' = preprocessing_stack st →
  inclusion_timing clock st → inclusion_timing clock st'.
Proof.
  intros Hticks Hs He Hk (Hstart & Hend & Hstack).
  unfold inclusion_timing. rewrite Hs, He, Hk. split; [|done].
  intros k s Hks. eapply before_weaken; [done | by eapply Hstart].
Qed.

Lemma push_inclusion_timing (key : string) (st : State) :
  inclusion_timing clock st → inclusion_timing clock (push_inclusion clock key st).
Proof.
  intros (Hstart & Hend & Hstack). unfold push_inclusion. cbn.
  destruct (map_contains (preprocess_start st) key) eqn:Hkey; cbn;
    (split; [|split]); cbn.
  - intros k s Hks. eapply (before_weaken st); [cbn; lia | by eapply Hstart].
  - done.
  - intros k [->|Hin]%elem_of_cons; [by apply map_contains_true | by apply Hstack].
  - apply map_contains_false in Hkey.
    intros k s [[<- <-]|[Hne Hks]]%lookup_insert_Some.
    + apply (before_reading st). cbn. lia.
    + eapply (before_weaken st); [cbn; lia | by eapply Hstart].
  - apply map_contains_false in Hkey. intros k e Hke.
    destruct (Hend k e Hke) as (s & Hks & Hle). exists s. split; [|done].
    rewrite lookup_insert_ne; [done | congruence].
  - intros k [->|Hin]%elem_of_cons.
    + rewrite lookup_insert_eq. eauto.
    + destruct (Hstack k Hin) as [s Hs]. apply map_contains_false in Hkey.
      rewrite lookup_insert_ne; [eauto | congruence].
Qed.

Lemma close_top_inclusion_timing (top : string) (rest : list string) (st : State) :
  preprocessing_stack st = top :: rest →
  inclusion_timing clock st → inclusion_timing clock (close_top clock top rest st).
Proof.
  intros Htop (Hstart & Hend & Hstack). unfold close_top. cbn.
  assert (Hrest : ∀ k, k ∈ rest → is_Some (preprocess_start st !! k)).
  { intros k Hin. apply Hstack. rewrite Htop. by apply list_elem_of_further. }
  destruct (map_contains (preprocess_end st) top) eqn:Hclosed; cbn;
    (split; [|split]); cbn; try done.
  - intros k s Hks. eapply (before_weaken st); [cbn; lia | by eapply Hstart].
  - intros k s Hks. eapply (before_weaken st); [cbn; lia | by eapply Hstart].
  - intros k e [[<- <-]|[Hne Hke]]%lookup_insert_Some; [|by apply Hend].
    destruct (Hstack top) as [s Hs]; [rewrite Htop; apply list_elem_of_here|].
    exists s. split; [done|]. eapply before_now, Hstart, Hs.
Qed.

Lemma inclusion_timing_preserved : preserved clock (inclusion_timing clock).
Proof.
  constructor.
  - intros st. apply inclusion_timing_weaken; cbn; (lia || done).
  - intros st key n Hinv. apply (push_inclusion_timing key) in Hinv.
    revert Hinv. by apply inclusion_timing_weaken.
  - intros st top rest. apply close_top_inclusion_timing.
  - intros st. apply inclusion_timing_weaken; cbn; (lia || done).
  - intros st info.
    destruct (end_parse_function_unfold clock info st) as (? & ? & ->).
    apply inclusion_timing_weaken; cbn; (lia || done).
  - intros ? ? (? & ? & ->). apply inclusion_timing_weaken; cbn; (lia || done).
Qed.

Lemma start_opt_pass_inclusion_timing (pass : option opt_pass) (st : State) :
  inclusion_timing clock st → inclusion_timing clock (start_opt_pass clock pass st).
Proof.
  rewrite start_opt_pass_unfold. apply inclusion_timing_weaken; cbn; (lia || done).
Qed.

(** *** Functions and scopes *)

Lemma last_function_parsed_ts_bounds (st : State) :
  function_timing clock st →
  0 ≤ last_function_parsed_ts st ≤ clock (ticks st) + 3.
Proof.
  intros (Hlow & Hhigh & _). apply before_now in Hhigh. lia.
Qed.

Lemma function_timing_weaken (st st' : State) :
  (ticks st ≤ ticks st')%nat →
  last_function_parsed_ts st' = last_function_parsed_ts st →
  function_events st' = function_events st →
  scope_events st' = scope_events st →
  function_timing clock st → function_timing clock st'.
Proof.
  intros Hticks Hl Hf Hs (Hlow & Hhigh & Hfuns & Horder & Hscopes).
  unfold function_timing. rewrite Hl, Hf, Hs.
  split; [done|]. split; [by eapply before_weaken|]. split; [|split; [done|]].
  - intros f Hin. destruct (Hfuns f Hin) as (? & ? & ?).
    split; [done|]. split; [by eapply before_weaken | done].
  - intros s Hin. destruct (Hscopes s Hin) as (? & ?).
    split; [by eapply before_weaken | done].
Qed.

(** The boundary moves to [boundary], a value between the current reading
    and three nanoseconds past it. *)
Lemma function_timing_boundary (st st' : State) (boundary : Z) :
  ticks st' = S (ticks st) →
  last_function_parsed_ts st' = boundary →
  clock (ticks st) ≤ boundary ≤ clock (ticks st) + 3 →
  function_events st' = function_events st →
  scope_events st' = scope_events st →
  function_timing clock st → function_timing clock st'.
Proof.
  intros Hticks Hl Hb Hf Hs (Hlow & Hhigh & Hfuns & Horder & Hscopes).
  pose proof (clock_bounded (ticks st)) as Hnow.
  assert (Hle : (ticks st ≤ ticks st')%nat) by lia.
  unfold function_timing. rewrite Hl, Hf, Hs.
  split; [lia|]. split; [|split; [|split; [done|]]].
  - intros j Hj. pose proof (before_reading st st' Hle j Hj). lia.
  - intros f Hin. destruct (Hfuns f Hin) as (? & Hend & ?).
    split; [apply before_now in Hend; lia|]. split; [by eapply before_weaken | done].
  - intros s Hin. destruct (Hscopes s Hin) as (? & ?).
    split; [by eapply before_weaken | done].
Qed.

Lemma close_top_function_timing (top : string) (rest : list string) (st : State) :
  function_timing clock st → function_timing clock (close_top clock top rest st).
Proof.
  pose proof (clock_bounded (ticks st)) as Hnow.
  apply (function_timing_boundary _ _ (clock (ticks st) + 3));
    unfold close_top; cbn; split_conditional; cbn; try done; try lia.
  all: apply add64_small; unfold in_i64; lia.
Qed.

Lemma read_boundary_function_timing (st : State) :
  function_timing clock st → function_timing clock (read_boundary clock st).
Proof.
  apply (function_timing_boundary _ _ (clock (ticks st))); cbn; try done; lia.
Qed.

Lemma end_parse_function_timing (info : FinishedFunction) (st : State) :
  function_timing clock st → function_timing clock (end_parse_function clock info st).
Proof.
  intros Hinv. pose proof (last_function_parsed_ts_bounds st Hinv) as Hlast.
  destruct Hinv as (Hlow & Hhigh & Hfuns & Horder & Hscopes).
  pose proof (clock_bounded (ticks st)) as Hnow.
  set (st' := end_parse_function clock info st).
  assert (Hticks : ticks st' = S (ticks st)) by apply end_parse_function_ticks.
  assert (Hle : (ticks st ≤ ticks st')%nat) by lia.
  assert (Hreading : before clock st' (clock (ticks st))) by by apply before_reading.
  assert (Hstart : add64 (last_function_parsed_ts st) 3 = last_function_parsed_ts st + 3)
    by (apply add64_small; unfold in_i64; lia).
  assert (Hpad : add64 (clock (ticks st)) 1 = clock (ticks st) + 1)
    by (apply add64_small; unfold in_i64; lia).
  assert (Hboundary : last_function_parsed_ts st' = clock (ticks st))
    by apply end_parse_function_last_ts.
  assert (Hrecords : function_events st' =
            function_events st ++
            [mkFunctionEvent (ff_name info) (ff_file_name info)
               (mkTimeSpan (last_function_parsed_ts st + 3) (clock (ticks st)))]).
  { rewrite <- Hstart. apply end_parse_function_function_events. }
  unfold function_timing. rewrite Hboundary, Hrecords.
  split; [lia|]. split; [|split; [|split]].
  - intros j Hj. pose proof (Hreading j Hj). lia.
  - intros f [Hin|Hnew%list_elem_of_singleton]%elem_of_app.
    + destruct (Hfuns f Hin) as (? & Hend & ?).
      split; [apply before_now in Hend; lia|]. split; [by eapply before_weaken | done].
    + subst f. unfold forward_within. cbn. split; [lia|]. split; [done | lia].
  - rewrite fmap_app. apply strictly_after_snoc; [done|].
    intros a (f & -> & Hin)%list_elem_of_fmap. destruct (Hfuns f Hin) as (? & _ & _).
    cbn. lia.
  - assert (Hold : ∀ s, s ∈ scope_events st →
              before clock st' (ts_end (se_ts s) - 1) ∧ forward_within 4 (se_ts s)).
    { intros s Hin. destruct (Hscopes s Hin) as (? & ?).
      split; [by eapply before_weaken | done]. }
    assert (Hfresh : before clock st' (clock (ticks st) + 1 - 1)).
    { intros j Hj. pose proof (Hreading j Hj). lia. }
    destruct (ff_scope_name info) as [name|] eqn:Hname.
    + destruct (extends_last_scope st name) eqn:Hextends.
      * apply extends_last_scope_true in Hextends as (earlier & back & Hsc & Hdid & Hback).
        destruct (end_parse_function_same_scope clock info st name earlier back
                    Hname Hsc Hdid Hback) as [Hnow_scopes _].
        fold st' in Hnow_scopes. rewrite Hnow_scopes, Hpad.
        intros s [Hin|Hnew%list_elem_of_singleton]%elem_of_app.
        -- apply Hold. rewrite Hsc. apply elem_of_app. by left.
        -- subst s. split; [done|]. unfold forward_within. cbn.
           destruct (Hscopes back) as (Hend & Hwithin).
           { rewrite Hsc. apply elem_of_app. right. by apply list_elem_of_singleton. }
           apply before_now in Hend. unfold forward_within in Hwithin. lia.
      * destruct (end_parse_function_new_scope clock info st name Hname Hextends)
          as [Hnow_scopes _].
        fold st' in Hnow_scopes.
        rewrite Hnow_scopes, Hstart, Hpad, sub64_small by (unfold in_i64; lia).
        intros s [Hin|Hnew%list_elem_of_singleton]%elem_of_app; [by apply Hold|].
        subst s. split; [done|]. unfold forward_within. cbn. lia.
    + destruct (end_parse_function_no_scope clock info st Hname) as [Hnow_scopes _].
      fold st' in Hnow_scopes. by rewrite Hnow_scopes.
Qed.

Lemma function_timing_preserved : preserved clock (function_timing clock).
Proof.
  constructor.
  - intros st. apply function_timing_weaken; cbn; (lia || done).
  - intros st key n. apply function_timing_weaken;
      unfold push_inclusion; cbn; split_conditional; cbn; (lia || done).
  - intros st top rest _. apply close_top_function_timing.
  - apply read_boundary_function_timing.
  - intros st info. apply end_parse_function_timing.
  - intros ? ? (? & ? & ->). apply function_timing_weaken; cbn; (lia || done).
Qed.

Lemma start_opt_pass_function_timing (pass : option opt_pass) (st : State) :
  function_timing clock st → function_timing clock (start_opt_pass clock pass st).
Proof.
  rewrite start_opt_pass_unfold. apply function_timing_weaken; cbn; (lia || done).
Qed.

(** *** Passes *)

Lemma pass_timing_weaken (st st' : State) :
  (ticks st ≤ ticks st')%nat →
  last_pass st' = last_pass st →
  pass_events st' = pass_events st →
  pass_timing clock st → pass_timing clock st'.
Proof.
  intros Hticks Hl He (Hlow & Hhigh & Hevents & Horder).
  unfold pass_timing. rewrite Hl, He.
  split; [done|]. split; [by eapply before_weaken|]. split; [|done].
  intros e Hin. destruct (Hevents e Hin) as (? & ? & ?).
  split; [done|]. split; [by eapply before_weaken | done].
Qed.

Lemma pass_timing_preserved : preserved clock (pass_timing clock).
Proof.
  constructor.
  - intros st. apply pass_timing_weaken; cbn; (lia || done).
  - intros st key n. apply pass_timing_weaken;
      unfold push_inclusion; cbn; split_conditional; cbn; (lia || done).
  - intros st top rest _. apply pass_timing_weaken;
      unfold close_top; cbn; split_conditional; cbn; (lia || done).
  - intros st. apply pass_timing_weaken; cbn; (lia || done).
  - intros st info.
    destruct (end_parse_function_unfold clock info st) as (? & ? & ->).
    apply pass_timing_weaken; cbn; (lia || done).
  - intros ? ? (? & ? & ->). apply pass_timing_weaken; cbn; (lia || done).
Qed.

Lemma start_opt_pass_pass_timing (pass : option opt_pass) (st : State) :
  pass_timing clock st → pass_timing clock (start_opt_pass clock pass st).
Proof.
  intros (Hlow & Hhigh & Hevents & Horder).
  pose proof (clock_bounded (ticks st)) as Hnow.
  rewrite start_opt_pass_unfold. cbv zeta.
  set (st' := set_last_pass _ _).
  assert (Hle : (ticks st ≤ ticks st')%nat) by (cbn; lia).
  assert (Hreading : before clock st' (clock (ticks st))) by by apply before_reading.
  assert (Hstart : add64 (clock (ticks st)) 1 = clock (ticks st) + 1)
    by (apply add64_small; unfold in_i64; lia).
  assert (Hold : ∀ e, e ∈ pass_events st →
            ts_end (ope_ts e) < clock (ticks st) + 1 ∧
            before clock st' (ts_end (ope_ts e)) ∧
            forward_within 1 (ope_ts e)).
  { intros e Hin. destruct (Hevents e Hin) as (_ & Hend & ?).
    split; [apply before_now in Hend; lia|]. split; [by eapply before_weaken | done]. }
  unfold pass_timing. subst st'. fields. cbn [ope_ts ts_start]. rewrite Hstart.
  split; [lia|]. split; [|split].
  - intros j Hj. pose proof (Hreading j Hj). lia.
  - destruct (ope_pass (last_pass st)); [|done].
    intros e [Hin|Hnew%list_elem_of_singleton]%elem_of_app; [by apply Hold|].
    subst e. unfold forward_within. cbn. apply before_now in Hhigh.
    split; [lia|]. split; [done | lia].
  - destruct (ope_pass (last_pass st)); [|done].
    rewrite fmap_app. apply strictly_after_snoc; [done|].
    intros a (e & -> & Hin)%list_elem_of_fmap. cbn.
    by destruct (Hevents e Hin) as (? & _ & _).
Qed.

(** *** All spans *)

Lemma timing_invariant_preserved : preserved clock (timing_invariant clock).
Proof.
  apply preserved_and; [apply inclusion_timing_preserved|].
  apply preserved_and; [apply function_timing_preserved | apply pass_timing_preserved].
Qed.

Lemma start_opt_pass_timing_invariant (pass : option opt_pass) (st : State) :
  timing_invariant clock st → timing_invariant clock (start_opt_pass clock pass st).
Proof.
  intros (Hi & Hf & Hp). split; [|split].
  - by apply start_opt_pass_inclusion_timing.
  - by apply start_opt_pass_function_timing.
  - by apply start_opt_pass_pass_timing.
Qed.

Lemma initial_state_timing_invariant : timing_invariant clock initial_state.
Proof.
  split; [|split].
  - split; [|split].
    + intros k s Hk.
      change (preprocess_start initial_state) with (∅ : gmap string Z) in Hk.
      by rewrite lookup_empty in Hk.
    + intros k e Hk.
      change (preprocess_end initial_state) with (∅ : gmap string Z) in Hk.
      by rewrite lookup_empty in Hk.
    + intros k Hk. by apply elem_of_nil in Hk.
  - split; [done|]. split; [|split; [|split]].
    + intros j _. pose proof (clock_bounded j). cbn. lia.
    + intros f Hf. by apply elem_of_nil in Hf.
    + apply strictly_after_nil.
    + intros s Hs. by apply elem_of_nil in Hs.
  - split; [done|]. split; [|split].
    + intros j _. pose proof (clock_bounded j). cbn. lia.
    + intros e He. by apply elem_of_nil in He.
    + apply strictly_after_nil.
Qed.

Lemma timing_invariant_spans (st : State) :
  timing_invariant clock st →
  spans_nearly_forward st ∧ sequential_sources_ordered st.
Proof.
  intros ((_ & Hend & _) & (_ & _ & Hfuns & Hforder & Hscopes) & (_ & _ & Hpasses & Hporder)).
  split; [|by split].
  split; [|split; [|split]].
  - intros k s e Hs He. destruct (Hend k e He) as (s' & Hs' & Hle). congruence.
  - apply Forall_fmap, Forall_forall. intros e Hin. by destruct (Hpasses e Hin) as (_ & _ & ?).
  - apply Forall_fmap, Forall_forall. intros f Hin. by destruct (Hfuns f Hin) as (_ & _ & ?).
  - apply Forall_fmap, Forall_forall. intros s Hin. by destruct (Hscopes s Hin) as (_ & ?).
Qed.

(** C1, as the code has it.  With a monotone clock whose readings stay
    in range, after any run and at emission time: every inclusion
    record has [end >= start]; in the stage history and in the function
    records every later span starts strictly after every earlier span
    ends; a stage span ends at most 1 ns, a function span at most 6 ns
    and a scope span at most 4 ns before it starts. *)
Theorem spans_ordered_at_emission (cbs : list Callback) (st : State) :
  run clock realpath cbs initial_state = Some st →
  spans_nearly_forward st ∧ sequential_sources_ordered st ∧
  ∃ st', cb_plugin_finish clock pid st = Some st' ∧
         spans_nearly_forward st' ∧ sequential_sources_ordered st'.
Proof.
  intros Hrun.
  set (P := λ s, timing_invariant clock s ∧ writable s).
  assert (HP : preserved clock P).
  { apply preserved_and; [apply timing_invariant_preserved | apply writable_preserved]. }
  assert (Hst : P st).
  { apply (run_preserved clock realpath P HP cbs initial_state); [| |done].
    - intros s pass [? ?].
      split; [by apply start_opt_pass_timing_invariant | by apply start_opt_pass_writable].
    - split; [apply initial_state_timing_invariant | apply initial_state_writable]. }
  destruct (timing_invariant_spans st (proj1 Hst)) as [Hshape Horder].
  split; [done|]. split; [done|].
  destruct (write_all_events_unfold clock pid P HP (λ _ H, proj2 H) st Hst)
    as (st2 & _ & [Htiming _] & _ & Hwrite).
  eexists. split; [exact Hwrite|].
  apply timing_invariant_spans.
  set (st3 := add_events pid _ st2).
  set (st4 := add_events pid _ st3).
  assert (Hemit : emitted_into st2 (write_all_scopes pid (write_all_functions pid st4))).
  { eapply emitted_into_trans; [apply add_events_emitted|]. fold st3.
    eapply emitted_into_trans; [apply add_events_emitted|]. fold st4.
    eapply emitted_into_trans; [apply write_functions_loop_emitted|].
    apply write_scopes_loop_emitted. }
  by apply (pres_emit _ _ timing_invariant_preserved st2).
Qed.

End Timing.

Lemma clock_1ns_capped_monotone : monotone clock_1ns_capped.
Proof. intros i j Hij. unfold clock_1ns_capped. lia. Qed.

Lemma clock_1ns_capped_in_range : clock_in_range clock_1ns_capped.
Proof. intros i. unfold clock_1ns_capped. lia. Qed.

Lemma clock_stopped_monotone : monotone clock_stopped.
Proof. by intros i j Hij. Qed.

Lemma clock_stopped_in_range : clock_in_range clock_stopped.
Proof. intros i. unfold clock_stopped. lia. Qed.

Lemma spans_ordered_at_emission_witness :
  ∃ st,
    run clock_1ns_capped realpath_id run_with_quick_function initial_state = Some st ∧
    spans_nearly_forward st ∧ sequential_sources_ordered st.
Proof.
  destruct (run clock_1ns_capped realpath_id run_with_quick_function initial_state)
    as [st|] eqn:Hrun; [|vm_compute in Hrun; discriminate].
  exists st. split; [reflexivity|].
  destruct (spans_ordered_at_emission clock_1ns_capped realpath_id 42
              clock_1ns_capped_monotone clock_1ns_capped_in_range
              run_with_quick_function st Hrun)
    as (Hshape & Horder & _).
  by split.
Defined.

(** C1 as worded fails.  With a clock that advances by one nanosecond per
    reading, a function parsed right after a header is left is recorded
    with a span that ends 5 ns before it starts, and so is its scope;
    with a clock that yields the same reading twice, a stage span ends
    1 ns before it starts. *)
Lemma spans_can_end_before_they_start :
  (monotone clock_1ns_capped ∧ clock_in_range clock_1ns_capped ∧
   ∃ st st',
     run clock_1ns_capped realpath_id run_with_quick_function initial_state = Some st ∧
     cb_plugin_finish clock_1ns_capped 42 st = Some st' ∧
     fe_ts <$> function_events st' = [mkTimeSpan 1007 1002] ∧
     se_ts <$> scope_events st' = [mkTimeSpan 1006 1003] ∧
     ¬ all_spans_forward st') ∧
  (monotone clock_stopped ∧ clock_in_range clock_stopped ∧
   ∃ st st',
     run clock_stopped realpath_id run_with_two_passes initial_state = Some st ∧
     cb_plugin_finish clock_stopped 42 st = Some st' ∧
     ope_ts <$> pass_events st' = [mkTimeSpan 1001 1000] ∧
     ¬ all_spans_forward st').
Proof.
  split.
  - split; [apply clock_1ns_capped_monotone|]. split; [apply clock_1ns_capped_in_range|].
    eexists _, _. split; [vm_compute; reflexivity|]. split; [vm_compute; reflexivity|].
    split; [reflexivity|]. split; [reflexivity|].
    intros (_ & _ & Hfunctions & _).
    apply Forall_cons_1 in Hfunctions as [Hforward _]. by vm_compute in Hforward.
  - split; [apply clock_stopped_monotone|]. split; [apply clock_stopped_in_range|].
    eexists _, _. split; [vm_compute; reflexivity|]. split; [vm_compute; reflexivity|].
    split; [reflexivity|].
    intros (_ & Hpasses & _).
    apply Forall_cons_1 in Hpasses as [Hforward _]. by vm_compute in Hforward.
Qed.

(** * Further properties of the code *)

(** ** Strings: prefixes and suffixes *)

Lemma append_cons (a : Ascii.ascii) (d s : string) :
  (String a d ++ s)%string = String a (d ++ s)%string.
Proof. reflexivity. Qed.

Lemma append_empty (s : string) : (EmptyString ++ s)%string = s.
Proof. reflexivity. Qed.

Lemma prefix_append (d s : string) : String.prefix d (d ++ s) = true.
Proof.
  induction d as [|a d IH].
  - rewrite append_empty. by destruct s.
  - rewrite append_cons. cbn. by destruct (Ascii.ascii_dec a a).
Qed.

Lemma prefix_length (d f : string) :
  String.prefix d f = true → (String.length d ≤ String.length f)%nat.
Proof.
  revert f. induction d as [|a d IH]; intros [|b f]; cbn; try (intros; lia || done).
  destruct (Ascii.ascii_dec a b); [|done]. intros H%IH. lia.
Qed.

Lemma prefix_same_length (d f : string) :
  String.prefix d f = true → (String.length f ≤ String.length d)%nat → f = d.
Proof.
  revert f. induction d as [|a d IH]; intros [|b f]; cbn; try done.
  - intros _ H. lia.
  - destruct (Ascii.ascii_dec a b) as [->|]; [|done].
    intros Hp Hl. f_equal. apply IH; [done | lia].
Qed.

Lemma prefix_refl (d : string) : String.prefix d d = true.
Proof.
  induction d as [|a d IH]; cbn; [done|]. by destruct (Ascii.ascii_dec a a).
Qed.

Lemma substring_whole (s : string) : String.substring 0 (String.length s) s = s.
Proof. induction s as [|a s IH]; cbn; [done|]. by rewrite IH. Qed.

Lemma length_append (d s : string) :
  String.length (d ++ s) = (String.length d + String.length s)%nat.
Proof.
  induction d as [|a d IH]; [done|]. rewrite append_cons. cbn. by rewrite IH.
Qed.

Lemma substr_after_separator (d name : string) (c : Ascii.ascii) :
  substr (d ++ String c name) (String.length d + 1) = Some name.
Proof.
  unfold substr. rewrite length_append. cbn [String.length].
  destruct (Nat.ltb_spec (String.length d + S (String.length name)) (String.length d + 1));
    [lia|].
  f_equal.
  replace (String.length d + S (String.length name) - (String.length d + 1))%nat
    with (String.length name) by lia.
  replace (String.length d + 1)%nat with (S (String.length d)) by lia.
  induction d as [|a d IH].
  - rewrite append_empty. cbn. apply substring_whole.
  - rewrite append_cons. cbn. apply IH. lia.
Qed.

(** ** The normalizer: failure, prefixes, conflicts *)

(** X1. [register_include_location] aborts (the [substr] call throws)
    exactly when the file is not yet registered and its path is the
    directory path itself; in every other case it returns. *)
Theorem register_include_location_throws_iff (file_name dir : string) (n : Normalizer) :
  register_include_location file_name dir n = None ↔
  file_to_include_directory n !! file_name = None ∧ file_name = dir.
Proof.
  unfold register_include_location. split.
  - destruct (map_contains (file_to_include_directory n) file_name) eqn:Hknown;
      cbn; [done|].
    apply map_contains_false in Hknown.
    unfold starts_with. destruct (String.prefix dir file_name) eqn:Hprefix; [|done].
    unfold substr.
    destruct (Nat.ltb_spec (String.length file_name) (String.length dir + 1)) as [Hshort|].
    + intros _. split; [done|]. apply prefix_same_length; [done | lia].
    + by destruct (set_contains _ _).
  - intros [Hnew ->]. rewrite (proj2 (map_contains_false _ _) Hnew). cbn.
    unfold starts_with. rewrite prefix_refl. unfold substr.
    by destruct (Nat.ltb_spec (String.length dir) (String.length dir + 1)); [|lia].
Qed.

(** X2. A fresh file named [dir], one more character, then [name]
    registers under [name] whatever that character is: when [name] is
    unclaimed the file resolves to it.  The prefix test is on characters,
    not on path components. *)
Theorem register_strips_directory_and_one_character
    (dir name : string) (c : Ascii.ascii) (n : Normalizer) :
  let file_name := (dir ++ String c name)%string in
  file_to_include_directory n !! file_name = None →
  name ∉ normalized_files n →
  name ∉ conflicted_files n →
  ∃ n', register_include_location file_name dir n = Some n' ∧
        normalized_files_map n' !! file_name = Some name ∧
        name ∈ normalized_files n' ∧
        (normalized_file_name file_name n').1 = name.
Proof.
  intros file_name Hnew Hfree Hnoconf.
  eexists. split.
  { apply register_include_location_fresh; [done | apply prefix_append|].
    apply substr_after_separator. }
  rewrite !decide_False by done. cbn.
  split; [by rewrite lookup_insert_eq|].
  split; [by apply elem_of_union_l, elem_of_singleton|].
  rewrite normalized_file_name_fst. unfold resolve. cbn.
  by rewrite lookup_insert_eq, decide_False.
Qed.

Lemma register_strips_directory_and_one_character_witness :
  ∃ n', register_include_location "/a/bc.h" "/a/b" empty_normalizer = Some n' ∧
        (normalized_file_name "/a/bc.h" n').1 = ".h"%string.
Proof.
  destruct (register_strips_directory_and_one_character "/a/b" ".h" (Ascii.ascii_of_nat 99)
              empty_normalizer)
    as (n' & Hreg & _ & _ & Hres);
    [vm_compute; reflexivity | apply not_elem_of_empty | apply not_elem_of_empty |].
  exists n'. split; [exact Hreg | exact Hres].
Defined.

Lemma register_all_keeps_unmapped
    (file_name : string) (entries : list (string * string)) (m m' : Normalizer) :
  is_Some (file_to_include_directory m !! file_name) →
  normalized_files_map m !! file_name = None →
  register_all entries m = Some m' →
  is_Some (file_to_include_directory m' !! file_name) ∧
  normalized_files_map m' !! file_name = None.
Proof.
  revert m. induction entries as [|[f d] entries IH]; intros m Hdir Hmap; cbn.
  - by intros [= <-].
  - destruct (register_include_location f d m) as [m1|] eqn:Hreg; [|done].
    unfold register_include_location in Hreg.
    destruct (map_contains (file_to_include_directory m) f) eqn:Hf; cbn in Hreg.
    { injection Hreg as <-. by apply IH. }
    assert (Hne : f ≠ file_name).
    { intros ->. apply map_contains_false in Hf. destruct Hdir as [? Hdir]. congruence. }
    assert (Hdir1 : is_Some (<[f := d]> (file_to_include_directory m) !! file_name))
      by (by rewrite lookup_insert_ne).
    destruct (starts_with f d); [|injection Hreg as <-; by apply IH].
    destruct (substr f _); [|done].
    destruct (set_contains _ _); injection Hreg as <-; apply IH; cbn;
      by rewrite ?lookup_insert_ne.
Qed.

(** X3. A file registered with a directory that is not a prefix of its
    path is remembered as registered without a normalized name: it
    resolves to its own path, every later registration of it is ignored,
    and it keeps resolving to its own path whatever is registered
    afterwards. *)
Theorem prefix_mismatch_is_final
    (file_name dir : string) (n : Normalizer) :
  file_to_include_directory n !! file_name = None →
  normalized_files_map n !! file_name = None →
  starts_with file_name dir = false →
  ∃ n', register_include_location file_name dir n = Some n' ∧
        (normalized_file_name file_name n').1 = file_name ∧
        ∀ entries n'', register_all entries n' = Some n'' →
                       (normalized_file_name file_name n'').1 = file_name.
Proof.
  intros Hnew Hnomap Hmismatch.
  eexists. split.
  { unfold register_include_location.
    rewrite (proj2 (map_contains_false _ _) Hnew). cbn. by rewrite Hmismatch. }
  set (n' := mkNormalizer _ _ _ _).
  split.
  - rewrite normalized_file_name_fst. unfold resolve. subst n'. cbn. by rewrite Hnomap.
  - intros entries n'' Hall. rewrite normalized_file_name_fst. unfold resolve.
    destruct (register_all_keeps_unmapped file_name entries n' n'') as [_ ->];
      [| done | done | done].
    subst n'. cbn. rewrite lookup_insert_eq. eauto.
Qed.

Lemma prefix_mismatch_is_final_witness :
  ∃ n', register_include_location "/src/a.h" "/usr/include" empty_normalizer = Some n' ∧
        ∃ n'', register_include_location "/src/a.h" "/src" n' = Some n'' ∧
               (normalized_file_name "/src/a.h" n'').1 = "/src/a.h"%string.
Proof.
  destruct (prefix_mismatch_is_final "/src/a.h" "/usr/include" empty_normalizer)
    as (n' & Hreg & _ & Hlater); [reflexivity..|].
  exists n'. split; [exact Hreg|].
  destruct (register_include_location "/src/a.h" "/src" n') as [n''|] eqn:Hreg2.
  - exists n''. split; [done|]. apply (Hlater [("/src/a.h", "/src")]%string).
    cbn. by rewrite Hreg2.
  - vm_compute in Hreg. injection Hreg as <-. vm_compute in Hreg2. discriminate.
Defined.

Lemma register_all_directories (entries : list (string * string)) (n n' : Normalizer) :
  register_all entries n = Some n' →
  file_to_include_directory n' =
    file_to_include_directory n ∪ (list_to_map entries : gmap string string).
Proof.
  revert n. induction entries as [|[f d] entries IH]; intros n; cbn.
  - intros [= <-]. by rewrite (right_id_L ∅ (∪)).
  - destruct (register_include_location f d n) as [n1|] eqn:Hreg; [|done].
    intros Hall. rewrite (IH n1 Hall). clear IH Hall.
    assert (Hdirs : file_to_include_directory n1 =
                    match file_to_include_directory n !! f with
                    | Some _ => file_to_include_directory n
                    | None => <[f := d]> (file_to_include_directory n)
                    end).
    { unfold register_include_location, map_contains in Hreg.
      destruct (file_to_include_directory n !! f); cbn in Hreg.
      - by injection Hreg as <-.
      - destruct (starts_with f d); [|by injection Hreg as <-].
        destruct (substr f _); [|done].
        by destruct (set_contains _ _); injection Hreg as <-. }
    rewrite Hdirs. apply map_eq. intros k.
    destruct (file_to_include_directory n !! f) as [d0|] eqn:Hf;
      rewrite !lookup_union.
    + destruct (decide (k = f)) as [->|Hne].
      * by rewrite Hf, !union_Some_l.
      * by rewrite lookup_insert_ne.
    + destruct (decide (k = f)) as [->|Hne].
      * by rewrite !lookup_insert_eq, Hf, union_Some_l.
      * by rewrite !lookup_insert_ne.
Qed.

(** X4. The first registration of a file decides its include directory:
    after a series of registrations from the empty tables, the directory
    table is the entries read as a map in which the earliest entry of
    each file wins. *)
Theorem first_registration_wins (entries : list (string * string)) (n : Normalizer) :
  register_all entries empty_normalizer = Some n →
  file_to_include_directory n = list_to_map entries.
Proof.
  intros Hall. rewrite (register_all_directories entries empty_normalizer n Hall).
  cbn. by rewrite (left_id_L ∅ (∪)).
Qed.

Lemma first_registration_wins_witness :
  ∃ n, register_all [("/a/b/c.h", "/a/b"); ("/a/b/c.h", "/a")]%string empty_normalizer
         = Some n ∧
       file_to_include_directory n !! "/a/b/c.h"%string = Some "/a/b"%string.
Proof.
  destruct (register_all [("/a/b/c.h", "/a/b"); ("/a/b/c.h", "/a")]%string
              empty_normalizer) as [n|] eqn:Hall; [|vm_compute in Hall; discriminate].
  exists n. split; [done|].
  by rewrite (first_registration_wins _ n Hall).
Defined.

Lemma empty_normalizer_wf : normalizer_wf empty_normalizer.
Proof.
  unfold normalizer_wf, empty_normalizer. cbn.
  split; [|split; [|split]]; try done; intros *; try intros ?;
    by rewrite lookup_empty.
Qed.

Lemma register_include_location_wf (file_name dir : string) (n n' : Normalizer) :
  normalizer_wf n →
  register_include_location file_name dir n = Some n' →
  normalizer_wf n'.
Proof.
  intros (Hpath & Hclaimed & Hsub & Hshared).
  unfold register_include_location.
  destruct (map_contains (file_to_include_directory n) file_name) eqn:Hknown; cbn.
  { by intros [= <-]. }
  apply map_contains_false in Hknown.
  assert (Hnomap : normalized_files_map n !! file_name = None).
  { destruct (normalized_files_map n !! file_name) as [c|] eqn:Hc; [|done].
    destruct (Hpath _ _ Hc) as (d & Hd & _). congruence. }
  destruct (starts_with file_name dir) eqn:Hprefix.
  - destruct (substr file_name _) as [name|] eqn:Hsubstr; [|done].
    assert (Hpath' : ∀ f c,
              <[file_name := name]> (normalized_files_map n) !! f = Some c →
              ∃ d, <[file_name := dir]> (file_to_include_directory n) !! f = Some d ∧
                   starts_with f d = true ∧ substr f (String.length d + 1) = Some c).
    { intros f c [[<- <-]|[Hne Hc]]%lookup_insert_Some.
      - exists dir. by rewrite lookup_insert_eq.
      - destruct (Hpath _ _ Hc) as (d & Hd & ?). exists d.
        by rewrite lookup_insert_ne. }
    unfold set_contains. case_bool_decide as Htaken; intros [= <-];
      (split; [exact Hpath'|]); cbn.
    + split; [|split].
      * intros f c [[<- <-]|[Hne Hc]]%lookup_insert_Some; [done | by eapply Hclaimed].
      * apply union_subseteq. split; [by apply singleton_subseteq_l | done].
      * intros f1 f2 c Hne [[E1 C1]|[Hne1 Hc1]]%lookup_insert_Some
                          [[E2 C2]|[Hne2 Hc2]]%lookup_insert_Some;
          subst; try done; try (by apply elem_of_union_l, elem_of_singleton).
        apply elem_of_union_r. exact (Hshared f1 f2 c Hne Hc1 Hc2).
    + split; [|split].
      * intros f c [[<- <-]|[Hne Hc]]%lookup_insert_Some.
        -- by apply elem_of_union_l, elem_of_singleton.
        -- apply elem_of_union_r. by eapply Hclaimed.
      * etrans; [exact Hsub | apply union_subseteq_r].
      * intros f1 f2 c Hne [[E1 C1]|[Hne1 Hc1]]%lookup_insert_Some
                          [[E2 C2]|[Hne2 Hc2]]%lookup_insert_Some;
          subst; try done.
        -- destruct Htaken. exact (Hclaimed _ _ Hc2).
        -- destruct Htaken. exact (Hclaimed _ _ Hc1).
        -- exact (Hshared f1 f2 c Hne Hc1 Hc2).
  - intros [= <-]. split; [|done]. cbn.
    intros f c Hc. destruct (Hpath _ _ Hc) as (d & Hd & ?). exists d.
    rewrite lookup_insert_ne; [done | congruence].
Qed.

Lemma register_all_wf (entries : list (string * string)) (n n' : Normalizer) :
  normalizer_wf n → register_all entries n = Some n' → normalizer_wf n'.
Proof.
  revert n. induction entries as [|[f d] entries IH]; intros n Hwf; cbn.
  - by intros [= <-].
  - destruct (register_include_location f d n) as [n1|] eqn:Hreg; [|done].
    apply IH. by eapply register_include_location_wf.
Qed.

(** X5. Conflict detection misses nothing.  After any series of
    registrations from the empty tables, two different files that were
    given the same normalized name both resolve to their own paths, and
    a stored name is always the file's path cut after its registered
    directory and one more character. *)
Theorem shared_names_are_conflicts
    (entries : list (string * string)) (n : Normalizer) :
  register_all entries empty_normalizer = Some n →
  (∀ f1 f2 c,
     f1 ≠ f2 →
     normalized_files_map n !! f1 = Some c →
     normalized_files_map n !! f2 = Some c →
     (normalized_file_name f1 n).1 = f1 ∧ (normalized_file_name f2 n).1 = f2) ∧
  (∀ f c,
     normalized_files_map n !! f = Some c →
     ∃ d, file_to_include_directory n !! f = Some d ∧
          starts_with f d = true ∧
          substr f (String.length d + 1) = Some c).
Proof.
  intros Hall.
  destruct (register_all_wf entries empty_normalizer n empty_normalizer_wf Hall)
    as (Hpath & _ & _ & Hshared).
  split; [|exact Hpath].
  intros f1 f2 c Hne H1 H2. rewrite !normalized_file_name_fst. unfold resolve.
  rewrite H1, H2. by rewrite !decide_True by exact (Hshared f1 f2 c Hne H1 H2).
Qed.

Lemma shared_names_are_conflicts_witness :
  ∃ n, register_all [("/a/b/c.h", "/a/b"); ("/x/c.h", "/x"); ("/a/b/d.h", "/a/b")]%string
         empty_normalizer = Some n ∧
       (normalized_file_name "/a/b/c.h" n).1 = "/a/b/c.h"%string ∧
       (normalized_file_name "/x/c.h" n).1 = "/x/c.h"%string.
Proof.
  destruct (register_all [("/a/b/c.h", "/a/b"); ("/x/c.h", "/x"); ("/a/b/d.h", "/a/b")]%string
              empty_normalizer) as [n|] eqn:Hall; [|vm_compute in Hall; discriminate].
  exists n. split; [done|].
  apply (proj1 (shared_names_are_conflicts _ n Hall) "/a/b/c.h" "/x/c.h" "c.h")%string;
    [discriminate | |];
    vm_compute in Hall; injection Hall as <-; reflexivity.
Defined.

(** X6. A display name only ever degrades.  For a registered file,
    whatever is registered later, [normalized_file_name] returns either
    what it returned before or the file's own path; once it returns the
    path because the name is conflicted, it keeps doing so. *)
Theorem display_name_only_degrades
    (file_name : string) (entries : list (string * string)) (n n' : Normalizer) :
  is_Some (file_to_include_directory n !! file_name) →
  register_all entries n = Some n' →
  ((normalized_file_name file_name n').1 = (normalized_file_name file_name n).1 ∨
   (normalized_file_name file_name n').1 = file_name) ∧
  (∀ c, normalized_files_map n !! file_name = Some c → c ∈ conflicted_files n →
        (normalized_file_name file_name n').1 = file_name).
Proof.
  intros [d Hdir] Hall. rewrite !normalized_file_name_fst. unfold resolve.
  destruct (normalized_files_map n !! file_name) as [c|] eqn:Hmap.
  - destruct (register_all_le entries n n' Hall) as (_ & Hconf & Hkeep).
    destruct (Hkeep file_name d c Hdir Hmap) as [_ Hmap']. rewrite Hmap'.
    split.
    + destruct (decide (c ∈ conflicted_files n')) as [Hc'|Hc']; [by right|].
      left. rewrite decide_False; [done|]. intros Hc. by apply Hc', Hconf.
    + intros c0 [= <-] Hc. by rewrite decide_True by by apply Hconf.
  - destruct (register_all_keeps_unmapped file_name entries n n') as [_ ->];
      [by eauto | done | done |].
    split; [by left | done].
Qed.

Lemma display_name_only_degrades_witness :
  ∃ n n',
    register_all [("/a/b/c.h", "/a/b")]%string empty_normalizer = Some n ∧
    register_all [("/a/b/c.h", "/a/b"); ("/x/c.h", "/x")]%string empty_normalizer
      = Some n' ∧
    ((normalized_file_name "/a/b/c.h" n').1 = (normalized_file_name "/a/b/c.h" n).1 ∨
     (normalized_file_name "/a/b/c.h" n').1 = "/a/b/c.h"%string).
Proof.
  destruct (register_include_location "/a/b/c.h" "/a/b" empty_normalizer)
    as [n|] eqn:Hn; [|vm_compute in Hn; discriminate].
  destruct (register_all [("/a/b/c.h", "/a/b"); ("/x/c.h", "/x")]%string empty_normalizer)
    as [n'|] eqn:Hn'; [|vm_compute in Hn'; discriminate].
  exists n, n'. split; [cbn; by rewrite Hn|]. split; [done|].
  cbn [register_all] in Hn'. rewrite Hn in Hn'.
  apply (display_name_only_degrades "/a/b/c.h" [("/x/c.h", "/x")]%string n n');
    [|exact Hn'].
  vm_compute in Hn. injection Hn as <-. by eexists.
Defined.

(** ** Preprocessing: first-seen times, forced close, the stack *)

Section Inclusions.

Variable clock : nat → Z.
Variable realpath : string → option string.

(** Every callback is one of these steps. *)
Lemma callback_cases (cb : Callback) (st st' : State) :
  callback clock realpath cb st = Some st' →
  st' = st ∨
  st' = set_ticks (S (ticks st)) st ∨
  (∃ file_name n,
     file_name ≠ "<command-line>"%string ∧
     st' = set_normalizer n (push_inclusion clock (inclusion_key st file_name) st)) ∨
  (∃ top rest,
     preprocessing_stack st = top :: rest ∧ st' = close_top clock top rest st) ∨
  finish_preprocessing_stage clock st = Some st' ∨
  (∃ info, cb = cb_finish_parse_function info ∧
           st' = end_parse_function clock info st) ∨
  (∃ pass, cb = cb_pass_execution pass ∧ st' = start_opt_pass clock pass st).
Proof.
  assert (Hstart : ∀ file_name pfile,
    start_preprocess_file clock realpath file_name pfile st = Some st' →
    st' = set_ticks (S (ticks st)) st ∨
    ∃ f n, f ≠ "<command-line>"%string ∧
           st' = set_normalizer n (push_inclusion clock (inclusion_key st f) st)).
  { intros [f|] pfile; [|intros [= <-]; by left].
    destruct (decide (f = "<command-line>"%string)) as [->|Hcmd].
    - intros [= <-]. by left.
    - intros (n & -> & _)%start_preprocess_file_result; [|done].
      right. by exists f, n. }
  destruct cb as [main | pfile new_map | | info | pass]; cbn [callback].
  - intros [?|?]%Hstart; tauto.
  - destruct new_map as [[[file_name|] reason]|]; cbn [map_file_name map_reason];
      [| intros [= <-]; by left ..].
    destruct reason; [| | intros [= <-]; by left].
    + intros [?|?]%Hstart; tauto.
    + destruct (preprocessing_stack st) as [|top rest] eqn:Hstack.
      * unfold end_preprocess_file, ns_from_start. cbn. by rewrite Hstack.
      * rewrite (end_preprocess_file_unfold clock top rest st Hstack).
        intros [= <-]. do 3 right. left. by exists top, rest.
  - intros ?. tauto.
  - intros [= <-]. do 5 right. left. by exists info.
  - intros [= <-]. do 6 right. by exists pass.
Qed.

(** One iteration of the forced-close loop at a time. *)
Lemma finish_preprocessing_loop_iterations (P : State → Prop) :
  (∀ st top rest, preprocessing_stack st = top :: rest → P st →
                  P (read_boundary clock (close_top clock top rest st))) →
  ∀ fuel st, (length (preprocessing_stack st) ≤ fuel)%nat → P st →
    ∃ st', finish_preprocessing_loop clock fuel st = Some st' ∧
           P st' ∧ preprocessing_stack st' = [].
Proof.
  intros Hiter. induction fuel as [|fuel IH]; intros st Hfuel HP.
  - destruct (preprocessing_stack st) as [|top rest] eqn:Hstack; [|simpl in Hfuel; lia].
    exists st. cbn. by rewrite Hstack.
  - destruct (preprocessing_stack st) as [|top rest] eqn:Hstack.
    + exists st. cbn. by rewrite Hstack.
    + cbn [finish_preprocessing_loop]. rewrite Hstack.
      rewrite (end_preprocess_file_unfold clock top rest st Hstack).
      unfold ns_from_start. fold (read_boundary clock (close_top clock top rest st)).
      apply IH.
      * change (preprocessing_stack (read_boundary clock (close_top clock top rest st)))
          with (preprocessing_stack (close_top clock top rest st)).
        rewrite close_top_stack. simpl in Hfuel. lia.
      * by apply Hiter.
Qed.

Lemma close_top_fields (top : string) (rest : list string) (st : State) :
  ticks (close_top clock top rest st) = S (ticks st) ∧
  preprocess_start (close_top clock top rest st) = preprocess_start st ∧
  preprocess_end (close_top clock top rest st) =
    match preprocess_end st !! top with
    | Some _ => preprocess_end st
    | None => <[top := clock (ticks st)]> (preprocess_end st)
    end ∧
  last_function_parsed_ts (close_top clock top rest st) = add64 (clock (ticks st)) 3.
Proof.
  unfold close_top, map_contains. cbn.
  by destruct (preprocess_end st !! top).
Qed.

(** X7. First seen, first closed.  Entering a file that already has a
    start and an end time and leaving it again leaves the state as it
    was but for three things: two clock readings are taken, the boundary
    moves to three nanoseconds after the reading taken on leaving, and,
    when a reader is given and both [realpath] calls succeed, the file
    is registered with the reader's directory.  The two maps, the stack
    and every stored event are as before. *)
Theorem reinclusion_keeps_first_times
    (file_name : string) (pfile : option cpp_reader) (st st1 : State) :
  file_name ≠ "<command-line>"%string →
  is_Some (preprocess_start st !! file_name) →
  is_Some (preprocess_end st !! file_name) →
  start_preprocess_file clock realpath (Some file_name) pfile st = Some st1 →
  ∃ n,
    end_preprocess_file clock st1 =
      Some (set_last_function_parsed_ts (add64 (clock (S (ticks st))) 3)
              (set_normalizer n (set_ticks (S (S (ticks st))) st))) ∧
    match pfile with
    | None => n = normalizer st
    | Some reader =>
        match realpath (dir_name reader), realpath file_name with
        | Some real_dir_name, Some real_file_name =>
            register_include_location real_file_name real_dir_name (normalizer st) = Some n
        | _, _ => n = normalizer st
        end
    end.
Proof.
  intros Hcmd Hstart Hend Hst1.
  apply map_contains_true in Hstart as Hs. apply map_contains_true in Hend as He.
  assert (Hleave : ∀ n,
            end_preprocess_file clock
              (set_normalizer n
                 (set_preprocessing_stack (file_name :: preprocessing_stack st)
                    (set_ticks (S (ticks st)) st))) =
            Some (set_last_function_parsed_ts (add64 (clock (S (ticks st))) 3)
                    (set_normalizer n (set_ticks (S (S (ticks st))) st)))).
  { intros n.
    rewrite (end_preprocess_file_unfold clock file_name (preprocessing_stack st))
      by reflexivity.
    unfold close_top. cbn. rewrite He. by destruct st. }
  unfold start_preprocess_file, ns_from_start in Hst1.
  rewrite (proj2 (String.eqb_neq _ _) Hcmd) in Hst1. cbn in Hst1.
  rewrite Hs, He in Hst1. cbn in Hst1. rewrite Hs in Hst1. cbn in Hst1.
  destruct pfile as [reader|].
  - destruct (realpath (dir_name reader)) as [real_dir_name|];
      [destruct (realpath file_name) as [real_file_name|]|].
    + destruct (register_include_location real_file_name real_dir_name (normalizer st))
        as [n|] eqn:Hn; [|done].
      injection Hst1 as <-. exists n. split; [apply Hleave | done].
    + injection Hst1 as <-. exists (normalizer st).
      split; [|done]. rewrite <- Hleave. by destruct st.
    + injection Hst1 as <-. exists (normalizer st).
      split; [|done]. rewrite <- Hleave. by destruct st.
  - injection Hst1 as <-. exists (normalizer st).
    split; [|done]. rewrite <- Hleave. by destruct st.
Qed.

End Inclusions.

Lemma reinclusion_keeps_first_times_witness :
  ∃ st st1 st2,
    run clock_1ns realpath_id run_with_closed_main initial_state = Some st ∧
    start_preprocess_file clock_1ns realpath_id (Some "/src/main.cpp"%string)
      (Some (mkCppReader "/src")) st = Some st1 ∧
    end_preprocess_file clock_1ns st1 = Some st2 ∧
    preprocess_start st2 = preprocess_start st ∧
    preprocess_end st2 = preprocess_end st ∧
    preprocessing_stack st2 = preprocessing_stack st ∧
    resolve (normalizer st) "/src/main.cpp" = "/src/main.cpp"%string ∧
    resolve (normalizer st2) "/src/main.cpp" = "main.cpp"%string.
Proof.
  destruct (run clock_1ns realpath_id run_with_closed_main initial_state)
    as [st|] eqn:Hrun; [|vm_compute in Hrun; discriminate].
  destruct (start_preprocess_file clock_1ns realpath_id (Some "/src/main.cpp"%string)
              (Some (mkCppReader "/src")) st) as [st1|] eqn:Hst1.
  - destruct (reinclusion_keeps_first_times clock_1ns realpath_id "/src/main.cpp"
                (Some (mkCppReader "/src")) st st1) as (n & Hleave & Hn);
      [discriminate | | | exact Hst1 |].
    + vm_compute in Hrun. injection Hrun as <-. by eexists.
    + vm_compute in Hrun. injection Hrun as <-. by eexists.
    + eexists st, st1, _. split; [done|]. split; [done|]. split; [exact Hleave|].
      vm_compute in Hrun. injection Hrun as <-.
      vm_compute in Hn. injection Hn as <-.
      by repeat split.
  - vm_compute in Hrun. injection Hrun as <-. vm_compute in Hst1. discriminate.
Defined.

Section ForcedClose.

Variable clock : nat → Z.
Variable realpath : string → option string.

Lemma finish_preprocessing_loop_empty (fuel : nat) (st : State) :
  preprocessing_stack st = [] → finish_preprocessing_loop clock fuel st = Some st.
Proof. intros Hempty. destruct fuel; cbn; by rewrite Hempty. Qed.

Lemma finish_preprocessing_loop_summary (fuel : nat) (st : State) :
  (length (preprocessing_stack st) ≤ fuel)%nat →
  ∃ st',
    finish_preprocessing_loop clock fuel st = Some st' ∧
    preprocessing_stack st' = [] ∧
    ticks st' = (ticks st + 2 * length (preprocessing_stack st))%nat ∧
    preprocess_start st' = preprocess_start st ∧
    (∀ k e, preprocess_end st !! k = Some e → preprocess_end st' !! k = Some e) ∧
    (∀ k, is_Some (preprocess_end st' !! k) →
          is_Some (preprocess_end st !! k) ∨ k ∈ preprocessing_stack st) ∧
    (∀ i k, preprocessing_stack st !! i = Some k →
            preprocess_end st !! k = None →
            (∀ j, (j < i)%nat → preprocessing_stack st !! j ≠ Some k) →
            preprocess_end st' !! k = Some (clock (ticks st + 2 * i)%nat)) ∧
    (preprocessing_stack st ≠ [] →
     last_function_parsed_ts st' = clock (ticks st' - 1)%nat).
Proof.
  revert st. induction fuel as [|fuel IH]; intros st Hfuel.
  - destruct (preprocessing_stack st) as [|top rest] eqn:Hstack; [|simpl in Hfuel; lia].
    exists st. cbn. rewrite Hstack.
    repeat split; try done; try (cbn; lia); eauto;
      try (intros i k Hk; by rewrite lookup_nil in Hk).
  - destruct (preprocessing_stack st) as [|top rest] eqn:Hstack.
    { exists st. cbn. rewrite Hstack.
      repeat split; try done; try (cbn; lia); eauto;
        try (intros i k Hk; by rewrite lookup_nil in Hk). }
    cbn [finish_preprocessing_loop]. rewrite Hstack.
    rewrite (end_preprocess_file_unfold clock top rest st Hstack).
    unfold ns_from_start. fold (read_boundary clock (close_top clock top rest st)).
    set (st1 := read_boundary clock (close_top clock top rest st)).
    destruct (close_top_fields clock top rest st) as (Ht & Hs & He & _).
    assert (Hstack1 : preprocessing_stack st1 = rest) by apply close_top_stack.
    assert (Hticks1 : ticks st1 = S (S (ticks st)))
      by (unfold st1, read_boundary; fields; by rewrite Ht).
    assert (Hstart1 : preprocess_start st1 = preprocess_start st) by exact Hs.
    assert (Hend1 : preprocess_end st1 =
                    match preprocess_end st !! top with
                    | Some _ => preprocess_end st
                    | None => <[top := clock (ticks st)]> (preprocess_end st)
                    end) by exact He.
    assert (Hlast1 : last_function_parsed_ts st1 = clock (S (ticks st)))
      by (unfold st1, read_boundary; fields; by rewrite Ht).
    destruct (IH st1) as (st' & Hrun & Hempty & Hticks & Hstart & Hkept & Hfrom & Hat & Hlast).
    { rewrite Hstack1. simpl in Hfuel. lia. }
    exists st'. split; [exact Hrun|]. split; [exact Hempty|].
    rewrite Hstack1, Hticks1 in *. cbn [length].
    assert (Hkeep1 : ∀ k e, preprocess_end st !! k = Some e →
                            preprocess_end st1 !! k = Some e).
    { intros k e Hk. rewrite Hend1.
      destruct (preprocess_end st !! top) eqn:Htop; [done|].
      rewrite lookup_insert_ne; [done | congruence]. }
    split; [lia|]. split; [congruence|]. split; [by eauto|]. split; [|split].
    + intros k [Hk|Hk]%Hfrom.
      * rewrite Hend1 in Hk. destruct (preprocess_end st !! top) eqn:Htop; [by left|].
        destruct (decide (k = top)) as [->|Hne]; [right; apply list_elem_of_here|].
        rewrite lookup_insert_ne in Hk by done. by left.
      * right. by apply list_elem_of_further.
    + intros [|i] k Hk Hopen Hfirst.
      * injection Hk as ->. apply Hkept. rewrite Hend1, Hopen, lookup_insert_eq.
        f_equal. f_equal. lia.
      * cbn in Hk.
        assert (Hne : k ≠ top).
        { intros ->. by apply (Hfirst 0%nat); [lia|]. }
        replace (ticks st + 2 * S i)%nat with (S (S (ticks st)) + 2 * i)%nat by lia.
        apply Hat; [done | |].
        -- rewrite Hend1. destruct (preprocess_end st !! top); [done|].
           by rewrite lookup_insert_ne.
        -- intros j Hj. apply (Hfirst (S j)). lia.
    + intros _. destruct rest as [|next rest'].
      * rewrite finish_preprocessing_loop_empty in Hrun by done.
        injection Hrun as <-. rewrite Hlast1, Hticks. f_equal. cbn. lia.
      * by apply Hlast.
Qed.

(** X8. The forced close always returns.  It empties the stack, takes two
    clock readings per file on it, keeps every start time and every end
    time already recorded, and records ends for stacked files only: a
    file not closed before gets the reading taken at its first position
    from the top, two readings per position.  When the stack was not
    empty the boundary is left at the last reading, without the three
    nanoseconds a single leave adds. *)
Theorem forced_close_summary (st : State) :
  ∃ st',
    finish_preprocessing_stage clock st = Some st' ∧
    preprocessing_stack st' = [] ∧
    ticks st' = (ticks st + 2 * length (preprocessing_stack st))%nat ∧
    preprocess_start st' = preprocess_start st ∧
    (∀ k e, preprocess_end st !! k = Some e → preprocess_end st' !! k = Some e) ∧
    (∀ k, is_Some (preprocess_end st' !! k) →
          is_Some (preprocess_end st !! k) ∨ k ∈ preprocessing_stack st) ∧
    (∀ i k, preprocessing_stack st !! i = Some k →
            preprocess_end st !! k = None →
            (∀ j, (j < i)%nat → preprocessing_stack st !! j ≠ Some k) →
            preprocess_end st' !! k = Some (clock (ticks st + 2 * i)%nat)) ∧
    (preprocessing_stack st ≠ [] →
     last_function_parsed_ts st' = clock (ticks st' - 1)%nat).
Proof. by apply finish_preprocessing_loop_summary. Qed.

(** X9. [cb_file_change] filters "<command-line>" on entry only.  An
    LC_ENTER for it pushes nothing, and the LC_LEAVE that follows pops
    whatever is on top: the pair closes the enclosing file, and has no
    defined result when no file is open ([top] of an empty stack). *)
Theorem filtered_enter_is_popped_anyway
    (pfile1 pfile2 : option cpp_reader) (name : string) (st : State) :
  let pair :=
    [cb_file_change pfile1 (Some (mkLineMap (Some "<command-line>"%string) LC_ENTER));
     cb_file_change pfile2 (Some (mkLineMap (Some name) LC_LEAVE))] in
  match preprocessing_stack st with
  | [] => run clock realpath pair st = None
  | top :: rest =>
      ∃ st', run clock realpath pair st = Some st' ∧
             preprocessing_stack st' = rest ∧
             preprocess_start st' = preprocess_start st ∧
             is_Some (preprocess_end st' !! top)
  end.
Proof.
  cbv zeta. cbn [run callback map_file_name map_reason].
  rewrite (start_preprocess_file_skipped clock realpath _ pfile1 st) by by right.
  destruct (preprocessing_stack st) as [|top rest] eqn:Hstack.
  - unfold end_preprocess_file, ns_from_start. cbn. by rewrite Hstack.
  - rewrite (end_preprocess_file_unfold clock top rest (set_ticks (S (ticks st)) st) Hstack).
    eexists. split; [reflexivity|].
    destruct (close_top_fields clock top rest (set_ticks (S (ticks st)) st))
      as (_ & Hs & He & _).
    split; [apply close_top_stack|]. split; [exact Hs|].
    rewrite He. cbn. destruct (preprocess_end st !! top) eqn:Htop; [by rewrite Htop|].
    rewrite lookup_insert_eq. eauto.
Qed.

(** *** The stack holds an open file once *)

Lemma occurrences_cons (f k : string) (stack : list string) :
  occurrences f (k :: stack) =
    if decide (k = f) then S (occurrences f stack) else occurrences f stack.
Proof.
  unfold occurrences. destruct (decide (k = f)) as [->|Hne].
  - by rewrite filter_cons_True.
  - by rewrite filter_cons_False.
Qed.

Lemma occurrences_absent (f : string) (stack : list string) :
  f ∉ stack → occurrences f stack = 0%nat.
Proof.
  induction stack as [|k stack IH]; [done|].
  intros [Hne Hin]%not_elem_of_cons. rewrite occurrences_cons.
  rewrite decide_False by done. by apply IH.
Qed.

Lemma occurrences_present (f : string) (stack : list string) :
  f ∈ stack → (1 ≤ occurrences f stack)%nat.
Proof.
  induction stack as [|k stack IH]; [by intros ?%elem_of_nil|].
  rewrite occurrences_cons. intros [->|Hin]%elem_of_cons.
  - rewrite decide_True by done. lia.
  - destruct (decide (k = f)); [lia | by apply IH].
Qed.

Lemma push_inclusion_fields (key : string) (st : State) :
  preprocess_start (push_inclusion clock key st) =
    match preprocess_start st !! key with
    | Some _ => preprocess_start st
    | None => <[key := clock (ticks st)]> (preprocess_start st)
    end ∧
  preprocess_end (push_inclusion clock key st) = preprocess_end st ∧
  preprocessing_stack (push_inclusion clock key st) = key :: preprocessing_stack st.
Proof.
  unfold push_inclusion, map_contains. cbn.
  by destruct (preprocess_start st !! key).
Qed.

Lemma push_inclusion_stack_discipline (file_name : string) (st : State) :
  stack_discipline st →
  stack_discipline (push_inclusion clock (inclusion_key st file_name) st).
Proof.
  intros (Hstack & Hends & Honce).
  set (key := inclusion_key st file_name).
  destruct (push_inclusion_fields key st) as (Hs & He & Hk).
  assert (Hold : ∀ k, is_Some (preprocess_start st !! k) →
                      is_Some (preprocess_start (push_inclusion clock key st) !! k)).
  { intros k Hk0. rewrite Hs. destruct (preprocess_start st !! key) eqn:Hkey; [done|].
    destruct (decide (key = k)) as [->|Hne];
      [rewrite lookup_insert_eq | rewrite lookup_insert_ne by done]; eauto. }
  assert (Hnew : is_Some (preprocess_start (push_inclusion clock key st) !! key)).
  { rewrite Hs. destruct (preprocess_start st !! key) eqn:Hkey.
    - rewrite Hkey. eauto.
    - rewrite lookup_insert_eq. eauto. }
  unfold stack_discipline. rewrite He, Hk.
  split; [|split].
  - intros k [->|Hin]%elem_of_cons; [exact Hnew | by apply Hold, Hstack].
  - intros k Hk0. by apply Hold, Hends.
  - intros f Hf Hopen. rewrite occurrences_cons.
    destruct (decide (key = f)) as [Hkey|Hne]; [|by apply Honce].
    subst key. unfold inclusion_key, is_circular in Hkey.
    destruct (map_contains (preprocess_start st) file_name) eqn:Hstarted; cbn in Hkey.
    + destruct (map_contains (preprocess_end st) file_name) eqn:Hended; cbn in Hkey;
        [|congruence].
      subst f. apply map_contains_true in Hended as [e Hended]. congruence.
    + subst f. apply map_contains_false in Hstarted.
      rewrite occurrences_absent; [lia|].
      intros [s Hsome]%Hstack. congruence.
Qed.

Lemma close_top_stack_discipline (top : string) (rest : list string) (st : State) :
  preprocessing_stack st = top :: rest →
  stack_discipline st → stack_discipline (close_top clock top rest st).
Proof.
  intros Htop (Hstack & Hends & Honce).
  destruct (close_top_fields clock top rest st) as (_ & Hs & He & _).
  unfold stack_discipline. rewrite Hs, He, close_top_stack.
  split; [|split].
  - intros k Hin. apply Hstack. rewrite Htop. by apply list_elem_of_further.
  - intros k Hk. destruct (preprocess_end st !! top) eqn:Hclosed; [by apply Hends|].
    destruct (decide (k = top)) as [->|Hne].
    + apply Hstack. rewrite Htop. apply list_elem_of_here.
    + rewrite lookup_insert_ne in Hk by done. by apply Hends.
  - intros f Hf Hopen.
    assert (Hopen0 : preprocess_end st !! f = None).
    { destruct (preprocess_end st !! top) eqn:Hclosed; [done|].
      destruct (decide (f = top)) as [->|Hne]; [by rewrite lookup_insert_eq in Hopen|].
      by rewrite lookup_insert_ne in Hopen. }
    specialize (Honce f Hf Hopen0). rewrite Htop, occurrences_cons in Honce.
    destruct (decide (top = f)); lia.
Qed.

Lemma callback_stack_discipline (cb : Callback) (st st' : State) :
  stack_discipline st → callback clock realpath cb st = Some st' → stack_discipline st'.
Proof.
  intros Hinv [->|[->|[(f & n & _ & ->)|[(top & rest & Hstack & ->)|
               [Hfinish|[(info & _ & ->)|(pass & _ & ->)]]]]]]%callback_cases; try done.
  - by apply (push_inclusion_stack_discipline f) in Hinv.
  - by apply close_top_stack_discipline.
  - destruct (finish_preprocessing_stage_total clock stack_discipline st)
      as (st2 & Hst2 & Hinv2 & _);
      [intros ? ? ?; apply close_top_stack_discipline | done | done |].
    congruence.
  - by destruct (end_parse_function_unfold clock info st) as (? & ? & ->).
  - by rewrite start_opt_pass_unfold.
Qed.

(** X10. During any run, a file with a start time has an end time or is
    on the stack, and a file other than the sentinel that is not closed
    yet is on the stack exactly once; end times exist only for files with
    a start time. *)
Theorem open_files_are_stacked_once (cbs : list Callback) (st : State) :
  run clock realpath cbs initial_state = Some st →
  (∀ f, f ≠ CIRCULAR_POISON_VALUE →
        is_Some (preprocess_start st !! f) →
        preprocess_end st !! f = None →
        occurrences f (preprocessing_stack st) = 1%nat) ∧
  (∀ k, is_Some (preprocess_end st !! k) → is_Some (preprocess_start st !! k)).
Proof.
  intros Hrun.
  assert (Hinv : stack_discipline st).
  { revert Hrun.
    assert (Hinit : stack_discipline initial_state).
    { split; [|split].
      - by intros k ?%elem_of_nil.
      - intros k [e He].
        change (preprocess_end initial_state) with (∅ : gmap string Z) in He.
        by rewrite lookup_empty in He.
      - intros f _ _. cbn. lia. }
    revert Hinit. generalize initial_state.
    induction cbs as [|cb cbs IH]; intros s Hs; cbn.
    - by intros [= <-].
    - destruct (callback clock realpath cb s) as [s1|] eqn:Hcb; [|done].
      apply IH. by eapply callback_stack_discipline. }
  destruct Hinv as (_ & Hends & Honce). split; [|exact Hends].
  intros f Hf Hstarted Hopen.
  destruct (run_writable clock realpath cbs st Hrun) as [Hacc _].
  destruct (Hacc f Hstarted) as [[e He]|Hin]; [congruence|].
  pose proof (occurrences_present f _ Hin). pose proof (Honce f Hf Hopen). lia.
Qed.

End ForcedClose.

Lemma open_files_are_stacked_once_witness :
  ∃ st, run clock_1ns realpath_id run_with_open_inclusions initial_state = Some st ∧
        occurrences "a.h" (preprocessing_stack st) = 1%nat.
Proof.
  destruct (run clock_1ns realpath_id run_with_open_inclusions initial_state)
    as [st|] eqn:Hrun; [|vm_compute in Hrun; discriminate].
  exists st. split; [done|].
  apply (proj1 (open_files_are_stacked_once clock_1ns realpath_id _ st Hrun));
    [discriminate | |];
    vm_compute in Hrun; injection Hrun as <-; [by eexists | reflexivity].
Defined.

(** ** Emission: order, pairing, numbering *)

Lemma add_events_app (pid : Z) (l1 l2 : list TraceEvent) (st : State) :
  add_events pid (l1 ++ l2) st = add_events pid l2 (add_events pid l1 st).
Proof. unfold add_events. apply fold_left_app. Qed.

Lemma write_functions_loop_unfold (pid : Z) (events : list FunctionEvent) (st : State) :
  write_functions_loop pid events st =
    add_events pid (function_trace_event (normalizer st) <$> events) st.
Proof.
  revert st. induction events as [|event events IH]; intros st; [done|].
  cbn [write_functions_loop fmap list_fmap].
  rewrite normalized_file_name_unfold, set_normalizer_same, IH, add_events_cons.
  fold (function_trace_event (normalizer st) event).
  by destruct (add_event_emitted pid (function_trace_event (normalizer st) event) st)
    as (u & o & ->).
Qed.

Lemma write_scopes_loop_unfold (pid : Z) (events : list ScopeEvent) (st : State) :
  write_scopes_loop pid events st = add_events pid (scope_trace_event <$> events) st.
Proof.
  revert st. induction events as [|event events IH]; intros st; [done|].
  cbn [write_scopes_loop fmap list_fmap]. by rewrite IH, add_events_cons.
Qed.

Lemma inclusion_trace_events_emitted (st st' : State) (entries : list (string * Z)) :
  emitted_into st st' →
  omap (inclusion_trace_event st') entries = omap (inclusion_trace_event st) entries.
Proof.
  intros Hemit. induction entries as [|entry entries IH]; [done|].
  cbn [omap list_omap]. by rewrite IH, (inclusion_trace_event_emitted _ _ _ Hemit).
Qed.

Section Emission.

Variable clock : nat → Z.
Variable realpath : string → option string.
Variable pid : Z.

Lemma close_top_add_event (top : string) (rest : list string)
    (event : TraceEvent) (st : State) :
  close_top clock top rest (add_event pid event st) =
    add_event pid event (close_top clock top rest st).
Proof.
  unfold add_event. destruct (_ <? _); [done|].
  unfold close_top. cbn. by destruct (map_contains (preprocess_end st) top).
Qed.

Lemma read_boundary_add_event (event : TraceEvent) (st : State) :
  read_boundary clock (add_event pid event st) =
    add_event pid event (read_boundary clock st).
Proof. unfold add_event. by destruct (_ <? _). Qed.

Lemma finish_preprocessing_loop_add_event (fuel : nat) (event : TraceEvent) (st : State) :
  finish_preprocessing_loop clock fuel (add_event pid event st) =
    add_event pid event <$> finish_preprocessing_loop clock fuel st.
Proof.
  revert st. induction fuel as [|fuel IH]; intros st;
    (assert (Hstack : preprocessing_stack (add_event pid event st) = preprocessing_stack st)
       by (by destruct (add_event_emitted pid event st) as (u & o & ->)));
    cbn [finish_preprocessing_loop]; rewrite Hstack;
    destruct (preprocessing_stack st) as [|top rest] eqn:Hst; try done.
  assert (Hstack' : preprocessing_stack (add_event pid event st) = top :: rest)
    by congruence.
  rewrite (end_preprocess_file_unfold clock top rest _ Hstack').
  rewrite (end_preprocess_file_unfold clock top rest st Hst).
  unfold ns_from_start.
  fold (read_boundary clock (close_top clock top rest (add_event pid event st))).
  fold (read_boundary clock (close_top clock top rest st)).
  by rewrite close_top_add_event, read_boundary_add_event, IH.
Qed.

(** Once the open inclusions are closed, the loops of
    [write_all_events] hand [trace_events] to [add_event], one event
    after the other, whatever the order [files] in which the loop of
    [write_preprocessing_events] visits [preprocess_start]. *)
Lemma write_loops_in_order (now : Z) (files : list (string * Z)) (closed : State) :
  writable closed →
  preprocessing_stack closed = [] →
  (∀ entry, entry ∈ files → is_Some (preprocess_start closed !! entry.1)) →
  ∃ st1 st2,
    write_preprocessing_loop pid files (add_event pid (tu_event now) closed) = Some st1 ∧
    write_opt_pass_events pid st1 = Some st2 ∧
    write_all_scopes pid (write_all_functions pid st2) =
      add_events pid (trace_events now files closed) closed.
Proof.
  intros [Hacc Hpasses] Hempty Hfiles.
  set (tu := tu_event now).
  pose proof (add_event_emitted pid tu closed) as Htu.
  set (incl := omap (inclusion_trace_event (add_event pid tu closed)) files).
  set (st1 := add_events pid incl (add_event pid tu closed)).
  assert (H1 : emitted_into closed st1).
  { eapply emitted_into_trans; [exact Htu | apply add_events_emitted]. }
  set (stages := omap stage_trace_event (pass_events st1)).
  set (st2 := add_events pid stages st1).
  assert (H2 : emitted_into closed st2).
  { eapply emitted_into_trans; [exact H1 | apply add_events_emitted]. }
  exists st1, st2. split; [|split].
  - apply write_preprocessing_loop_unfold. intros entry Hin _.
    assert (Hend : preprocess_end (add_event pid tu closed) = preprocess_end closed)
      by (by destruct Htu as (u & o & ->)).
    rewrite Hend. destruct (Hacc entry.1 (Hfiles entry Hin)) as [Hclosed|Hopen]; [done|].
    rewrite Hempty in Hopen. by apply elem_of_nil in Hopen.
  - unfold write_opt_pass_events. apply write_opt_pass_loop_unfold.
    assert (Hpe : pass_events st1 = pass_events closed)
      by (by destruct H1 as (u & o & ->)).
    by rewrite Hpe.
  - unfold write_all_scopes, write_all_functions.
    rewrite write_scopes_loop_unfold, write_functions_loop_unfold.
    assert (H3 : emitted_into closed
                   (add_events pid (function_trace_event (normalizer st2)
                                      <$> function_events st2) st2)).
    { eapply emitted_into_trans; [exact H2 | apply add_events_emitted]. }
    assert (Hincl : incl = omap (inclusion_trace_event closed) files).
    { subst incl. apply inclusion_trace_events_emitted. exact Htu. }
    assert (Hstages : stages = omap stage_trace_event (pass_events closed)).
    { subst stages. by destruct H1 as (u & o & ->). }
    assert (Hfuns : function_trace_event (normalizer st2) <$> function_events st2 =
                    function_trace_event (normalizer closed) <$> function_events closed).
    { by destruct H2 as (u & o & ->). }
    assert (Hscopes : scope_events
                        (add_events pid (function_trace_event (normalizer st2)
                                           <$> function_events st2) st2)
                      = scope_events closed).
    { by destruct H3 as (u & o & ->). }
    rewrite Hscopes, Hfuns. subst st2 st1. rewrite Hstages, Hincl.
    unfold trace_events. rewrite add_events_cons, !add_events_app. reflexivity.
Qed.

(** From a state in which the files on the stack can be closed,
    [write_all_events] returns: it closes them and runs its loops from
    the state the forced close leaves. *)
Lemma write_all_events_in_order (st : State) :
  writable st →
  ∃ closed,
    finish_preprocessing_stage clock (set_ticks (S (ticks st)) st) = Some closed ∧
    writable closed ∧
    preprocessing_stack closed = [] ∧
    cb_plugin_finish clock pid st =
      Some (add_events pid
              (trace_events (clock (ticks st)) (map_to_list (preprocess_start closed))
                 closed) closed).
Proof.
  intros Hwritable.
  destruct (finish_preprocessing_stage_total clock writable (set_ticks (S (ticks st)) st))
    as (closed & Hclosed & Hwritable' & Hempty).
  { apply (pres_close _ _ (writable_preserved clock)). }
  { apply (pres_read _ _ (writable_preserved clock)). }
  { by apply (pres_tick _ _ (writable_preserved clock)). }
  exists closed. split; [exact Hclosed|]. split; [exact Hwritable'|].
  split; [exact Hempty|].
  set (tu := tu_event (clock (ticks st))).
  assert (Hfinish : finish_preprocessing_stage clock
                      (add_event pid tu (set_ticks (S (ticks st)) st))
                    = Some (add_event pid tu closed)).
  { unfold finish_preprocessing_stage in *.
    assert (Hlen : preprocessing_stack (add_event pid tu (set_ticks (S (ticks st)) st))
                   = preprocessing_stack (set_ticks (S (ticks st)) st)).
    { by destruct (add_event_emitted pid tu (set_ticks (S (ticks st)) st))
        as (u & o & ->). }
    by rewrite Hlen, finish_preprocessing_loop_add_event, Hclosed. }
  destruct (write_loops_in_order (clock (ticks st)) (map_to_list (preprocess_start closed))
              closed Hwritable' Hempty) as (st1 & st2 & H1 & H2 & H3).
  { intros [k v] Hin. apply elem_of_map_to_list in Hin. by eexists. }
  unfold cb_plugin_finish, write_all_events, ns_from_start, write_preprocessing_events.
  fold (tu_event (clock (ticks st))). fold tu. rewrite Hfinish.
  assert (Hstart : preprocess_start (add_event pid tu closed) = preprocess_start closed).
  { by destruct (add_event_emitted pid tu closed) as (u & o & ->). }
  fold tu in H1. by rewrite Hstart, H1, H2, H3.
Qed.

(** X11. What [write_all_events] writes, and in which order.  After any
    run it returns: it takes the reading for the translation unit,
    closes the open inclusions, and calls [add_event] on the translation
    unit, then on every file of [preprocess_start] but the sentinel, in
    the order in which the map is visited, then on every stored pass,
    every function and every scope, each in stored order.  This holds
    for every order [files] in which the map can be visited; which one
    the program takes is not determined. *)
Theorem emission_order (cbs : list Callback) (st : State) :
  run clock realpath cbs initial_state = Some st →
  ∃ closed,
    finish_preprocessing_stage clock (set_ticks (S (ticks st)) st) = Some closed ∧
    preprocessing_stack closed = [] ∧
    (∀ files, files ≡ₚ map_to_list (preprocess_start closed) →
       ∃ st1 st2,
         write_preprocessing_loop pid files
           (add_event pid (tu_event (clock (ticks st))) closed) = Some st1 ∧
         write_opt_pass_events pid st1 = Some st2 ∧
         write_all_scopes pid (write_all_functions pid st2) =
           add_events pid (trace_events (clock (ticks st)) files closed) closed) ∧
    ∃ files,
      files ≡ₚ map_to_list (preprocess_start closed) ∧
      cb_plugin_finish clock pid st =
        Some (add_events pid (trace_events (clock (ticks st)) files closed) closed).
Proof.
  intros Hrun.
  destruct (write_all_events_in_order st (run_writable clock realpath cbs st Hrun))
    as (closed & Hclosed & Hwritable & Hempty & Hwrite).
  exists closed. split; [exact Hclosed|]. split; [exact Hempty|]. split.
  - intros files Hfiles. apply write_loops_in_order; [done..|].
    intros [k v] Hin. rewrite Hfiles in Hin.
    apply elem_of_map_to_list in Hin. by eexists.
  - by exists (map_to_list (preprocess_start closed)).
Qed.

End Emission.

Lemma emission_order_witness :
  ∃ st closed files,
    run clock_5ms realpath_id run_with_everything initial_state = Some st ∧
    finish_preprocessing_stage clock_5ms (set_ticks (S (ticks st)) st) = Some closed ∧
    files ≡ₚ map_to_list (preprocess_start closed) ∧
    cb_plugin_finish clock_5ms 42 st =
      Some (add_events 42 (trace_events (clock_5ms (ticks st)) files closed) closed) ∧
    te_category <$> trace_events (clock_5ms (ticks st)) files closed =
      [TU; PREPROCESS; PREPROCESS; GIMPLE_PASS; FUNCTION; NAMESPACE].
Proof.
  destruct (run clock_5ms realpath_id run_with_everything initial_state)
    as [st|] eqn:Hrun; [|vm_compute in Hrun; discriminate].
  destruct (emission_order clock_5ms realpath_id 42 run_with_everything st Hrun)
    as (closed & Hclosed & _ & _ & files & Hfiles & Hwrite).
  exists st, closed, files. split; [done|]. split; [exact Hclosed|].
  split; [exact Hfiles|]. split; [exact Hwrite|].
  vm_compute in Hrun. injection Hrun as <-.
  vm_compute in Hclosed. injection Hclosed as <-.
  vm_compute in Hfiles. symmetry in Hfiles.
  apply Permutation.Permutation_length_2_inv in Hfiles as [->| ->]; reflexivity.
Defined.

(** *** Stored timestamps stay in range *)

Lemma add_events_paired (pid : Z) (events : list TraceEvent) (st : State) :
  Forall (λ event, in_i64 (duration event)) events →
  0 ≤ UID st →
  UID st + Z.of_nat (length events) < 2 ^ 31 →
  let kept := filter (λ event, 1000000 ≤ duration event) events in
  output_events_list (add_events pid events st) =
    output_events_list st ++ paired_records pid (UID st) kept ∧
  UID (add_events pid events st) = UID st + Z.of_nat (length kept).
Proof.
  intros Hrange. revert st. cbv zeta.
  induction Hrange as [|event events Hev Hevs IH]; intros st Hlow Hhigh.
  - rewrite filter_nil. cbn. rewrite app_nil_r. split; [done | lia].
  - rewrite add_events_cons. cbn [length] in Hhigh.
    destruct (decide (1000000 ≤ duration event)) as [Hlong|Hshort].
    + rewrite filter_cons_True by done.
      rewrite (add_event_long pid event st Hev Hlong).
      set (st1 := set_output_events_list _ _).
      assert (Huid1 : UID st1 = UID st + 1).
      { subst st1. fields. apply wrap32_small. lia. }
      destruct (IH st1) as [Hout Huid]; [lia | lia |].
      rewrite Hout, Huid, Huid1. subst st1. fields. cbn [length paired_records].
      split; [by rewrite <- app_assoc | lia].
    + rewrite filter_cons_False by done.
      rewrite (add_event_short pid event st Hev) by (unfold MINIMUM_EVENT_LENGTH_NS; lia).
      apply IH; lia.
Qed.

Lemma span_stamps_duration (span : TimeSpan) :
  span_stamps span → in_i64 (ts_end span - ts_start span).
Proof. unfold span_stamps, stamp, in_i64. lia. Qed.

Section Stamps.

Variable clock : nat → Z.
Variable realpath : string → option string.
Variable pid : Z.
Hypothesis clock_bounded : clock_in_range clock.

Lemma reading_stamp (i : nat) : stamp (clock i).
Proof. pose proof (clock_bounded i). unfold stamp. lia. Qed.

Lemma insert_stamps (m : gmap string Z) (key : string) (i : nat) :
  (∀ k v, m !! k = Some v → stamp v) →
  ∀ k v, <[key := clock i]> m !! k = Some v → stamp v.
Proof.
  intros Hm k v [[_ <-]|[_ Hk]]%lookup_insert_Some; [apply reading_stamp | by eapply Hm].
Qed.

Lemma stamps_in_range_preserved : preserved clock stamps_in_range.
Proof.
  constructor.
  - by intros ?.
  - intros st key n (Hs & He & Hl & Hlp & Hp & Hf & Hsc).
    destruct (push_inclusion_fields clock key st) as (Es & Ee & _).
    unfold stamps_in_range. fields. rewrite Es, Ee.
    assert (Hrest : last_function_parsed_ts (push_inclusion clock key st)
                      = last_function_parsed_ts st ∧
                    last_pass (push_inclusion clock key st) = last_pass st ∧
                    pass_events (push_inclusion clock key st) = pass_events st ∧
                    function_events (push_inclusion clock key st) = function_events st ∧
                    scope_events (push_inclusion clock key st) = scope_events st).
    { unfold push_inclusion. cbn. by split_conditional. }
    destruct Hrest as (-> & -> & -> & -> & ->).
    split; [|done].
    destruct (preprocess_start st !! key); [done | by apply insert_stamps].
  - intros st top rest _ (Hs & He & Hl & Hlp & Hp & Hf & Hsc).
    destruct (close_top_fields clock top rest st) as (_ & Es & Ee & El).
    pose proof (clock_bounded (ticks st)) as Hnow.
    unfold stamps_in_range. rewrite Es, Ee, El.
    assert (Hrest : last_pass (close_top clock top rest st) = last_pass st ∧
                    pass_events (close_top clock top rest st) = pass_events st ∧
                    function_events (close_top clock top rest st) = function_events st ∧
                    scope_events (close_top clock top rest st) = scope_events st).
    { unfold close_top. cbn. by split_conditional. }
    destruct Hrest as (-> & -> & -> & ->).
    rewrite add64_small by (unfold in_i64; lia).
    split; [done|]. split; [|split; [lia | done]].
    destruct (preprocess_end st !! top); [done | by apply insert_stamps].
  - intros st (Hs & He & Hl & Hlp & Hp & Hf & Hsc).
    pose proof (clock_bounded (ticks st)) as Hnow.
    unfold stamps_in_range, read_boundary. fields.
    split; [done|]. split; [done|]. split; [lia | done].
  - intros st info (Hs & He & Hl & Hlp & Hp & Hf & Hsc).
    pose proof (clock_bounded (ticks st)) as Hnow.
    assert (Hstart : add64 (last_function_parsed_ts st) 3 = last_function_parsed_ts st + 3)
      by (apply add64_small; unfold in_i64; lia).
    assert (Hpad : add64 (clock (ticks st)) 1 = clock (ticks st) + 1)
      by (apply add64_small; unfold in_i64; lia).
    assert (Hscopes : Forall (λ e, span_stamps (se_ts e))
                        (scope_events (end_parse_function clock info st))).
    { destruct (ff_scope_name info) as [name|] eqn:Hname.
      - destruct (extends_last_scope st name) eqn:Hextends.
        + apply extends_last_scope_true in Hextends as (earlier & back & Hsc0 & Hdid & Hback).
          destruct (end_parse_function_same_scope clock info st name earlier back
                      Hname Hsc0 Hdid Hback) as [-> _].
          rewrite Hsc0 in Hsc. apply Forall_app in Hsc as [Hearlier Hlast].
          apply Forall_app. split; [done|]. apply Forall_singleton.
          apply Forall_singleton in Hlast as [Hb _]. rewrite Hpad.
          split; [done | unfold stamp; cbn; lia].
        + destruct (end_parse_function_new_scope clock info st name Hname Hextends)
            as [-> _].
          apply Forall_app. split; [done|]. apply Forall_singleton.
          rewrite Hstart, Hpad, sub64_small by (unfold in_i64; lia).
          split; unfold stamp; cbn; lia.
      - by destruct (end_parse_function_no_scope clock info st Hname) as [-> _]. }
    destruct (end_parse_function_unfold clock info st) as (scopes & did & Heq).
    rewrite Heq in Hscopes |- *. unfold stamps_in_range. revert Hscopes. fields.
    intros Hscopes. rewrite Hstart.
    split; [done|]. split; [done|]. split; [lia|]. split; [done|]. split; [done|].
    split; [|done].
    apply Forall_app. split; [done|]. apply Forall_singleton.
    split; unfold stamp; cbn; lia.
  - by intros ? ? (? & ? & ->) ?.
Qed.

Lemma start_opt_pass_stamps_in_range (pass : option opt_pass) (st : State) :
  stamps_in_range st → stamps_in_range (start_opt_pass clock pass st).
Proof.
  intros (Hs & He & Hl & [Hlp _] & Hp & Hf & Hsc).
  pose proof (clock_bounded (ticks st)) as Hnow.
  rewrite start_opt_pass_unfold. unfold stamps_in_range. cbv zeta. fields.
  rewrite add64_small by (unfold in_i64; lia).
  split; [done|]. split; [done|]. split; [done|].
  split; [split; unfold stamp; cbn; lia|]. split; [|done].
  destruct (ope_pass (last_pass st)); [|done].
  apply Forall_app. split; [done|]. apply Forall_singleton.
  split; [done | unfold stamp; cbn; lia].
Qed.

Lemma initial_state_stamps_in_range : stamps_in_range initial_state.
Proof.
  unfold stamps_in_range, initial_state. fields.
  split; [intros k v Hk; by rewrite lookup_empty in Hk|].
  split; [intros k v Hk; by rewrite lookup_empty in Hk|].
  split; [lia|]. split; [split; unfold stamp; cbn; lia|].
  repeat split; apply Forall_nil_2.
Qed.

Lemma trace_events_durations (now : Z) (files : list (string * Z)) (st : State) :
  stamp now → stamps_in_range st →
  files ≡ₚ map_to_list (preprocess_start st) →
  Forall (λ event, in_i64 (duration event)) (trace_events now files st).
Proof.
  intros Hnow (Hs & He & _ & _ & Hp & Hf & Hsc) Hfiles.
  unfold trace_events. apply Forall_cons_2.
  { apply span_stamps_duration. split; [unfold stamp; cbn; lia | done]. }
  apply Forall_app. split.
  { apply Forall_forall. intros event ((k & v) & Hin & Hevent)%list_elem_of_omap.
    unfold inclusion_trace_event in Hevent. cbn [fst snd] in Hevent.
    destruct (String.eqb k CIRCULAR_POISON_VALUE); [done|].
    destruct (preprocess_end st !! k) as [e|] eqn:Hend; [|done].
    injection Hevent as <-. apply span_stamps_duration.
    rewrite Hfiles in Hin.
    apply elem_of_map_to_list in Hin. split; cbn; [by eapply Hs | by eapply He]. }
  apply Forall_app. split.
  { apply Forall_forall. intros event (e & Hin & Hevent)%list_elem_of_omap.
    unfold stage_trace_event in Hevent.
    destruct (ope_pass e); [|done]. injection Hevent as <-.
    apply span_stamps_duration. cbn. by eapply (proj1 (Forall_forall _ _) Hp). }
  apply Forall_app. split.
  - apply Forall_fmap. eapply Forall_impl; [exact Hf|].
    intros e. apply span_stamps_duration.
  - apply Forall_fmap. eapply Forall_impl; [exact Hsc|].
    intros e. apply span_stamps_duration.
Qed.

(** Tracking callbacks never write to the trace. *)
Lemma callback_nothing_emitted (cb : Callback) (st st' : State) :
  nothing_emitted st → callback clock realpath cb st = Some st' → nothing_emitted st'.
Proof.
  intros Hinv [->|[->|[(f & n & _ & ->)|[(top & rest & Hstack & ->)|
               [Hfinish|[(info & _ & ->)|(pass & _ & ->)]]]]]]%callback_cases; try done.
  - unfold nothing_emitted, push_inclusion. cbn. by split_conditional.
  - unfold nothing_emitted, close_top. cbn. by split_conditional.
  - destruct (finish_preprocessing_stage_total clock nothing_emitted st)
      as (st2 & Hst2 & Hinv2 & _); [| done | done | congruence].
    intros s top rest _ Hs. unfold nothing_emitted, close_top. cbn. by split_conditional.
  - by destruct (end_parse_function_unfold clock info st) as (? & ? & ->).
  - by rewrite start_opt_pass_unfold.
Qed.

Lemma run_nothing_emitted (cbs : list Callback) (st st' : State) :
  nothing_emitted st → run clock realpath cbs st = Some st' → nothing_emitted st'.
Proof.
  revert st. induction cbs as [|cb cbs IH]; intros st Hst; cbn.
  - by intros [= <-].
  - destruct (callback clock realpath cb st) as [st1|] eqn:Hcb; [|done].
    apply IH. by eapply callback_nothing_emitted.
Qed.

(** X12. The shape of the trace.  With clock readings in range, after
    any run the array built by [write_all_events] consists of the "B"/"E"
    pairs of exactly those events of [trace_events] that last at least
    1,000,000 ns, in that order, numbered 0, 1, 2, ... without gaps; the
    callbacks before it have written nothing.  The files of
    [preprocess_start] come in the order [files] in which the map is
    visited, some enumeration of the map; nothing is said about which.
    (The event count is taken below the limit of the [int] counter.) *)
Theorem trace_is_paired_and_numbered (cbs : list Callback) (st : State) :
  run clock realpath cbs initial_state = Some st →
  output_events_list st = [] ∧
  ∃ closed files st',
    finish_preprocessing_stage clock (set_ticks (S (ticks st)) st) = Some closed ∧
    files ≡ₚ map_to_list (preprocess_start closed) ∧
    cb_plugin_finish clock pid st = Some st' ∧
    let events := trace_events (clock (ticks st)) files closed in
    let kept := filter (λ event, 1000000 ≤ duration event) events in
    (Z.of_nat (length events) < 2 ^ 31 →
     output_events_list st' = paired_records pid 0 kept ∧
     je_uid <$> output_events_list st' =
       seqZ 0 (Z.of_nat (length kept)) ≫= (λ u, [u; u]) ∧
     UID st' = Z.of_nat (length kept)).
Proof.
  intros Hrun.
  assert (Hquiet : nothing_emitted st).
  { by apply (run_nothing_emitted cbs initial_state st). }
  split; [apply Hquiet|].
  destruct (write_all_events_in_order clock pid st
              (run_writable clock realpath cbs st Hrun))
    as (closed & Hclosed & _ & _ & Hwrite).
  exists closed, (map_to_list (preprocess_start closed)). eexists.
  split; [exact Hclosed|]. split; [done|]. split; [exact Hwrite|].
  cbv zeta. intros Hcount.
  assert (Hstamps : stamps_in_range st).
  { apply (run_preserved clock realpath stamps_in_range stamps_in_range_preserved
             cbs initial_state st); [|apply initial_state_stamps_in_range | done].
    intros s pass. apply start_opt_pass_stamps_in_range. }
  destruct (finish_preprocessing_stage_total clock
              (λ s, stamps_in_range s ∧ nothing_emitted s)
              (set_ticks (S (ticks st)) st))
    as (closed' & Hclosed' & [Hstamps' [Huid Hout]] & _).
  { intros s top rest Hs [? ?].
    split; [by apply (pres_close _ _ stamps_in_range_preserved)|].
    unfold nothing_emitted, close_top. cbn. by split_conditional. }
  { intros s [? ?]. split; [by apply (pres_read _ _ stamps_in_range_preserved) | done]. }
  { split; [by apply (pres_tick _ _ stamps_in_range_preserved) | done]. }
  assert (closed' = closed) as -> by congruence.
  destruct (add_events_paired pid
              (trace_events (clock (ticks st)) (map_to_list (preprocess_start closed))
                 closed) closed)
    as [Hpairs Hnext].
  - apply trace_events_durations; [apply reading_stamp | done | done].
  - lia.
  - lia.
  - rewrite Hout, Huid in *. cbn [app] in Hpairs. rewrite Hpairs.
    split; [done|]. split; [apply paired_records_uids | lia].
Qed.

End Stamps.

Lemma clock_5ms_capped_in_range : clock_in_range clock_5ms_capped.
Proof. intros i. unfold clock_5ms_capped. lia. Qed.

Lemma trace_is_paired_and_numbered_witness :
  ∃ st st',
    run clock_5ms_capped realpath_id run_with_everything initial_state = Some st ∧
    cb_plugin_finish clock_5ms_capped 42 st = Some st' ∧
    je_uid <$> output_events_list st' = [0; 0; 1; 1; 2; 2; 3; 3; 4; 4; 5; 5] ∧
    UID st' = 6.
Proof.
  destruct (run clock_5ms_capped realpath_id run_with_everything initial_state)
    as [st|] eqn:Hrun; [|vm_compute in Hrun; discriminate].
  destruct (trace_is_paired_and_numbered clock_5ms_capped realpath_id 42
              clock_5ms_capped_in_range run_with_everything st Hrun)
    as (_ & closed & files & st' & Hclosed & Hfiles & Hwrite & Hshape).
  exists st, st'. split; [done|]. split; [exact Hwrite|].
  vm_compute in Hrun. injection Hrun as <-.
  vm_compute in Hclosed. injection Hclosed as <-.
  vm_compute in Hfiles. symmetry in Hfiles.
  apply Permutation.Permutation_length_2_inv in Hfiles as [->| ->];
    (destruct Hshape as (_ & Huids & Hnext); [vm_compute; reflexivity|]);
    (split; [rewrite Huids | rewrite Hnext]; vm_compute; reflexivity).
Defined.

(** X13. The category written in the "cat" field determines the
    category, and for a pass event the kind of the pass: no two
    categories share a string and no two pass kinds share a category. *)
Theorem category_string_decodes :
  (∀ c1 c2, category_string c1 = category_string c2 → c1 = c2) ∧
  (∀ k1 k2, category_string (pass_type k1) = category_string (pass_type k2) → k1 = k2).
Proof.
  split.
  - by intros [] [].
  - by intros [] [].
Qed.

(** ** Passes and functions in a run *)

Lemma contiguous_snoc (spans : list TimeSpan) (span : TimeSpan) :
  contiguous spans →
  (∀ a, last spans = Some a → ts_start span = ts_end a + 1) →
  contiguous (spans ++ [span]).
Proof.
  intros Hspans Hlast i a b Ha Hb.
  assert (Hi : (S i < length (spans ++ [span]))%nat) by (by eapply lookup_lt_Some).
  rewrite length_app in Hi. cbn in Hi.
  rewrite lookup_app_l in Ha by lia.
  destruct (decide (S i < length spans)%nat) as [Hin|Hout].
  - rewrite lookup_app_l in Hb by done. by eapply Hspans.
  - assert (S i = length spans) as Hlen by lia.
    rewrite Hlen, list_lookup_middle in Hb by done. injection Hb as <-.
    apply Hlast. rewrite last_lookup. by rewrite <- Hlen.
Qed.

Section RunRecords.

Variable clock : nat → Z.
Variable realpath : string → option string.

(** Callbacks other than a parsed function leave the function list
    alone; callbacks other than a parsed function leave the scopes. *)
Lemma callback_function_fields (cb : Callback) (st st' : State) :
  (∀ info, cb ≠ cb_finish_parse_function info) →
  callback clock realpath cb st = Some st' →
  function_events st' = function_events st ∧ scope_events st' = scope_events st.
Proof.
  intros Hcb [->|[->|[(f & n & _ & ->)|[(top & rest & Hstack & ->)|
              [Hfinish|[(info & -> & _)|(pass & _ & ->)]]]]]]%callback_cases; try done.
  - unfold push_inclusion. cbn. by split_conditional.
  - unfold close_top. cbn. by split_conditional.
  - destruct (finish_preprocessing_stage_total clock
                (λ s, function_events s = function_events st ∧
                      scope_events s = scope_events st) st)
      as (st2 & Hst2 & Hinv2 & _); [| done | done | congruence].
    intros s top rest _ Hs. unfold close_top. cbn. by split_conditional.
  - by destruct (Hcb info).
  - by rewrite start_opt_pass_unfold.
Qed.

(** X14. Every parsed function is recorded once, in the order of the
    callbacks, under the name and file it was reported with. *)
Theorem functions_recorded_in_order (cbs : list Callback) (st : State) :
  run clock realpath cbs initial_state = Some st →
  (λ e, (fe_name e, fe_file_name e)) <$> function_events st =
  (λ info, (ff_name info, ff_file_name info)) <$> functions_parsed cbs.
Proof.
  change ((λ info, (ff_name info, ff_file_name info)) <$> functions_parsed cbs)
    with (((λ e, (fe_name e, fe_file_name e)) <$> function_events initial_state) ++
          ((λ info, (ff_name info, ff_file_name info)) <$> functions_parsed cbs)).
  generalize initial_state. induction cbs as [|cb cbs IH]; intros s; cbn [run].
  - intros [= <-]. cbn. by rewrite app_nil_r.
  - destruct (callback clock realpath cb s) as [s1|] eqn:Hcb; [|done].
    intros Hrun. rewrite (IH s1 Hrun).
    assert (Hkind : (∃ info, cb = cb_finish_parse_function info) ∨
                    (∀ info, cb ≠ cb_finish_parse_function info))
      by (destruct cb; eauto).
    destruct Hkind as [[info ->]|Hother].
    + cbn [callback] in Hcb. injection Hcb as <-.
      rewrite end_parse_function_function_events, fmap_app, <- app_assoc. reflexivity.
    + destruct (callback_function_fields cb s s1 Hother Hcb) as [-> _].
      by destruct cb; [..|destruct (Hother info)|].
Qed.

Hypothesis clock_bounded : clock_in_range clock.

Lemma run_stages_tile (cbs : list Callback) (st st' : State) :
  Forall is_Some (passes_executed cbs) →
  contiguous (ope_ts <$> pass_events st) →
  (∀ e, last (pass_events st) = Some e →
        is_Some (ope_pass (last_pass st)) ∧
        ts_start (ope_ts (last_pass st)) = ts_end (ope_ts e) + 1) →
  run clock realpath cbs st = Some st' →
  contiguous (ope_ts <$> pass_events st') ∧
  (∀ e, last (pass_events st') = Some e →
        is_Some (ope_pass (last_pass st')) ∧
        ts_start (ope_ts (last_pass st')) = ts_end (ope_ts e) + 1).
Proof.
  revert st. induction cbs as [|cb cbs IH]; intros st Hall Htile Hlast; cbn [run].
  - by intros [= <-].
  - destruct (callback clock realpath cb st) as [st1|] eqn:Hcb; [|done].
    assert (Hkind : (∃ pass, cb = cb_pass_execution pass) ∨
                    (∀ pass, cb ≠ cb_pass_execution pass))
      by (destruct cb; eauto).
    destruct Hkind as [[pass ->]|Hother].
    + cbn [passes_executed] in Hall. apply Forall_cons in Hall as [Hpass Hall].
      cbn [callback] in Hcb. injection Hcb as <-.
      apply IH; [done | |]; rewrite start_opt_pass_unfold; cbv zeta; fields.
      * destruct (ope_pass (last_pass st)) as [p|] eqn:Hp; [|done].
        rewrite fmap_app. apply contiguous_snoc; [done|].
        intros a Ha. rewrite fmap_last in Ha.
        destruct (last (pass_events st)) as [e|] eqn:He; [|done].
        injection Ha as <-. cbn. by apply Hlast.
      * pose proof (clock_bounded (ticks st)) as Hnow.
        rewrite add64_small by (unfold in_i64; lia). cbn [ope_pass ope_ts ts_start].
        destruct (ope_pass (last_pass st)) as [p|] eqn:Hp.
        -- intros e He. rewrite last_snoc in He. injection He as <-. by cbn.
        -- intros e He. destruct (Hlast e He) as [[? ?] _]. done.
    + destruct (callback_pass_fields clock realpath cb st st1 Hother Hcb) as [Hpe Hlp].
      apply IH; [by destruct cb; [..|destruct (Hother pass)] | by rewrite Hpe |].
      by rewrite Hpe, Hlp.
Qed.

(** X15. When every pass handed to [start_opt_pass] is non-null and the
    clock is in range, the stored stage spans tile the timeline: each
    starts one nanosecond after the one before it ends, and the pending
    pass starts one nanosecond after the last stored one ends. *)
Theorem stages_tile_the_timeline (cbs : list Callback) (st : State) :
  Forall is_Some (passes_executed cbs) →
  run clock realpath cbs initial_state = Some st →
  contiguous (ope_ts <$> pass_events st) ∧
  (∀ e, last (pass_events st) = Some e →
        ts_start (ope_ts (last_pass st)) = ts_end (ope_ts e) + 1).
Proof.
  intros Hall Hrun.
  destruct (run_stages_tile cbs initial_state st Hall) as [Htile Hlast]; [| done | done |].
  - intros i a b Ha. cbn in Ha. by rewrite lookup_nil in Ha.
  - split; [done|]. intros e He. by apply Hlast.
Qed.

(** X16. The spacing of function spans.  A function parsed right after
    another starts exactly 3 ns after that one ends; a function parsed
    right after a file is left starts 6 ns after the reading taken on
    leaving, whatever the clock has advanced to. *)
Theorem function_spacing (info1 info2 : FinishedFunction) (st : State) :
  (∃ f1 f2,
     function_events (end_parse_function clock info2 (end_parse_function clock info1 st))
       = function_events st ++ [f1; f2] ∧
     ts_end (fe_ts f1) = clock (ticks st) ∧
     ts_start (fe_ts f2) = ts_end (fe_ts f1) + 3) ∧
  (∀ top rest,
     preprocessing_stack st = top :: rest →
     ∃ left f,
       end_preprocess_file clock st = Some left ∧
       function_events (end_parse_function clock info1 left) = function_events st ++ [f] ∧
       ts_start (fe_ts f) = clock (ticks st) + 6 ∧
       ts_end (fe_ts f) = clock (S (ticks st))).
Proof.
  pose proof (clock_bounded (ticks st)) as Hnow.
  split.
  - eexists _, _. rewrite !end_parse_function_function_events, <- app_assoc.
    rewrite end_parse_function_last_ts.
    split; [reflexivity|]. split; [reflexivity|]. cbn [fe_ts ts_start ts_end].
    apply add64_small. unfold in_i64. lia.
  - intros top rest Hstack. eexists _, _.
    split; [by apply end_preprocess_file_unfold|].
    destruct (close_top_fields clock top rest st) as (Ht & _ & _ & Hl).
    rewrite end_parse_function_function_events, Hl, Ht.
    assert (Hf : function_events (close_top clock top rest st) = function_events st).
    { unfold close_top. cbn. by split_conditional. }
    rewrite Hf. split; [reflexivity|]. cbn [fe_ts ts_start ts_end]. split; [|done].
    rewrite (add64_small (clock _)) by (unfold in_i64; lia).
    rewrite add64_small by (unfold in_i64; lia). lia.
Qed.


(** X18. Scope categories of declarations.  When every parsed function
    is reported the way [cb_finish_parse_function] builds it from a
    declaration, a function without a context or directly in the
    translation unit never touches the scope list, and every scope event
    is a namespace, a struct, or, for any other kind of context,
    UNKNOWN. *)
Theorem scope_categories_of_declarations (cbs : list Callback) (st : State) :
  Forall (λ info, ∃ decl, info = finished_function_of_decl decl) (functions_parsed cbs) →
  run clock realpath cbs initial_state = Some st →
  Forall (λ e, se_type e = NAMESPACE ∨ se_type e = STRUCT ∨ se_type e = UNKNOWN)
    (scope_events st) ∧
  (∀ decl,
     (decl_context decl = None ∨
      ∃ name, decl_context decl = Some (TRANSLATION_UNIT_DECL, name)) →
     scope_events (end_parse_function clock (finished_function_of_decl decl) st)
       = scope_events st).
Proof.
  intros Hall Hrun. split.
  - revert Hall Hrun.
    assert (Hinit : Forall (λ e, se_type e = NAMESPACE ∨ se_type e = STRUCT ∨
                                 se_type e = UNKNOWN) (scope_events initial_state))
      by apply Forall_nil_2.
    revert Hinit. generalize initial_state.
    induction cbs as [|cb cbs IH]; intros s Hs Hall; cbn [run].
    + by intros [= <-].
    + destruct (callback clock realpath cb s) as [s1|] eqn:Hcb; [|done].
      assert (Hkind : (∃ info, cb = cb_finish_parse_function info) ∨
                      (∀ info, cb ≠ cb_finish_parse_function info))
        by (destruct cb; eauto).
      destruct Hkind as [[info ->]|Hother].
      * cbn [functions_parsed] in Hall. apply Forall_cons in Hall as [[decl ->] Hall].
        cbn [callback] in Hcb. injection Hcb as <-.
        apply IH; [|done].
        set (info := finished_function_of_decl decl).
        assert (Htype : ff_scope_type info = NAMESPACE ∨ ff_scope_type info = STRUCT ∨
                        ff_scope_type info = UNKNOWN).
        { subst info. unfold finished_function_of_decl.
          destruct (decl_context decl) as [[[] ?]|]; cbn; tauto. }
        destruct (ff_scope_name info) as [name|] eqn:Hname.
        -- destruct (extends_last_scope s name) eqn:Hextends.
           ++ apply extends_last_scope_true in Hextends
                as (earlier & back & Hsc & Hdid & Hback).
              destruct (end_parse_function_same_scope clock info s name earlier back
                          Hname Hsc Hdid Hback) as [-> _].
              rewrite Hsc in Hs. apply Forall_app in Hs as [Hearlier Hlast].
              apply Forall_app. split; [done|]. apply Forall_singleton.
              apply Forall_inv in Hlast. exact Hlast.
           ++ destruct (end_parse_function_new_scope clock info s name Hname Hextends)
                as [-> _].
              apply Forall_app. split; [done|]. by apply Forall_singleton.
        -- by destruct (end_parse_function_no_scope clock info s Hname) as [-> _].
      * destruct (callback_function_fields cb s s1 Hother Hcb) as [_ Hsc].
        apply IH; [by rewrite Hsc|].
        by destruct cb; [..|destruct (Hother info)|].
  - intros decl Hglobal. apply end_parse_function_no_scope.
    unfold finished_function_of_decl. by destruct Hglobal as [->|[name ->]].
Qed.

End RunRecords.

Lemma functions_recorded_in_order_witness :
  ∃ st,
    run clock_5ms realpath_id run_with_declarations initial_state = Some st ∧
    (λ e, (fe_name e, fe_file_name e)) <$> function_events st =
      [("void NS::f()", "main.cpp"); ("int main()", "main.cpp");
       ("main()::<lambda()>", "main.cpp")]%string.
Proof.
  destruct (run clock_5ms realpath_id run_with_declarations initial_state)
    as [st|] eqn:Hrun; [|vm_compute in Hrun; discriminate].
  exists st. split; [done|].
  exact (functions_recorded_in_order clock_5ms realpath_id run_with_declarations st Hrun).
Defined.

Lemma stages_tile_the_timeline_witness :
  ∃ st,
    run clock_5ms_capped realpath_id run_with_four_passes initial_state = Some st ∧
    length (pass_events st) = 3%nat ∧
    contiguous (ope_ts <$> pass_events st).
Proof.
  destruct (run clock_5ms_capped realpath_id run_with_four_passes initial_state)
    as [st|] eqn:Hrun; [|vm_compute in Hrun; discriminate].
  assert (Hall : Forall is_Some (passes_executed run_with_four_passes)).
  { cbn. repeat (apply Forall_cons_2; [by eexists|]). apply Forall_nil_2. }
  destruct (stages_tile_the_timeline clock_5ms_capped realpath_id
              clock_5ms_capped_in_range run_with_four_passes st Hall Hrun) as [Htile _].
  exists st. split; [done|]. split; [|exact Htile].
  vm_compute in Hrun. injection Hrun as <-. reflexivity.
Defined.

Lemma function_spacing_witness :
  ∃ f1 f2,
    function_events
      (end_parse_function clock_5ms_capped (info_in_NS "g")
         (end_parse_function clock_5ms_capped (info_in_NS "f") initial_state)) = [f1; f2] ∧
    ts_start (fe_ts f2) = ts_end (fe_ts f1) + 3.
Proof.
  destruct (function_spacing clock_5ms_capped clock_5ms_capped_in_range
              (info_in_NS "f") (info_in_NS "g") initial_state)
    as [(f1 & f2 & Hfunctions & _ & Hspacing) _].
  exists f1, f2. split; [exact Hfunctions | exact Hspacing].
Defined.


Lemma scope_categories_of_declarations_witness :
  ∃ st,
    run clock_5ms_capped realpath_id run_with_declarations initial_state = Some st ∧
    length (scope_events st) = 2%nat ∧
    Forall (λ e, se_type e = NAMESPACE ∨ se_type e = STRUCT ∨ se_type e = UNKNOWN)
      (scope_events st).
Proof.
  destruct (run clock_5ms_capped realpath_id run_with_declarations initial_state)
    as [st|] eqn:Hrun; [|vm_compute in Hrun; discriminate].
  assert (Hall : Forall (λ info, ∃ decl, info = finished_function_of_decl decl)
                   (functions_parsed run_with_declarations)).
  { cbn [functions_parsed run_with_declarations].
    repeat (apply Forall_cons_2; [by eexists|]). apply Forall_nil_2. }
  destruct (scope_categories_of_declarations clock_5ms_capped realpath_id
              run_with_declarations st Hall Hrun)
    as [Htypes _].
  exists st. split; [done|]. split; [|exact Htypes].
  vm_compute in Hrun. injection Hrun as <-. reflexivity.
Defined.
